(** * USDCFacilitator: permit-based delegated transfers

    A shallow embedding of [contract/USDCFacilitatorBulk.sol] (the four
    [facilitate...] entry points, the replay registry [usedPermits] and the
    hash helpers) and of the amount codec of [src/utils/permitUtils.js]
    ([formatUSDCAmount], [parseUSDCAmount]).

    Solidity values are integers ([Z]); storage is a record; the token
    behind the [IUSDC] interface is a type class, so every statement about
    the contract holds for every token (the token does not call back into
    the contract, which [nonReentrant] enforces). An entry point is a
    function from the chain state to an outcome: it completes with a new
    state, or it reverts with an error. A [revert] discards every storage
    write and every token call made since the transaction started:
    [transact] gives the state a transaction leaves behind. *)

From Stdlib Require Import ZArith Lia Bool String Ascii.
From stdpp Require Import base gmap list.

Local Open Scope Z_scope.

(** ** Solidity value types *)

Abbreviation address := Z (only parsing).
Abbreviation uint256 := Z (only parsing).
Abbreviation uint8 := Z (only parsing).
Abbreviation bytes32 := Z (only parsing).

Definition MAX_UINT256 : Z := 2 ^ 256 - 1.

Definition is_uint256 (x : Z) : Prop := 0 <= x <= MAX_UINT256.

(** [struct Recipient { address to; uint256 amount; }] *)
Record Recipient : Type := mkRecipient { to : address; amount : uint256 }.

(** The custom errors of the contract, the arithmetic panic of checked
    [uint256] operations (Solidity 0.8), and a revert raised inside the
    token by a call that is not wrapped in [try]. *)
Inductive Error : Type :=
| InvalidPermitSignature
| PermitAlreadyUsed
| PermitExpired
| InsufficientBalance
| InvalidFeeAmount
| InvalidRecipient
| ZeroAmount
| InvalidFeeCollector
| EmptyRecipientList
| InvalidRecipientAmount
| ArithmeticPanic
| TokenReverted.

Inductive Event : Type :=
| FacilitationExecuted (owner to_ : address) (amountSent feeAmount : uint256)
| BulkFacilitationExecuted (owner : address)
    (recipientCount totalAmountSent feeAmount : uint256)
| FeeCollectorUpdated (oldCollector newCollector : address).

(** The state-changing calls the contract makes on the token, in the order
    it makes them. *)
Inductive Call : Type :=
| CallPermit (owner spender : address) (value deadline : uint256)
    (v : uint8) (r s : bytes32)
| CallTransferFrom (from to_ : address) (amount_ : uint256).

(** ** The token behind [interface IUSDC]

    [L] is the token's own state. A state-changing function gets the block
    timestamp and its caller, and returns [None] when it reverts. *)
Class IUSDC (L : Type) : Type := {
  permit : Z -> address -> address -> address -> uint256 -> uint256 ->
           uint8 -> bytes32 -> bytes32 -> L -> option L;
  transferFrom : Z -> address -> address -> address -> uint256 -> L ->
                 option (bool * L);
  balanceOf : L -> address -> uint256;
  decimals : L -> uint8;
  nonces : L -> address -> uint256
}.

(** ** [abi.encodePacked]: big-endian, fixed width per static type *)

Fixpoint be_bytes (n : nat) (x : Z) : list Z :=
  match n with
  | O => []
  | S k => be_bytes k (x / 256) ++ [x mod 256]
  end.

Definition enc_address (a : address) : list Z := be_bytes 20 a.
Definition enc_uint256 (x : uint256) : list Z := be_bytes 32 x.
Definition enc_uint8 (x : uint8) : list Z := be_bytes 1 x.
Definition enc_bytes32 (x : bytes32) : list Z := be_bytes 32 x.

(** ** Chain state *)

(** Storage of the contract: [feeCollector] and
    [mapping(bytes32 => bool) usedPermits]. *)
Record Storage : Type := mkStorage {
  feeCollector : address;
  usedPermits : gmap Z bool
}.

(** What one transaction can change: the contract's storage, the token's
    state, the events emitted and the token calls made. *)
Record Chain (L : Type) : Type := mkChain {
  store : Storage;
  token : L;
  log : list Event;
  trace : list Call
}.
Arguments mkChain {L} _ _ _ _.
Arguments store {L} _.
Arguments token {L} _.
Arguments log {L} _.
Arguments trace {L} _.

(** [address(this)] and [block.timestamp]. *)
Record Env : Type := mkEnv { this : address; block_timestamp : Z }.

(** Reading [usedPermits[h]]: an absent key reads [false]. *)
Definition isUsed (m : gmap Z bool) (h : bytes32) : bool :=
  default false (m !! h).

(** ** Transactions *)

(** A call either completes with a result and the chain it leaves, or
    reverts with an error. [Reverted] keeps the working state the call had
    reached when it reverted, so that one can see what had been written and
    which token calls had been made up to that point; none of it survives
    (see [transact]). *)
Inductive Outcome (L A : Type) : Type :=
| Done (a : A) (c : Chain L)
| Reverted (e : Error) (working : Chain L).
Arguments Done {L A} _ _.
Arguments Reverted {L A} _ _.

Definition Tx (L A : Type) : Type := Chain L -> Outcome L A.

Definition ret {L A} (a : A) : Tx L A := fun c => Done a c.

Definition bind {L A B} (m : Tx L A) (k : A -> Tx L B) : Tx L B :=
  fun c => match m c with
           | Done a c' => k a c'
           | Reverted e c' => Reverted e c'
           end.

Definition revert {L A} (e : Error) : Tx L A := fun c => Reverted e c.

(** [if (cond) revert E();] *)
Definition revert_if {L} (cond : bool) (e : Error) : Tx L unit :=
  if cond then revert e else ret tt.

Definition emit {L} (ev : Event) : Tx L unit :=
  fun c => Done tt (mkChain (store c) (token c) (log c ++ [ev]) (trace c)).

Definition markUsed {L} (h : bytes32) : Tx L unit :=
  fun c => Done tt
    (mkChain (mkStorage (feeCollector (store c))
                        (<[h := true]> (usedPermits (store c))))
             (token c) (log c) (trace c)).

#[global] Instance tx_ret {L} : MRet (Tx L) := fun A a => ret a.
#[global] Instance tx_bind {L} : MBind (Tx L) := fun A B k m => bind m k.

(** The state after a transaction and the error it reverted with, if any.
    A revert undoes every state change of the transaction: the working
    state is dropped and the chain is as the transaction found it. *)
Definition transact {L} (tx : Tx L unit) (c : Chain L) : Chain L * option Error :=
  match tx c with
  | Done _ c' => (c', None)
  | Reverted e _ => (c, Some e)
  end.

(** Checked [uint256] arithmetic of Solidity 0.8. *)
Definition checked_add {L} (a b : uint256) : Tx L uint256 :=
  if a + b <=? MAX_UINT256 then ret (a + b) else revert ArithmeticPanic.

Definition checked_sub {L} (a b : uint256) : Tx L uint256 :=
  if b <=? a then ret (a - b) else revert ArithmeticPanic.

(** ** The contract *)

Section Facilitator.
Context {L : Type} `{IUSDC L}.

(** [keccak256] is a parameter: the contract only compares digests. *)
Variable keccak256 : list Z -> bytes32.
Variable env : Env.

(** *** Calls on the token *)

Definition usdc_balanceOf (account : address) : Tx L uint256 :=
  fun c => Done (balanceOf (token c) account) c.

Definition usdc_nonces (owner : address) : Tx L uint256 :=
  fun c => Done (nonces (token c) owner) c.

(** [try usdc.permit(...) {} catch { revert InvalidPermitSignature(); }] *)
Definition usdc_try_permit (owner spender : address) (value deadline : uint256)
    (v : uint8) (r s : bytes32) : Tx L unit :=
  fun c =>
    match permit (block_timestamp env) (this env)
                 owner spender value deadline v r s (token c) with
    | Some l' =>
        Done tt (mkChain (store c) l' (log c)
                   (trace c ++ [CallPermit owner spender value deadline v r s]))
    | None => Reverted InvalidPermitSignature c
    end.

(** [usdc.transferFrom(from, to, amount);] the returned [bool] is dropped
    by every caller; a revert inside the token aborts the transaction. *)
Definition usdc_transferFrom (from to_ : address) (amount_ : uint256) : Tx L bool :=
  fun c =>
    match transferFrom (block_timestamp env) (this env)
                       from to_ amount_ (token c) with
    | Some (ok, l') =>
        Done ok (mkChain (store c) l' (log c)
                   (trace c ++ [CallTransferFrom from to_ amount_]))
    | None => Reverted TokenReverted c
    end.

Definition read_usedPermits (h : bytes32) : Tx L bool :=
  fun c => Done (isUsed (usedPermits (store c)) h) c.

Definition read_feeCollector : Tx L address :=
  fun c => Done (feeCollector (store c)) c.

(** *** Fingerprints *)

(** [keccak256(abi.encodePacked(owner, address(this), value, deadline, v, r, s))] *)
Definition permitHash (owner : address) (value deadline : uint256)
    (v : uint8) (r s : bytes32) : bytes32 :=
  keccak256 (enc_address owner ++ enc_address (this env) ++ enc_uint256 value ++
             enc_uint256 deadline ++ enc_uint8 v ++ enc_bytes32 r ++ enc_bytes32 s).

(** [keccak256(abi.encodePacked(owner, address(this), value, deadline, nonce, v, r, s))] *)
Definition nonStandardPermitHash (owner : address) (value deadline nonce : uint256)
    (v : uint8) (r s : bytes32) : bytes32 :=
  keccak256 (enc_address owner ++ enc_address (this env) ++ enc_uint256 value ++
             enc_uint256 deadline ++ enc_uint256 nonce ++
             enc_uint8 v ++ enc_bytes32 r ++ enc_bytes32 s).

(** [keccak256(abi.encodePacked(owner, address(this), totalValue, deadline,
    nonce, recipients.length))] *)
Definition bulkNonStandardPermitHash (owner : address)
    (totalValue deadline nonce recipientCount : uint256) : bytes32 :=
  keccak256 (enc_address owner ++ enc_address (this env) ++ enc_uint256 totalValue ++
             enc_uint256 deadline ++ enc_uint256 nonce ++ enc_uint256 recipientCount).

(** [calculatePermitHash] (external view) *)
Definition calculatePermitHash (owner : address) (value deadline : uint256)
    (v : uint8) (r s : bytes32) : bytes32 :=
  keccak256 (enc_address owner ++ enc_address (this env) ++ enc_uint256 value ++
             enc_uint256 deadline ++ enc_uint8 v ++ enc_bytes32 r ++ enc_bytes32 s).

(** [calculateBulkPermitHash] (external view) *)
Definition calculateBulkPermitHash (owner : address)
    (totalValue deadline recipientCount : uint256) : bytes32 :=
  keccak256 (enc_address owner ++ enc_address (this env) ++ enc_uint256 totalValue ++
             enc_uint256 deadline ++ enc_uint256 recipientCount).

(** [isPermitUsed] (external view) *)
Definition isPermitUsed (h : bytes32) (c : Chain L) : bool :=
  isUsed (usedPermits (store c)) h.

(** [calculateTotalRecipientAmount] (external pure): the checked sum. *)
Fixpoint calculateTotalRecipientAmount_from (total : uint256)
    (recipients : list Recipient) : Tx L uint256 :=
  match recipients with
  | [] => mret total
  | rc :: rest =>
      total' ← checked_add total (amount rc);
      calculateTotalRecipientAmount_from total' rest
  end.

Definition calculateTotalRecipientAmount (recipients : list Recipient) : Tx L uint256 :=
  calculateTotalRecipientAmount_from 0 recipients.

(** *** The loops of the bulk entry points *)

(** [for (i...) { if (recipients[i].to == address(0)) revert InvalidRecipient();
      if (recipients[i].amount == 0) revert InvalidRecipientAmount();
      totalRecipientAmount += recipients[i].amount; }] *)
Fixpoint validateRecipients (totalRecipientAmount : uint256)
    (recipients : list Recipient) : Tx L uint256 :=
  match recipients with
  | [] => mret totalRecipientAmount
  | rc :: rest =>
      revert_if (to rc =? 0) InvalidRecipient;;
      revert_if (amount rc =? 0) InvalidRecipientAmount;;
      total' ← checked_add totalRecipientAmount (amount rc);
      validateRecipients total' rest
  end.

(** [for (i...) { usdc.transferFrom(owner, recipients[i].to, recipients[i].amount); }] *)
Fixpoint transferToEach (owner : address) (recipients : list Recipient) : Tx L unit :=
  match recipients with
  | [] => mret tt
  | rc :: rest =>
      usdc_transferFrom owner (to rc) (amount rc);;
      transferToEach owner rest
  end.

(** [if (feeAmount > 0) { usdc.transferFrom(owner, feeCollector, feeAmount); }] *)
Definition transferFee (owner : address) (feeAmount : uint256) : Tx L unit :=
  if feeAmount >? 0 then
    collector ← read_feeCollector;
    usdc_transferFrom owner collector feeAmount;;
    mret tt
  else mret tt.

(** [recipients.length] as a [uint256]. *)
Definition length_of (recipients : list Recipient) : uint256 :=
  Z.of_nat (length recipients).

(** *** Entry points *)

Definition facilitateTransferWithPermit (owner to_ : address)
    (value deadline : uint256) (v : uint8) (r s : bytes32)
    (feeAmount : uint256) : Tx L unit :=
  revert_if ((owner =? 0) || (to_ =? 0)) InvalidRecipient;;
  revert_if (value =? 0) ZeroAmount;;
  revert_if (feeAmount >=? value) InvalidFeeAmount;;
  revert_if (block_timestamp env >? deadline) PermitExpired;;
  let h := permitHash owner value deadline v r s in
  used ← read_usedPermits h;
  revert_if used PermitAlreadyUsed;;
  markUsed h;;
  balance ← usdc_balanceOf owner;
  revert_if (balance <? value) InsufficientBalance;;
  usdc_try_permit owner (this env) value deadline v r s;;
  amountToRecipient ← checked_sub value feeAmount;
  transferFee owner feeAmount;;
  usdc_transferFrom owner to_ amountToRecipient;;
  emit (FacilitationExecuted owner to_ amountToRecipient feeAmount).

Definition facilitateBulkTransferWithPermit (owner : address)
    (recipients : list Recipient) (totalValue deadline : uint256)
    (v : uint8) (r s : bytes32) (feeAmount : uint256) : Tx L unit :=
  revert_if (owner =? 0) InvalidRecipient;;
  revert_if (length_of recipients =? 0) EmptyRecipientList;;
  revert_if (totalValue =? 0) ZeroAmount;;
  revert_if (feeAmount >=? totalValue) InvalidFeeAmount;;
  revert_if (block_timestamp env >? deadline) PermitExpired;;
  totalRecipientAmount ← validateRecipients 0 recipients;
  expected ← checked_add totalRecipientAmount feeAmount;
  revert_if (negb (totalValue =? expected)) InvalidFeeAmount;;
  balance ← usdc_balanceOf owner;
  revert_if (balance <? totalValue) InsufficientBalance;;
  usdc_try_permit owner (this env) totalValue deadline v r s;;
  transferFee owner feeAmount;;
  transferToEach owner recipients;;
  emit (BulkFacilitationExecuted owner (length_of recipients)
          totalRecipientAmount feeAmount).

Definition facilitateTransferWithNonStandardPermit (owner to_ : address)
    (value deadline : uint256) (v : uint8) (r s : bytes32)
    (feeAmount : uint256) : Tx L unit :=
  revert_if ((owner =? 0) || (to_ =? 0)) InvalidRecipient;;
  revert_if (value =? 0) ZeroAmount;;
  revert_if (feeAmount >=? value) InvalidFeeAmount;;
  revert_if (block_timestamp env >? deadline) PermitExpired;;
  nonce ← usdc_nonces owner;
  let h := nonStandardPermitHash owner value deadline nonce v r s in
  used ← read_usedPermits h;
  revert_if used PermitAlreadyUsed;;
  markUsed h;;
  balance ← usdc_balanceOf owner;
  revert_if (balance <? value) InsufficientBalance;;
  usdc_try_permit owner (this env) value deadline v r s;;
  amountToRecipient ← checked_sub value feeAmount;
  transferFee owner feeAmount;;
  usdc_transferFrom owner to_ amountToRecipient;;
  emit (FacilitationExecuted owner to_ amountToRecipient feeAmount).

Definition facilitateBulkTransferWithNonStandardPermit (owner : address)
    (recipients : list Recipient) (totalValue deadline : uint256)
    (v : uint8) (r s : bytes32) (feeAmount : uint256) : Tx L unit :=
  revert_if (owner =? 0) InvalidRecipient;;
  revert_if (length_of recipients =? 0) EmptyRecipientList;;
  revert_if (totalValue =? 0) ZeroAmount;;
  revert_if (feeAmount >=? totalValue) InvalidFeeAmount;;
  revert_if (block_timestamp env >? deadline) PermitExpired;;
  totalRecipientAmount ← validateRecipients 0 recipients;
  expected ← checked_add totalRecipientAmount feeAmount;
  revert_if (negb (totalValue =? expected)) InvalidFeeAmount;;
  nonce ← usdc_nonces owner;
  let h := bulkNonStandardPermitHash owner totalValue deadline nonce
             (length_of recipients) in
  used ← read_usedPermits h;
  revert_if used PermitAlreadyUsed;;
  markUsed h;;
  balance ← usdc_balanceOf owner;
  revert_if (balance <? totalValue) InsufficientBalance;;
  usdc_try_permit owner (this env) totalValue deadline v r s;;
  transferFee owner feeAmount;;
  transferToEach owner recipients;;
  emit (BulkFacilitationExecuted owner (length_of recipients)
          totalRecipientAmount feeAmount).

(** *** What a list of token calls does to the token *)

Definition apply_call (call : Call) (l : L) : option L :=
  match call with
  | CallPermit owner spender value deadline v r s =>
      permit (block_timestamp env) (this env) owner spender value deadline v r s l
  | CallTransferFrom from to_ amount_ =>
      match transferFrom (block_timestamp env) (this env) from to_ amount_ l with
      | Some (_, l') => Some l'
      | None => None
      end
  end.

Fixpoint apply_calls (calls : list Call) (l : L) : option L :=
  match calls with
  | [] => Some l
  | call :: rest =>
      match apply_call call l with
      | Some l' => apply_calls rest l'
      | None => None
      end
  end.

End Facilitator.

(** The sum of the recipient amounts as an integer, without overflow. *)
Definition sum_amounts (recipients : list Recipient) : Z :=
  foldr (fun rc acc => amount rc + acc) 0 recipients.

Arguments sum_amounts : simpl never.

(** The errors of the checks on the arguments and the deadline, which
    every entry point makes before it reads the registry or the balance
    and before it calls [permit] or [transferFrom]. *)
Definition is_input_error (e : Error) : bool :=
  match e with
  | InvalidRecipient | EmptyRecipientList | ZeroAmount | InvalidFeeAmount
  | PermitExpired | InvalidRecipientAmount | ArithmeticPanic => true
  | _ => false
  end.

(** The bytes that [permitHash] hashes. *)
Definition permit_preimage (this_ owner : address) (value deadline : uint256)
    (v : uint8) (r s : bytes32) : list Z :=
  enc_address owner ++ enc_address this_ ++ enc_uint256 value ++
  enc_uint256 deadline ++ enc_uint8 v ++ enc_bytes32 r ++ enc_bytes32 s.

(** The transfers of a request, in the order of the source: the fee (when
    non-zero), then the recipient or recipients. *)
Definition fee_move (owner collector_ : address) (feeAmount : uint256) : list Call :=
  if feeAmount >? 0 then [CallTransferFrom owner collector_ feeAmount] else [].

Definition recipient_moves (owner : address) (recipients : list Recipient) : list Call :=
  map (fun rc => CallTransferFrom owner (to rc) (amount rc)) recipients.

(** ** A reference token and digest for running the contract

    The theorems below hold for every token and every digest function. To
    run the contract on concrete requests we fix a plain ERC-20 ledger with
    an EIP-2612 style [permit] (deadline, per-owner nonce, allowance) and a
    small stand-in digest. *)

Definition ref_keccak256 (bytes : list Z) : bytes32 :=
  fold_left (fun h b => (h * 1099511628211 + b + 1) mod 2 ^ 256)
            bytes 14695981039346656037.

Record RefLedger : Type := mkRefLedger {
  ref_balances : gmap Z Z;
  ref_allowances : gmap (Z * Z) Z;
  ref_nonces : gmap Z Z
}.

Definition ref_balanceOf (l : RefLedger) (a : address) : uint256 :=
  default 0 (ref_balances l !! a).

Definition ref_allowance (l : RefLedger) (owner spender : address) : uint256 :=
  default 0 (ref_allowances l !! (owner, spender)).

Definition ref_nonceOf (l : RefLedger) (a : address) : uint256 :=
  default 0 (ref_nonces l !! a).

(** The signature the reference token accepts from [owner] for a permit
    message: a fixed recovery byte, the digest of the message, and the
    holder's identity. *)
Definition ref_sign_r (owner spender : address) (value nonce deadline : uint256)
    : bytes32 :=
  ref_keccak256 (enc_address owner ++ enc_address spender ++ enc_uint256 value ++
                 enc_uint256 nonce ++ enc_uint256 deadline).

Definition ref_sign (owner spender : address) (value nonce deadline : uint256)
    : uint8 * bytes32 * bytes32 :=
  (27, ref_sign_r owner spender value nonce deadline, owner).

Definition ref_permit (now : Z) (caller owner spender : address)
    (value deadline : uint256) (v : uint8) (r s : bytes32) (l : RefLedger)
    : option RefLedger :=
  let '(v0, r0, s0) := ref_sign owner spender value (ref_nonceOf l owner) deadline in
  if (now <=? deadline) && (v =? v0) && (r =? r0) && (s =? s0) then
    Some (mkRefLedger (ref_balances l)
            (<[(owner, spender) := value]> (ref_allowances l))
            (<[owner := ref_nonceOf l owner + 1]> (ref_nonces l)))
  else None.

Definition ref_transferFrom (now : Z) (caller from to_ : address)
    (amount_ : uint256) (l : RefLedger) : option (bool * RefLedger) :=
  if (amount_ <=? ref_balanceOf l from) && (amount_ <=? ref_allowance l from caller)
  then
    let debited := <[from := ref_balanceOf l from - amount_]> (ref_balances l) in
    let credited := <[to_ := default 0 (debited !! to_) + amount_]> debited in
    Some (true,
          mkRefLedger credited
            (<[(from, caller) := ref_allowance l from caller - amount_]>
               (ref_allowances l))
            (ref_nonces l))
  else None.

#[global] Instance RefToken : IUSDC RefLedger := {
  permit := ref_permit;
  transferFrom := ref_transferFrom;
  balanceOf := ref_balanceOf;
  decimals := fun _ => 6;
  nonces := ref_nonceOf
}.

(** A deployment: the facilitator at address 4096, fee collector 77, and a
    holder [alice] with a balance; [bob] and [carol] are recipients. *)
Definition facilitator_address : address := 4096.
Definition collector : address := 77.
Definition alice : address := 1001.
Definition bob : address := 1002.
Definition carol : address := 1003.

Definition at_time (now : Z) : Env := mkEnv facilitator_address now.

Definition genesis (alice_balance : uint256) : Chain RefLedger :=
  mkChain (mkStorage collector ∅)
          (mkRefLedger {[alice := alice_balance]} ∅ ∅)
          [] [].

(** ** The amount codec: [src/utils/permitUtils.js]

    [formatUSDCAmount] and [parseUSDCAmount] wrap [ethers.parseUnits] and
    [ethers.formatUnits] in a [try]/[catch]. The two library functions are
    those of ethers v6 (the file calls [ethers.parseUnits], [ethers.isAddress]
    and [ethers.Signature.from], the v6 entry points); they are embedded
    from the library's [FixedNumber.fromString] and its [toString] helper,
    with the fixed format [{ decimals, width: 512 }] that [units.ts] passes.
    A JavaScript exception is [None]. *)

Module Ethers.

Local Open Scope char_scope.

(** [const Zeros = "0000"] *)
Definition Zeros : list ascii := ["0"; "0"; "0"; "0"].

Definition is_digit (c : ascii) : bool :=
  let n := nat_of_ascii c in (48 <=? n)%nat && (n <=? 57)%nat.

Definition digit_value (c : ascii) : Z := Z.of_nat (nat_of_ascii c) - 48.

Definition digit_char (d : Z) : ascii := ascii_of_nat (Z.to_nat (48 + d)).

(** [BigInt(digits)] for a string of decimal digits. *)
Definition BigInt_of_digits (ds : list ascii) : Z :=
  fold_left (fun acc c => 10 * acc + digit_value c) ds 0%Z.

(** The decimal digits of a non-negative integer, most significant first. *)
Fixpoint digits_of (fuel : nat) (n : Z) : list ascii :=
  match fuel with
  | O => []
  | S f =>
      if (n <? 10)%Z then [digit_char n]
      else digits_of f (n / 10) ++ [digit_char (n mod 10)]
  end.

Definition digits (n : Z) : list ascii := digits_of (S (Z.to_nat (Z.log2 n))) n.

(** [value.toString()] of a BigInt. *)
Definition BigInt_toString (n : Z) : list ascii :=
  if (n <? 0)%Z then "-" :: digits (- n) else digits n.

Fixpoint take_digits (s : list ascii) : list ascii :=
  match s with
  | c :: t => if is_digit c then c :: take_digits t else []
  | [] => []
  end.

Fixpoint drop_digits (s : list ascii) : list ascii :=
  match s with
  | c :: t => if is_digit c then drop_digits t else s
  | [] => []
  end.

(** [_value.match(...)] against the pattern: an optional minus sign, a run
    of digits 0-9, an optional point, a run of digits 0-9, end of input.
    Returns the sign, the whole part and the decimal part, or [None] when
    the string does not match. *)
Definition match_number (s : list ascii) : option (bool * list ascii * list ascii) :=
  let '(negative, s1) :=
    match s with
    | c :: t => if Ascii.eqb c "-" then (true, t) else (false, s)
    | [] => (false, s)
    end in
  let whole := take_digits s1 in
  let s2 := drop_digits s1 in
  let s3 :=
    match s2 with
    | c :: t => if Ascii.eqb c "." then t else s2
    | [] => s2
    end in
  let decimal := take_digits s3 in
  match drop_digits s3 with
  | [] => Some (negative, whole, decimal)
  | _ :: _ => None
  end.

(** [while (decimal.length < format.decimals) { decimal += Zeros; }] *)
Fixpoint pad_decimal (fuel : nat) (decimal : list ascii) (decimals : nat) : list ascii :=
  match fuel with
  | O => decimal
  | S f =>
      if (length decimal <? decimals)%nat
      then pad_decimal f (decimal ++ Zeros) decimals
      else decimal
  end.

(** [while (str.length <= decimals) { str = Zeros + str; }] *)
Fixpoint pad_whole (fuel : nat) (str : list ascii) (decimals : nat) : list ascii :=
  match fuel with
  | O => str
  | S f =>
      if (length str <=? decimals)%nat
      then pad_whole f (Zeros ++ str) decimals
      else str
  end.

(** [while (str[0] === "0" && str[1] !== ".") { str = str.substring(1); }] *)
Fixpoint trim_leading (str : list ascii) : list ascii :=
  match str with
  | c0 :: t =>
      if Ascii.eqb c0 "0" then
        match t with
        | c1 :: _ => if Ascii.eqb c1 "." then str else trim_leading t
        | [] => trim_leading t
        end
      else str
  | [] => []
  end.

(** [while (str[str.length - 1] === "0" && str[str.length - 2] !== ".")
      { str = str.substring(0, str.length - 1); }]: the same loop from the
    other end. *)
Definition trim_trailing (str : list ascii) : list ascii :=
  rev (trim_leading (rev str)).

(** [getFormat]: [assertArgument(decimals <= 80, ...)]. *)
Definition format_ok (decimals : nat) : bool := (decimals <=? 80)%nat.

(** [checkValue] for the signed 512-bit format: throws outside
    [-2^511 .. 2^511 - 1], and is the identity inside. *)
Definition checkValue (val : Z) : option Z :=
  if ((- 2 ^ 511 <=? val) && (val <? 2 ^ 511))%Z then Some val else None.

(** [FixedNumber.fromString(_value, { decimals, width: 512 }).value] *)
Definition fromString (value : list ascii) (decimals : nat) : option Z :=
  match match_number value with
  | None => None
  | Some (negative, whole0, decimal0) =>
      if (length whole0 + length decimal0 =? 0)%nat then None
      else if negb (format_ok decimals) then None
      else
        let whole := match whole0 with [] => ["0"] | _ => whole0 end in
        let decimal := pad_decimal decimals decimal0 decimals in
        if negb (forallb (Ascii.eqb "0") (drop decimals decimal)) then None
        else
          let decimal := take decimals decimal in
          let magnitude := BigInt_of_digits (whole ++ decimal) in
          checkValue (if negative then - magnitude else magnitude)%Z
  end.

(** [toString(val, decimals)] of [fixednumber.ts]. *)
Definition toString (val : Z) (decimals : nat) : list ascii :=
  let negative := if (val <? 0)%Z then ["-"] else [] in
  let str := digits (Z.abs val) in
  if (decimals =? 0)%nat then negative ++ str
  else
    let str := pad_whole (S decimals) str decimals in
    let index := (length str - decimals)%nat in
    let str := take index str ++ "." :: drop index str in
    negative ++ trim_trailing (trim_leading str).

(** [ethers.parseUnits(value, decimals)] *)
Definition parseUnits (value : string) (decimals : nat) : option Z :=
  fromString (list_ascii_of_string value) decimals.

(** [ethers.formatUnits(value, decimals)] *)
Definition formatUnits (value : Z) (decimals : nat) : option string :=
  if negb (format_ok decimals) then None
  else
    match checkValue value with
    | Some val => Some (string_of_list_ascii (toString val decimals))
    | None => None
    end.

End Ethers.

(** [export const formatUSDCAmount = (amount, decimals = 18) => { try {
      return ethers.parseUnits(amount.toString(), decimals).toString();
    } catch (error) { console.error(...); return '0'; } }] *)
Definition formatUSDCAmount (amount : string) (decimals : nat) : string :=
  match Ethers.parseUnits amount decimals with
  | Some units => string_of_list_ascii (Ethers.BigInt_toString units)
  | None => "0"%string
  end.

(** [export const parseUSDCAmount = (amount, decimals = 18) => { try {
      return ethers.formatUnits(amount.toString(), decimals);
    } catch (error) { console.error(...); return '0'; } }]
    for an integer [amount] (a BigInt, or its decimal string). *)
Definition parseUSDCAmount (amount : Z) (decimals : nat) : string :=
  match Ethers.formatUnits amount decimals with
  | Some text => text
  | None => "0"%string
  end.

(** Strings of decimal digits. *)
Definition all_digits (s : list ascii) : Prop :=
  Forall (fun c => Ethers.is_digit c = true) s.

(** The number of characters after the decimal point of a decimal string
    (none when there is no point). *)
Fixpoint fraction_digits (s : list ascii) : nat :=
  match s with
  | [] => 0%nat
  | c :: t => if Ascii.eqb c "."%char then length t else fraction_digits t
  end.

(** ** The recipient rows of the bulk form: [src/components/FacilitateTransfer.jsx]

    The page keeps the rows in [bulkFormData.recipients], starting from one
    empty row, and changes them through [addRecipient], [removeRecipient]
    and [handleRecipientChange]; after a bulk transfer has succeeded the
    list is set back to one empty row. Only the [recipients] field of the
    form state is followed here. *)
Module FacilitateTransfer.











End FacilitateTransfer.

(** ** Requests used in the examples

    All are signed by [alice] for the facilitator with nonce 0 and deadline
    2000. *)

(** A single transfer of 1,000,000 with a fee. *)
Definition single_request (now : Z) (to_ : address) (feeAmount : uint256)
    : Tx RefLedger unit :=
  facilitateTransferWithPermit ref_keccak256 (at_time now) alice to_ 1000000 2000
    27 (ref_sign_r alice facilitator_address 1000000 0 2000) alice feeAmount.

Definition single_fingerprint : bytes32 :=
  permitHash ref_keccak256 (at_time 0) alice 1000000 2000
    27 (ref_sign_r alice facilitator_address 1000000 0 2000) alice.

(** A bulk transfer to [bob] and [carol] with fee 10,000. *)
Definition two_recipients : list Recipient :=
  [mkRecipient bob 600000; mkRecipient carol 390000].

Definition bulk_request (now : Z) (totalValue : uint256) : Tx RefLedger unit :=
  facilitateBulkTransferWithPermit (at_time now) alice two_recipients totalValue 2000
    27 (ref_sign_r alice facilitator_address totalValue 0 2000) alice 10000.



(** The chain after [alice]'s single request has completed: its
    fingerprint is marked used. *)
Definition after_single : Chain RefLedger :=
  fst (transact (single_request 1000 bob 10000) (genesis 1000000)).

Arguments ref_keccak256 : simpl never.
Arguments ref_sign_r : simpl never.

(** The total amount of the [transferFrom] calls in a list of token calls. *)
Definition moved_total (calls : list Call) : Z :=
  foldr (fun call acc =>
           match call with
           | CallTransferFrom _ _ amount_ => amount_ + acc
           | CallPermit _ _ _ _ _ _ _ => acc
           end) 0 calls.

(** ** The transfer interface as a whole

    A request names one of the four external transfer functions together
    with its arguments; [facilitate] dispatches it. *)
Inductive Request : Type :=
| TransferWithPermit (owner to_ : address) (value deadline : uint256)
    (v : uint8) (r s : bytes32) (feeAmount : uint256)
| BulkTransferWithPermit (owner : address) (recipients : list Recipient)
    (totalValue deadline : uint256) (v : uint8) (r s : bytes32) (feeAmount : uint256)
| TransferWithNonStandardPermit (owner to_ : address) (value deadline : uint256)
    (v : uint8) (r s : bytes32) (feeAmount : uint256)
| BulkTransferWithNonStandardPermit (owner : address) (recipients : list Recipient)
    (totalValue deadline : uint256) (v : uint8) (r s : bytes32) (feeAmount : uint256).

Definition facilitate {L : Type} `{IUSDC L} (keccak256 : list Z -> bytes32)
    (env : Env) (req : Request) : Tx L unit :=
  match req with
  | TransferWithPermit owner to_ value deadline v r s feeAmount =>
      facilitateTransferWithPermit keccak256 env owner to_ value deadline v r s feeAmount
  | BulkTransferWithPermit owner recipients totalValue deadline v r s feeAmount =>
      facilitateBulkTransferWithPermit env owner recipients totalValue deadline
        v r s feeAmount
  | TransferWithNonStandardPermit owner to_ value deadline v r s feeAmount =>
      facilitateTransferWithNonStandardPermit keccak256 env owner to_ value deadline
        v r s feeAmount
  | BulkTransferWithNonStandardPermit owner recipients totalValue deadline v r s
      feeAmount =>
      facilitateBulkTransferWithNonStandardPermit keccak256 env owner recipients
        totalValue deadline v r s feeAmount
  end.

(** The arguments of a request by their role. *)
Definition request_owner (req : Request) : address :=
  match req with
  | TransferWithPermit owner _ _ _ _ _ _ _
  | BulkTransferWithPermit owner _ _ _ _ _ _ _
  | TransferWithNonStandardPermit owner _ _ _ _ _ _ _
  | BulkTransferWithNonStandardPermit owner _ _ _ _ _ _ _ => owner
  end.

Definition request_value (req : Request) : uint256 :=
  match req with
  | TransferWithPermit _ _ value _ _ _ _ _
  | BulkTransferWithPermit _ _ value _ _ _ _ _
  | TransferWithNonStandardPermit _ _ value _ _ _ _ _
  | BulkTransferWithNonStandardPermit _ _ value _ _ _ _ _ => value
  end.

Definition request_deadline (req : Request) : uint256 :=
  match req with
  | TransferWithPermit _ _ _ deadline _ _ _ _
  | BulkTransferWithPermit _ _ _ deadline _ _ _ _
  | TransferWithNonStandardPermit _ _ _ deadline _ _ _ _
  | BulkTransferWithNonStandardPermit _ _ _ deadline _ _ _ _ => deadline
  end.

Definition request_fee (req : Request) : uint256 :=
  match req with
  | TransferWithPermit _ _ _ _ _ _ _ feeAmount
  | BulkTransferWithPermit _ _ _ _ _ _ _ feeAmount
  | TransferWithNonStandardPermit _ _ _ _ _ _ _ feeAmount
  | BulkTransferWithNonStandardPermit _ _ _ _ _ _ _ feeAmount => feeAmount
  end.

(** The [permit] call a request makes on the token. *)
Definition request_permit (this_ : address) (req : Request) : Call :=
  match req with
  | TransferWithPermit owner _ value deadline v r s _
  | BulkTransferWithPermit owner _ value deadline v r s _
  | TransferWithNonStandardPermit owner _ value deadline v r s _
  | BulkTransferWithNonStandardPermit owner _ value deadline v r s _ =>
      CallPermit owner this_ value deadline v r s
  end.

(** The transfers a request makes to its recipient or recipients. *)
Definition request_moves (req : Request) : list Call :=
  match req with
  | TransferWithPermit owner to_ value _ _ _ _ feeAmount
  | TransferWithNonStandardPermit owner to_ value _ _ _ _ feeAmount =>
      [CallTransferFrom owner to_ (value - feeAmount)]
  | BulkTransferWithPermit owner recipients _ _ _ _ _ _
  | BulkTransferWithNonStandardPermit owner recipients _ _ _ _ _ _ =>
      recipient_moves owner recipients
  end.

(** All token calls of a request that completes, in the order of the
    source. *)
Definition request_calls (this_ collector_ : address) (req : Request) : list Call :=
  request_permit this_ req
  :: fee_move (request_owner req) collector_ (request_fee req)
  ++ request_moves req.

(** The fingerprint an entry point checks and records, if it keeps one;
    [nonce] is the owner's token nonce when the request runs. *)
Definition request_fingerprint (keccak256 : list Z -> bytes32) (env : Env)
    (nonce : uint256) (req : Request) : option bytes32 :=
  match req with
  | TransferWithPermit owner _ value deadline v r s _ =>
      Some (permitHash keccak256 env owner value deadline v r s)
  | BulkTransferWithPermit _ _ _ _ _ _ _ _ => None
  | TransferWithNonStandardPermit owner _ value deadline v r s _ =>
      Some (nonStandardPermitHash keccak256 env owner value deadline nonce v r s)
  | BulkTransferWithNonStandardPermit owner recipients totalValue deadline _ _ _ _ =>
      Some (bulkNonStandardPermitHash keccak256 env owner totalValue deadline nonce
              (length_of recipients))
  end.

(** The event a request emits when it completes. *)
Definition request_event (req : Request) : Event :=
  match req with
  | TransferWithPermit owner to_ value _ _ _ _ feeAmount
  | TransferWithNonStandardPermit owner to_ value _ _ _ _ feeAmount =>
      FacilitationExecuted owner to_ (value - feeAmount) feeAmount
  | BulkTransferWithPermit owner recipients _ _ _ _ _ feeAmount
  | BulkTransferWithNonStandardPermit owner recipients _ _ _ _ _ feeAmount =>
      BulkFacilitationExecuted owner (length_of recipients) (sum_amounts recipients)
        feeAmount
  end.

(** The storage after a request that completes. *)
Definition record_fingerprint (fingerprint : option bytes32) (st : Storage) : Storage :=
  match fingerprint with
  | Some h => mkStorage (feeCollector st) (<[h := true]> (usedPermits st))
  | None => st
  end.

(** The amounts an event reports: what was sent on, and the fee. *)
Definition event_amounts (ev : Event) : Z * Z :=
  match ev with
  | FacilitationExecuted _ _ amountSent feeAmount => (amountSent, feeAmount)
  | BulkFacilitationExecuted _ _ totalAmountSent feeAmount => (totalAmountSent, feeAmount)
  | FeeCollectorUpdated _ _ => (0, 0)
  end.


(** What the checks of a bulk entry point have established when it
    completes. *)
Definition bulk_checked {L : Type} `{IUSDC L} (env : Env) (owner : address)
    (recipients : list Recipient) (totalValue deadline feeAmount : uint256)
    (c : Chain L) : Prop :=
  (owner <> 0 /\ recipients <> [] /\ totalValue <> 0 /\ feeAmount < totalValue /\
   block_timestamp env <= deadline) /\
  Forall (fun rc => to rc <> 0 /\ amount rc <> 0) recipients /\
  totalValue = sum_amounts recipients + feeAmount /\
  totalValue <= balanceOf (token c) owner.

(** What the error of a request says about the state it ran in. *)
Definition error_cause {L : Type} `{IUSDC L} (keccak256 : list Z -> bytes32)
    (env : Env) (req : Request) (c : Chain L) (e : Error) : Prop :=
  match e with
  | PermitExpired => request_deadline req < block_timestamp env
  | PermitAlreadyUsed =>
      exists h,
        request_fingerprint keccak256 env (nonces (token c) (request_owner req)) req
          = Some h /\
        isPermitUsed h c = true
  | InsufficientBalance =>
      balanceOf (token c) (request_owner req) < request_value req
  | InvalidPermitSignature =>
      apply_call env (request_permit (this env) req) (token c) = None
  | TokenReverted =>
      exists l1,
        apply_call env (request_permit (this env) req) (token c) = Some l1 /\
        apply_calls env
          (fee_move (request_owner req) (feeCollector (store c)) (request_fee req)
           ++ request_moves req) l1 = None
  | _ => True
  end.

(** A token that moves funds as the reference token does but answers
    [false] from [transferFrom]. *)
Definition quiet_transferFrom (now : Z) (caller from to_ : address)
    (amount_ : uint256) (l : RefLedger) : option (bool * RefLedger) :=
  match ref_transferFrom now caller from to_ amount_ l with
  | Some (_, l') => Some (false, l')
  | None => None
  end.

Definition QuietToken : IUSDC RefLedger := {|
  permit := ref_permit;
  transferFrom := quiet_transferFrom;
  balanceOf := ref_balanceOf;
  decimals := fun _ => 6;
  nonces := ref_nonceOf
|}.

(** ** Ownership and administration

    The contract inherits [Ownable] of OpenZeppelin 5 (the constructor
    calls [Ownable(msg.sender)]): one owner address, set at deployment;
    [onlyOwner] reverts with [OwnableUnauthorizedAccount(msg.sender)] when
    the caller is not the owner, and the [Ownable] constructor reverts with
    [OwnableInvalidOwner(address(0))] for a null initial owner. The events
    of [Ownable] itself are left out of the log. *)
Inductive AdminError : Type :=
| OwnableUnauthorizedAccount (account : address)
| OwnableInvalidOwner (owner : address)
| ContractError (e : Error).

(** A deployed facilitator: the owner kept by [Ownable], the immutable
    [usdc] address, and the chain state of the transfer functions. *)
Record Deployed (L : Type) : Type := mkDeployed {
  ownable_owner : address;
  usdc : address;
  chain : Chain L
}.
Arguments mkDeployed {L} _ _ _.
Arguments ownable_owner {L} _.
Arguments usdc {L} _.
Arguments chain {L} _.

(** [constructor(address _usdc, address _feeCollector) Ownable(msg.sender)],
    deployed next to a token in state [l]. *)
Definition constructor {L} (msg_sender _usdc _feeCollector : address) (l : L)
    : AdminError + Deployed L :=
  if msg_sender =? 0 then inl (OwnableInvalidOwner 0)
  else if (_usdc =? 0) || (_feeCollector =? 0) then inl (ContractError InvalidFeeCollector)
  else inr (mkDeployed msg_sender _usdc (mkChain (mkStorage _feeCollector ∅) l [] [])).

(** [function updateFeeCollector(address newFeeCollector) external onlyOwner] *)
Definition updateFeeCollector {L} (msg_sender newFeeCollector : address)
    (d : Deployed L) : AdminError + Deployed L :=
  if negb (msg_sender =? ownable_owner d) then inl (OwnableUnauthorizedAccount msg_sender)
  else if newFeeCollector =? 0 then inl (ContractError InvalidFeeCollector)
  else
    let c := chain d in
    let oldCollector := feeCollector (store c) in
    inr (mkDeployed (ownable_owner d) (usdc d)
           (mkChain (mkStorage newFeeCollector (usedPermits (store c)))
                    (token c)
                    (log c ++ [FeeCollectorUpdated oldCollector newFeeCollector])
                    (trace c))).

(** What can happen to a deployed facilitator: a transfer request from any
    account at some block time, a call of [updateFeeCollector] from some
    account, a change of owner through the functions of [Ownable], and a
    change of the token's state by transactions that do not go through the
    facilitator. *)
Inductive Action (L : Type) : Type :=
| Facilitate (env : Env) (req : Request)
| UpdateFeeCollector (msg_sender newFeeCollector : address)
| OwnershipChanged (newOwner : address)
| TokenChanged (l : L).
Arguments Facilitate {L} _ _.
Arguments UpdateFeeCollector {L} _ _.
Arguments OwnershipChanged {L} _.
Arguments TokenChanged {L} _.

(** The state after one action; a reverted transaction leaves it as it
    was. *)
Definition act {L : Type} `{IUSDC L} (keccak256 : list Z -> bytes32)
    (a : Action L) (d : Deployed L) : Deployed L :=
  match a with
  | Facilitate env req =>
      mkDeployed (ownable_owner d) (usdc d)
        (fst (transact (facilitate keccak256 env req) (chain d)))
  | UpdateFeeCollector msg_sender newFeeCollector =>
      match updateFeeCollector msg_sender newFeeCollector d with
      | inr d' => d'
      | inl _ => d
      end
  | OwnershipChanged newOwner => mkDeployed newOwner (usdc d) (chain d)
  | TokenChanged l =>
      mkDeployed (ownable_owner d) (usdc d)
        (mkChain (store (chain d)) l (log (chain d)) (trace (chain d)))
  end.

(** The state after a sequence of actions, first to last. *)
Definition history {L : Type} `{IUSDC L} (keccak256 : list Z -> bytes32)
    (actions : list (Action L)) (d : Deployed L) : Deployed L :=
  fold_left (fun d' a => act keccak256 a d') actions d.

(** ** Requests and deployments used in the further examples *)

(** [alice]'s signature over a permit of 1,000,000 to the facilitator with
    nonce 0 and deadline 2000. *)
Definition alice_signature : bytes32 :=
  ref_sign_r alice facilitator_address 1000000 0 2000.

(** The four kinds of request for that permit, with fee 10,000. *)
Definition single_req : Request :=
  TransferWithPermit alice bob 1000000 2000 27 alice_signature alice 10000.

Definition bulk_req : Request :=
  BulkTransferWithPermit alice two_recipients 1000000 2000 27 alice_signature alice 10000.

Definition nonstandard_req : Request :=
  TransferWithNonStandardPermit alice bob 1000000 2000 27 alice_signature alice 10000.

Definition bulk_nonstandard_req : Request :=
  BulkTransferWithNonStandardPermit alice two_recipients 1000000 2000 27
    alice_signature alice 10000.


(** A facilitator deployed by account 9 for the token at address 5000. *)
Definition deployer : address := 9.

Definition deployed (c : Chain RefLedger) : Deployed RefLedger :=
  mkDeployed deployer 5000 c.

(** A sequence of actions: a transfer, two attempts to change the
    collector that fail (a stranger; the null address), one that succeeds,
    a change of owner, and a replay of the transfer. *)
Definition some_actions : list (Action RefLedger) :=
  [Facilitate (at_time 1000) single_req;
   UpdateFeeCollector bob 88;
   UpdateFeeCollector deployer 0;
   UpdateFeeCollector deployer 88;
   OwnershipChanged carol;
   Facilitate (at_time 1500) single_req].

(** The chains that the non-standard requests leave when they are carried
    out: the single one on a balance of 1,000,000, the bulk one on a balance
    of 2,000,000. *)
Definition after_nonstandard : Chain RefLedger :=
  Eval vm_compute in
    fst (transact (facilitate ref_keccak256 (at_time 1000) nonstandard_req)
           (genesis 1000000)).



(** * Properties of the contract *)

Ltac tx_unfold :=
  unfold mbind, mret, tx_bind, tx_ret, revert_if, read_usedPermits,
    read_feeCollector, markUsed, usdc_balanceOf, usdc_nonces, emit,
    checked_add, checked_sub, bind, ret, revert in *.

(** Decide one guard of an entry point from the context. *)
Ltac settle b v := replace b with v by (symmetry; lia); cbn.

Section FacilitatorProperties.
Context {L : Type} `{IUSDC L}.
Variable keccak256 : list Z -> bytes32.

(** *** The loops *)

Lemma length_of_nonempty (rs : list Recipient) :
  rs <> [] -> (length_of rs =? 0) = false.
Proof.
  unfold length_of. destruct rs as [|rc rest]; [congruence|]. intros _.
  apply Z.eqb_neq. rewrite length_cons. lia.
Qed.

Lemma sum_amounts_nil : sum_amounts [] = 0.
Proof. reflexivity. Qed.

Lemma sum_amounts_cons (rc : Recipient) (rest : list Recipient) :
  sum_amounts (rc :: rest) = amount rc + sum_amounts rest.
Proof. reflexivity. Qed.

Lemma sum_amounts_nonneg (rs : list Recipient) :
  Forall (fun rc => to rc <> 0 /\ 0 < amount rc) rs -> 0 <= sum_amounts rs.
Proof.
  induction 1 as [|rc rest [_ Hpos] _ IH].
  - rewrite sum_amounts_nil. lia.
  - rewrite sum_amounts_cons. lia.
Qed.

Lemma validateRecipients_inv (rs : list Recipient) :
  forall (acc : Z) (c : Chain L),
    (exists e, validateRecipients acc rs c = Reverted e c /\ is_input_error e = true) \/
    (validateRecipients acc rs c = Done (acc + sum_amounts rs) c /\
     Forall (fun rc => to rc <> 0 /\ amount rc <> 0) rs).
Proof.
  induction rs as [|rc rest IH]; intros acc c;
    [rewrite sum_amounts_nil | rewrite sum_amounts_cons]; cbn.
  - right. split; [|constructor]. tx_unfold. f_equal. lia.
  - tx_unfold.
    destruct (to rc =? 0) eqn:Hto; cbn; [left; eauto|].
    destruct (amount rc =? 0) eqn:Ham; cbn; [left; eauto|].
    destruct (acc + amount rc <=? MAX_UINT256) eqn:Hov; cbn; [|left; eauto].
    destruct (IH (acc + amount rc) c) as [(e & He & Hin)|[Hd Hall]]; [left; eauto|].
    right. split.
    + rewrite Hd. f_equal. lia.
    + constructor; [split; lia | exact Hall].
Qed.

Lemma validateRecipients_ok (rs : list Recipient) :
  forall (acc : Z) (c : Chain L),
    Forall (fun rc => to rc <> 0 /\ 0 < amount rc) rs ->
    acc + sum_amounts rs <= MAX_UINT256 ->
    validateRecipients acc rs c = Done (acc + sum_amounts rs) c.
Proof.
  induction rs as [|rc rest IH]; intros acc c Hall Hsum;
    [rewrite sum_amounts_nil in * | rewrite sum_amounts_cons in *]; cbn.
  - tx_unfold. f_equal. lia.
  - inversion Hall as [|? ? [Hto Ham] Hrest]; subst.
    pose proof (sum_amounts_nonneg _ Hrest).
    tx_unfold.
    settle (to rc =? 0) false. settle (amount rc =? 0) false.
    settle (acc + amount rc <=? MAX_UINT256) true.
    rewrite IH by (auto; lia). f_equal. lia.
Qed.

Lemma transferFee_done env owner fee (c c' : Chain L) :
  transferFee env owner fee c = Done tt c' ->
  store c' = store c /\ log c' = log c /\
  trace c' = trace c ++ fee_move owner (feeCollector (store c)) fee /\
  apply_calls env (fee_move owner (feeCollector (store c)) fee) (token c)
    = Some (token c').
Proof.
  unfold transferFee, fee_move, usdc_transferFrom. tx_unfold.
  destruct (fee >? 0); cbn.
  - destruct (transferFrom _ _ _ _ _ _) as [[ok l']|] eqn:Ht; [|discriminate].
    intros [= <-]; cbn. auto.
  - intros [= <-]. rewrite app_nil_r. auto.
Qed.

Lemma transferToEach_done env owner (rs : list Recipient) :
  forall c c' : Chain L,
    transferToEach env owner rs c = Done tt c' ->
    store c' = store c /\ log c' = log c /\
    trace c' = trace c ++ recipient_moves owner rs /\
    apply_calls env (recipient_moves owner rs) (token c) = Some (token c').
Proof.
  induction rs as [|rc rest IH]; intros c c'; cbn.
  - tx_unfold. intros [= <-]. rewrite app_nil_r. auto.
  - unfold usdc_transferFrom. tx_unfold.
    destruct (transferFrom _ _ _ _ _ _) as [[ok l']|] eqn:Ht; [|discriminate].
    intros Hrest. apply IH in Hrest as (Hs & Hl & Htr & Hap). cbn in *.
    rewrite Hs, Hl, Htr, <- app_assoc. auto.
Qed.

(** *** Transactions that revert, transactions that complete *)

Lemma transact_reverted (tx : Tx L unit) (c working : Chain L) (e : Error) :
  tx c = Reverted e working -> transact tx c = (c, Some e).
Proof. unfold transact. intros ->. reflexivity. Qed.

Lemma transact_done (tx : Tx L unit) (c c' : Chain L) :
  tx c = Done tt c' -> transact tx c = (c', None).
Proof. unfold transact. intros ->. reflexivity. Qed.

Lemma transact_error_keeps_chain (tx : Tx L unit) (c : Chain L) (e : Error) :
  snd (transact tx c) = Some e -> fst (transact tx c) = c.
Proof. unfold transact. destruct (tx c); cbn; [discriminate | reflexivity]. Qed.

(** *** Order of the guards of the single-recipient entry points *)

Lemma single_permit_expired env owner to_ value deadline v r s feeAmount (c : Chain L) :
  owner <> 0 -> to_ <> 0 -> value <> 0 -> feeAmount < value ->
  deadline < block_timestamp env ->
  facilitateTransferWithPermit keccak256 env owner to_ value deadline v r s feeAmount c
    = Reverted PermitExpired c.
Proof.
  intros Ho Ht Hv Hf Hd. unfold facilitateTransferWithPermit. tx_unfold.
  settle (owner =? 0) false. settle (to_ =? 0) false. settle (value =? 0) false.
  settle (feeAmount >=? value) false. settle (block_timestamp env >? deadline) true.
  reflexivity.
Qed.

Lemma single_nonstandard_expired env owner to_ value deadline v r s feeAmount (c : Chain L) :
  owner <> 0 -> to_ <> 0 -> value <> 0 -> feeAmount < value ->
  deadline < block_timestamp env ->
  facilitateTransferWithNonStandardPermit keccak256 env owner to_ value deadline
      v r s feeAmount c
    = Reverted PermitExpired c.
Proof.
  intros Ho Ht Hv Hf Hd. unfold facilitateTransferWithNonStandardPermit. tx_unfold.
  settle (owner =? 0) false. settle (to_ =? 0) false. settle (value =? 0) false.
  settle (feeAmount >=? value) false. settle (block_timestamp env >? deadline) true.
  reflexivity.
Qed.

(** With the deadline in the past no path reaches the replay check. *)
Lemma single_permit_expired_never_replay env owner to_ value deadline v r s feeAmount
    (c : Chain L) :
  deadline < block_timestamp env ->
  exists e, facilitateTransferWithPermit keccak256 env owner to_ value deadline
              v r s feeAmount c = Reverted e c /\ e <> PermitAlreadyUsed.
Proof.
  intros Hd. unfold facilitateTransferWithPermit. tx_unfold.
  destruct ((owner =? 0) || (to_ =? 0)); cbn; [eexists; split; [reflexivity|discriminate]|].
  destruct (value =? 0); cbn; [eexists; split; [reflexivity|discriminate]|].
  destruct (feeAmount >=? value); cbn; [eexists; split; [reflexivity|discriminate]|].
  settle (block_timestamp env >? deadline) true.
  eexists; split; [reflexivity|discriminate].
Qed.

Lemma single_nonstandard_expired_never_replay env owner to_ value deadline v r s
    feeAmount (c : Chain L) :
  deadline < block_timestamp env ->
  exists e, facilitateTransferWithNonStandardPermit keccak256 env owner to_ value
              deadline v r s feeAmount c = Reverted e c /\ e <> PermitAlreadyUsed.
Proof.
  intros Hd. unfold facilitateTransferWithNonStandardPermit. tx_unfold.
  destruct ((owner =? 0) || (to_ =? 0)); cbn; [eexists; split; [reflexivity|discriminate]|].
  destruct (value =? 0); cbn; [eexists; split; [reflexivity|discriminate]|].
  destruct (feeAmount >=? value); cbn; [eexists; split; [reflexivity|discriminate]|].
  settle (block_timestamp env >? deadline) true.
  eexists; split; [reflexivity|discriminate].
Qed.

(** C4 (as amended). When the owner is not null, the value is not zero and,
    for a single transfer, the recipient is not null or, for a bulk
    transfer, the recipient list is not empty, a fee that is not below the
    total value makes each of the four entry points revert with
    [InvalidFeeAmount], whatever the deadline, the signature, the
    recipients' amounts, the registry and the balances are. *)
Theorem C4_fee_at_least_value_rejected :
  forall env owner value deadline v r s feeAmount (c : Chain L),
    owner <> 0 -> value <> 0 -> value <= feeAmount ->
    (forall to_, to_ <> 0 ->
       transact (facilitateTransferWithPermit keccak256 env owner to_ value deadline
                   v r s feeAmount) c = (c, Some InvalidFeeAmount) /\
       transact (facilitateTransferWithNonStandardPermit keccak256 env owner to_ value
                   deadline v r s feeAmount) c = (c, Some InvalidFeeAmount)) /\
    (forall recipients, recipients <> [] ->
       transact (facilitateBulkTransferWithPermit env owner recipients value deadline
                   v r s feeAmount) c = (c, Some InvalidFeeAmount) /\
       transact (facilitateBulkTransferWithNonStandardPermit keccak256 env owner
                   recipients value deadline v r s feeAmount) c
         = (c, Some InvalidFeeAmount)).
Proof.
  intros env owner value deadline v r s feeAmount c Ho Hv Hf. split.
  - intros to_ Ht. split; eapply transact_reverted;
      [unfold facilitateTransferWithPermit
      |unfold facilitateTransferWithNonStandardPermit];
      tx_unfold;
      settle (owner =? 0) false; settle (to_ =? 0) false; settle (value =? 0) false;
      settle (feeAmount >=? value) true; reflexivity.
  - intros recipients Hne.
    pose proof (length_of_nonempty recipients Hne) as Hlen.
    split; eapply transact_reverted;
      [unfold facilitateBulkTransferWithPermit
      |unfold facilitateBulkTransferWithNonStandardPermit];
      tx_unfold;
      settle (owner =? 0) false; rewrite Hlen; cbn; settle (value =? 0) false;
      settle (feeAmount >=? value) true; reflexivity.
Qed.

(** *** What a completed call has done *)

Lemma apply_calls_app env (xs ys : list Call) :
  forall (l l' l'' : L),
    apply_calls env xs l = Some l' -> apply_calls env ys l' = Some l'' ->
    apply_calls env (xs ++ ys) l = Some l''.
Proof.
  induction xs as [|x xs IH]; intros l l' l'' Hx Hy; cbn in *.
  - now inversion Hx; subst.
  - destruct (apply_call env x l) as [l1|]; [|discriminate]. eauto.
Qed.

Lemma single_permit_done env owner to_ value deadline v r s feeAmount (c c' : Chain L) :
  facilitateTransferWithPermit keccak256 env owner to_ value deadline v r s feeAmount c
    = Done tt c' ->
  let h := permitHash keccak256 env owner value deadline v r s in
  let calls :=
    CallPermit owner (this env) value deadline v r s
    :: fee_move owner (feeCollector (store c)) feeAmount
    ++ [CallTransferFrom owner to_ (value - feeAmount)] in
  (owner <> 0 /\ to_ <> 0 /\ value <> 0 /\ feeAmount < value /\
   block_timestamp env <= deadline) /\
  isUsed (usedPermits (store c)) h = false /\
  value <= balanceOf (token c) owner /\
  store c' = mkStorage (feeCollector (store c)) (<[h := true]> (usedPermits (store c))) /\
  trace c' = trace c ++ calls /\
  apply_calls env calls (token c) = Some (token c') /\
  log c' = log c ++ [FacilitationExecuted owner to_ (value - feeAmount) feeAmount].
Proof.
  unfold facilitateTransferWithPermit, usdc_try_permit. tx_unfold.
  destruct (owner =? 0) eqn:Ho; cbn; [discriminate|].
  destruct (to_ =? 0) eqn:Ht; cbn; [discriminate|].
  destruct (value =? 0) eqn:Hv; cbn; [discriminate|].
  destruct (feeAmount >=? value) eqn:Hf; cbn; [discriminate|].
  destruct (block_timestamp env >? deadline) eqn:Hd; cbn; [discriminate|].
  destruct (isUsed _ _) eqn:Hu; cbn; [discriminate|].
  destruct (balanceOf (token c) owner <? value) eqn:Hb; cbn; [discriminate|].
  destruct (permit _ _ _ _ _ _ _ _ _ _) as [l1|] eqn:Hp; cbn; [|discriminate].
  settle (feeAmount <=? value) true.
  destruct (transferFee _ _ _ _) as [[] c2|] eqn:Hfee; [|discriminate].
  apply transferFee_done in Hfee as (Hs2 & Hl2 & Ht2 & Ha2). cbn in *.
  unfold usdc_transferFrom.
  destruct (transferFrom _ _ _ _ _ _) as [[ok l3]|] eqn:Htr; cbn; [|discriminate].
  intros [= <-]; cbn.
  repeat split; try lia; try congruence.
  - rewrite Ht2, <- !app_assoc. reflexivity.
  - eapply apply_calls_app; [exact Ha2|]. cbn. now rewrite Htr.
Qed.

Lemma bulk_permit_done env owner recipients totalValue deadline v r s feeAmount
    (c c' : Chain L) :
  facilitateBulkTransferWithPermit env owner recipients totalValue deadline
      v r s feeAmount c = Done tt c' ->
  let calls :=
    CallPermit owner (this env) totalValue deadline v r s
    :: fee_move owner (feeCollector (store c)) feeAmount
    ++ recipient_moves owner recipients in
  totalValue = sum_amounts recipients + feeAmount /\
  store c' = store c /\
  trace c' = trace c ++ calls /\
  apply_calls env calls (token c) = Some (token c') /\
  log c' = log c ++ [BulkFacilitationExecuted owner (length_of recipients)
                       (sum_amounts recipients) feeAmount].
Proof.
  unfold facilitateBulkTransferWithPermit, usdc_try_permit. tx_unfold.
  destruct (owner =? 0) eqn:Ho; cbn; [discriminate|].
  destruct (length_of recipients =? 0) eqn:Hn; cbn; [discriminate|].
  destruct (totalValue =? 0) eqn:Hv; cbn; [discriminate|].
  destruct (feeAmount >=? totalValue) eqn:Hf; cbn; [discriminate|].
  destruct (block_timestamp env >? deadline) eqn:Hd; cbn; [discriminate|].
  destruct (validateRecipients_inv recipients 0 c) as [(e & -> & _)|[-> _]];
    [discriminate|].
  rewrite Z.add_0_l.
  destruct (sum_amounts recipients + feeAmount <=? MAX_UINT256); cbn; [|discriminate].
  destruct (totalValue =? sum_amounts recipients + feeAmount) eqn:Hsum; cbn;
    [|discriminate].
  destruct (balanceOf (token c) owner <? totalValue) eqn:Hb; cbn; [discriminate|].
  destruct (permit _ _ _ _ _ _ _ _ _ _) as [l1|] eqn:Hp; cbn; [|discriminate].
  destruct (transferFee _ _ _ _) as [[] c2|] eqn:Hfee; [|discriminate].
  apply transferFee_done in Hfee as (Hs2 & Hl2 & Ht2 & Ha2). cbn in *.
  destruct (transferToEach _ _ _ _) as [[] c3|] eqn:Heach; [|discriminate].
  apply transferToEach_done in Heach as (Hs3 & Hl3 & Ht3 & Ha3).
  intros [= <-]; cbn.
  repeat split; try lia; try congruence.
  - rewrite Ht3, Ht2, <- !app_assoc. reflexivity.
  - eapply apply_calls_app; eauto.
Qed.

(** *** Balance check and the registry *)

(** C2 (as amended). When the owner's balance is below the value of an
    otherwise acceptable request, [facilitateTransferWithPermit] reverts
    with [InsufficientBalance]. When it reverts the call has written the
    fingerprint to the registry of its working state and has made no token
    call; the revert undoes that write, so the fingerprint is still unused
    after the failed transaction and an identical retry fails with
    [InsufficientBalance] again. *)
Theorem C2_insufficient_balance_undoes_marking :
  forall env owner to_ value deadline v r s feeAmount (c : Chain L),
    owner <> 0 -> to_ <> 0 -> value <> 0 -> feeAmount < value ->
    block_timestamp env <= deadline ->
    isPermitUsed (permitHash keccak256 env owner value deadline v r s) c = false ->
    balanceOf (token c) owner < value ->
    let tx := facilitateTransferWithPermit keccak256 env owner to_ value deadline
                v r s feeAmount in
    let h := permitHash keccak256 env owner value deadline v r s in
    (exists working,
       tx c = Reverted InsufficientBalance working /\
       isPermitUsed h working = true /\ trace working = trace c) /\
    transact tx c = (c, Some InsufficientBalance) /\
    isPermitUsed h (fst (transact tx c)) = false /\
    transact tx (fst (transact tx c)) = (c, Some InsufficientBalance).
Proof.
  intros env owner to_ value deadline v r s feeAmount c Ho Ht Hv Hf Hd Hu Hb tx h.
  assert (Hrev : exists working,
             tx c = Reverted InsufficientBalance working /\
             isPermitUsed h working = true /\ trace working = trace c).
  { unfold tx, facilitateTransferWithPermit. tx_unfold.
    settle (owner =? 0) false. settle (to_ =? 0) false. settle (value =? 0) false.
    settle (feeAmount >=? value) false.
    settle (block_timestamp env >? deadline) false.
    unfold isPermitUsed in Hu. rewrite Hu. cbn.
    settle (balanceOf (token c) owner <? value) true.
    eexists. split; [reflexivity|]. split; [|reflexivity].
    unfold isPermitUsed, isUsed. cbn. fold h. now rewrite lookup_insert_eq. }
  split; [exact Hrev|]. destruct Hrev as (working & Hrev & _).
  rewrite (transact_reverted _ _ _ _ Hrev). cbn.
  rewrite (transact_reverted _ _ _ _ Hrev). auto.
Qed.

(** *** The sum law of bulk requests *)

Lemma bulk_permit_sum_mismatch env owner recipients totalValue deadline v r s feeAmount
    (c : Chain L) :
  totalValue <> sum_amounts recipients + feeAmount ->
  exists e, facilitateBulkTransferWithPermit env owner recipients totalValue deadline
              v r s feeAmount c = Reverted e c /\ is_input_error e = true.
Proof.
  intros Hsum. unfold facilitateBulkTransferWithPermit. tx_unfold.
  destruct (owner =? 0); cbn; [eauto|].
  destruct (length_of recipients =? 0); cbn; [eauto|].
  destruct (totalValue =? 0); cbn; [eauto|].
  destruct (feeAmount >=? totalValue); cbn; [eauto|].
  destruct (block_timestamp env >? deadline); cbn; [eauto|].
  destruct (validateRecipients_inv recipients 0 c) as [(e & -> & He)|[-> _]]; [eauto|].
  rewrite Z.add_0_l.
  destruct (sum_amounts recipients + feeAmount <=? MAX_UINT256); cbn; [|eauto].
  settle (totalValue =? sum_amounts recipients + feeAmount) false. eauto.
Qed.

Lemma bulk_nonstandard_sum_mismatch env owner recipients totalValue deadline v r s
    feeAmount (c : Chain L) :
  totalValue <> sum_amounts recipients + feeAmount ->
  exists e, facilitateBulkTransferWithNonStandardPermit keccak256 env owner recipients
              totalValue deadline v r s feeAmount c = Reverted e c /\
            is_input_error e = true.
Proof.
  intros Hsum. unfold facilitateBulkTransferWithNonStandardPermit. tx_unfold.
  destruct (owner =? 0); cbn; [eauto|].
  destruct (length_of recipients =? 0); cbn; [eauto|].
  destruct (totalValue =? 0); cbn; [eauto|].
  destruct (feeAmount >=? totalValue); cbn; [eauto|].
  destruct (block_timestamp env >? deadline); cbn; [eauto|].
  destruct (validateRecipients_inv recipients 0 c) as [(e & -> & He)|[-> _]]; [eauto|].
  rewrite Z.add_0_l.
  destruct (sum_amounts recipients + feeAmount <=? MAX_UINT256); cbn; [|eauto].
  settle (totalValue =? sum_amounts recipients + feeAmount) false. eauto.
Qed.

(** C5 (as amended). A bulk request whose recipient amounts plus fee do not
    equal [totalValue] never completes: both bulk entry points revert in
    one of the checks on the arguments and the deadline, in a working
    state that is still the initial one, so nothing has been written and
    no transfer has been attempted. The error is [InvalidFeeAmount] when
    the request passes the checks made before the sum is compared: owner
    not null, list not empty, total not zero, deadline not passed, every
    recipient not null with a non-zero amount, and amounts plus fee within
    [uint256]. *)
Theorem C5_bulk_sum_law :
  forall env owner recipients totalValue deadline v r s feeAmount (c : Chain L),
    totalValue <> sum_amounts recipients + feeAmount ->
    ((exists e, facilitateBulkTransferWithPermit env owner recipients
                  totalValue deadline v r s feeAmount c = Reverted e c /\
                is_input_error e = true) /\
     (exists e, facilitateBulkTransferWithNonStandardPermit keccak256 env
                  owner recipients totalValue deadline v r s feeAmount c
                = Reverted e c /\ is_input_error e = true)) /\
    (owner <> 0 -> recipients <> [] -> totalValue <> 0 ->
     block_timestamp env <= deadline ->
     Forall (fun rc => to rc <> 0 /\ 0 < amount rc) recipients ->
     0 <= feeAmount -> sum_amounts recipients + feeAmount <= MAX_UINT256 ->
     transact (facilitateBulkTransferWithPermit env owner recipients totalValue
                 deadline v r s feeAmount) c = (c, Some InvalidFeeAmount) /\
     transact (facilitateBulkTransferWithNonStandardPermit keccak256 env owner
                 recipients totalValue deadline v r s feeAmount) c
       = (c, Some InvalidFeeAmount)).
Proof.
  intros env owner recipients totalValue deadline v r s feeAmount c Hsum.
  split; [split|].
  - now apply bulk_permit_sum_mismatch.
  - now apply bulk_nonstandard_sum_mismatch.
  - intros Ho Hne Hv Hd Hall Hfee Hmax.
    pose proof (length_of_nonempty recipients Hne) as Hlen.
    pose proof (sum_amounts_nonneg _ Hall) as Hpos.
    split; eapply transact_reverted;
      [unfold facilitateBulkTransferWithPermit
      |unfold facilitateBulkTransferWithNonStandardPermit];
      tx_unfold;
      settle (owner =? 0) false; rewrite Hlen; cbn; settle (totalValue =? 0) false;
      (destruct (feeAmount >=? totalValue); cbn; [reflexivity|]);
      settle (block_timestamp env >? deadline) false;
      rewrite (validateRecipients_ok recipients 0 c Hall) by lia;
      rewrite Z.add_0_l;
      settle (sum_amounts recipients + feeAmount <=? MAX_UINT256) true;
      settle (totalValue =? sum_amounts recipients + feeAmount) false;
      reflexivity.
Qed.

(** *** Replay of a single-recipient request *)

Lemma permitHash_this env1 env2 owner value deadline v r s :
  this env2 = this env1 ->
  permitHash keccak256 env2 owner value deadline v r s
  = permitHash keccak256 env1 owner value deadline v r s.
Proof. unfold permitHash. now intros ->. Qed.

(** Once a request has completed, the same request fails with
    [PermitAlreadyUsed] for as long as its deadline has not passed. *)
Lemma single_permit_replay env1 env2 owner to_ value deadline v r s feeAmount
    (c c1 : Chain L) :
  facilitateTransferWithPermit keccak256 env1 owner to_ value deadline v r s feeAmount c
    = Done tt c1 ->
  this env2 = this env1 -> block_timestamp env2 <= deadline ->
  transact (facilitateTransferWithPermit keccak256 env2 owner to_ value deadline
              v r s feeAmount) c1 = (c1, Some PermitAlreadyUsed).
Proof.
  intros Hdone Hthis Hd.
  apply single_permit_done in Hdone
    as ((Ho & Ht & Hv & Hf & _) & _ & _ & Hstore & _).
  eapply transact_reverted. unfold facilitateTransferWithPermit. tx_unfold.
  settle (owner =? 0) false. settle (to_ =? 0) false. settle (value =? 0) false.
  settle (feeAmount >=? value) false.
  settle (block_timestamp env2 >? deadline) false.
  rewrite (permitHash_this env1 env2) by assumption.
  rewrite Hstore. cbn. unfold isUsed. rewrite lookup_insert_eq. reflexivity.
Qed.

(** *** The registry and [facilitateBulkTransferWithPermit] *)

Lemma validateRecipients_error (rs : list Recipient) :
  forall (acc : Z) (c working : Chain L) (e : Error),
    validateRecipients acc rs c = Reverted e working -> e <> PermitAlreadyUsed.
Proof.
  induction rs as [|rc rest IH]; intros acc c working e; cbn; tx_unfold;
    [discriminate|].
  destruct (to rc =? 0); cbn; [congruence|].
  destruct (amount rc =? 0); cbn; [congruence|].
  destruct (acc + amount rc <=? MAX_UINT256); cbn; [|congruence].
  apply IH.
Qed.

Lemma transferFee_error env owner fee (c working : Chain L) (e : Error) :
  transferFee env owner fee c = Reverted e working -> e = TokenReverted.
Proof.
  unfold transferFee, usdc_transferFrom. tx_unfold.
  destruct (fee >? 0); cbn; [|discriminate].
  destruct (transferFrom _ _ _ _ _ _) as [[ok l']|]; cbn; congruence.
Qed.

Lemma transferToEach_error env owner (rs : list Recipient) :
  forall (c working : Chain L) (e : Error),
    transferToEach env owner rs c = Reverted e working -> e = TokenReverted.
Proof.
  induction rs as [|rc rest IH]; intros c e; cbn; tx_unfold; [discriminate|].
  unfold usdc_transferFrom.
  destruct (transferFrom _ _ _ _ _ _) as [[ok l']|]; cbn; [apply IH|congruence].
Qed.

(** [facilitateBulkTransferWithPermit] neither reads nor writes
    [usedPermits]: it leaves the storage as it is and never reverts with
    [PermitAlreadyUsed]. *)
Lemma bulk_permit_ignores_registry env owner recipients totalValue deadline v r s
    feeAmount (c : Chain L) :
  let tx := facilitateBulkTransferWithPermit env owner recipients totalValue deadline
              v r s feeAmount in
  store (fst (transact tx c)) = store c /\
  snd (transact tx c) <> Some PermitAlreadyUsed.
Proof.
  intros tx. unfold transact.
  destruct (tx c) as [[] c'|e] eqn:Htx; cbn.
  - apply bulk_permit_done in Htx as (_ & Hs & _). split; [exact Hs|discriminate].
  - split; [reflexivity|]. intros [= ->]. revert Htx.
    unfold tx, facilitateBulkTransferWithPermit, usdc_try_permit. tx_unfold.
    destruct (owner =? 0); cbn; [discriminate|].
    destruct (length_of recipients =? 0); cbn; [discriminate|].
    destruct (totalValue =? 0); cbn; [discriminate|].
    destruct (feeAmount >=? totalValue); cbn; [discriminate|].
    destruct (block_timestamp env >? deadline); cbn; [discriminate|].
    destruct (validateRecipients 0 recipients c) as [t c0|e] eqn:Hval.
    2:{ intros [= ->]. now apply validateRecipients_error in Hval. }
    destruct (t + feeAmount <=? MAX_UINT256); cbn; [|discriminate].
    destruct (totalValue =? t + feeAmount); cbn; [|discriminate].
    destruct (balanceOf (token c0) owner <? totalValue); cbn; [discriminate|].
    destruct (permit _ _ _ _ _ _ _ _ _ _) as [l1|]; cbn; [|discriminate].
    destruct (transferFee _ _ _ _) as [[] c2|e] eqn:Hfee.
    2:{ intros [= ->]. now apply transferFee_error in Hfee. }
    destruct (transferToEach _ _ _ _) as [[] c3|e] eqn:Heach; [discriminate|].
    intros [= ->]. now apply transferToEach_error in Heach.
Qed.

(** *** Fingerprints of different requests *)

Lemma be_bytes_length (n : nat) : forall x, length (be_bytes n x) = n.
Proof.
  induction n as [|k IH]; intros x; cbn; [reflexivity|].
  rewrite length_app, IH. cbn. lia.
Qed.

Lemma be_bytes_inj (n : nat) :
  forall x y, 0 <= x < 256 ^ Z.of_nat n -> 0 <= y < 256 ^ Z.of_nat n ->
              be_bytes n x = be_bytes n y -> x = y.
Proof.
  induction n as [|k IH]; intros x y Hx Hy Heq.
  - change (256 ^ Z.of_nat 0) with 1 in *. lia.
  - cbn [be_bytes] in Heq. apply app_inj_tail in Heq as [Hhi Hlo].
    rewrite Nat2Z.inj_succ, Z.pow_succ_r in Hx, Hy by lia.
    apply IH in Hhi.
    + rewrite (Z.div_mod x 256), (Z.div_mod y 256) by lia. congruence.
    + split; [apply Z.div_pos; lia | apply Z.div_lt_upper_bound; lia].
    + split; [apply Z.div_pos; lia | apply Z.div_lt_upper_bound; lia].
Qed.

Lemma enc_uint256_inj (x y : Z) :
  is_uint256 x -> is_uint256 y -> enc_uint256 x = enc_uint256 y -> x = y.
Proof.
  unfold is_uint256, MAX_UINT256, enc_uint256. intros Hx Hy.
  apply (be_bytes_inj 32); change (256 ^ Z.of_nat 32) with (2 ^ 256); lia.
Qed.

(** The bytes hashed by [permitHash] determine the value and the deadline:
    two requests that differ in either are hashed from different inputs. *)
Lemma permit_preimage_inj (owner this_ value1 deadline1 value2 deadline2 v r s : Z) :
  is_uint256 value1 -> is_uint256 deadline1 ->
  is_uint256 value2 -> is_uint256 deadline2 ->
  permit_preimage this_ owner value1 deadline1 v r s
  = permit_preimage this_ owner value2 deadline2 v r s ->
  value1 = value2 /\ deadline1 = deadline2.
Proof.
  unfold permit_preimage. intros Hv1 Hd1 Hv2 Hd2 Heq.
  apply app_inv_head in Heq. apply app_inv_head in Heq.
  apply app_inj_1 in Heq as [Hv Heq];
    [|unfold enc_uint256; now rewrite !be_bytes_length].
  apply app_inj_1 in Heq as [Hd _];
    [|unfold enc_uint256; now rewrite !be_bytes_length].
  split; now apply enc_uint256_inj.
Qed.

(** After a request has completed, a request that differs from it in the
    value or in the deadline has a fingerprint that the completed request
    did not mark, unless [keccak256] collides on the two inputs. *)
Lemma single_permit_changed_is_distinct env owner to_ value deadline v r s feeAmount
    value' deadline' (c c1 : Chain L) :
  facilitateTransferWithPermit keccak256 env owner to_ value deadline v r s feeAmount c
    = Done tt c1 ->
  is_uint256 value -> is_uint256 deadline ->
  is_uint256 value' -> is_uint256 deadline' ->
  (value', deadline') <> (value, deadline) ->
  (keccak256 (permit_preimage (this env) owner value' deadline' v r s)
   = keccak256 (permit_preimage (this env) owner value deadline v r s) ->
   permit_preimage (this env) owner value' deadline' v r s
   = permit_preimage (this env) owner value deadline v r s) ->
  isPermitUsed (permitHash keccak256 env owner value' deadline' v r s) c = false ->
  isPermitUsed (permitHash keccak256 env owner value' deadline' v r s) c1 = false.
Proof.
  intros Hdone Hv Hd Hv' Hd' Hne Hinj Hfresh.
  apply single_permit_done in Hdone as (_ & _ & _ & Hstore & _).
  unfold isPermitUsed, isUsed in *. rewrite Hstore. cbn.
  rewrite lookup_insert_ne; [exact Hfresh|].
  intros Hh. symmetry in Hh. apply Hinj in Hh.
  apply permit_preimage_inj in Hh as [-> ->]; auto.
Qed.

End FacilitatorProperties.

(** ** The contract on the reference token *)

(** C1. Replaying a completed bulk request through
    [facilitateBulkTransferWithPermit] is not answered by the registry:
    the request (recipients [bob] 600,000 and [carol] 390,000, fee 10,000,
    total 1,000,000) completes, the registry is still empty afterwards (the
    fingerprint that [calculateBulkPermitHash] gives for the request is not
    marked), and the identical second call is stopped only by the token,
    with [InvalidPermitSignature] instead of [PermitAlreadyUsed]. *)
Theorem C1_bulk_replay_not_recorded :
  let c0 := genesis 2000000 in
  let c1 := fst (transact (bulk_request 1000 1000000) c0) in
  snd (transact (bulk_request 1000 1000000) c0) = None /\
  usedPermits (store c1) = ∅ /\
  isPermitUsed (calculateBulkPermitHash ref_keccak256 (at_time 1000) alice
                  1000000 2000 2) c1 = false /\
  snd (transact (bulk_request 1000 1000000) c1) = Some InvalidPermitSignature.
Proof. vm_compute. repeat split; reflexivity. Qed.

(** The single-recipient entry point does answer the replay from the
    registry; the scenario of the specification: balance 1,000,000, total
    1,000,000, fee 10,000, the recipient gets 990,000. *)
Example single_replay_rejected :
  let c1 := after_single in
  snd (transact (single_request 1000 bob 10000) (genesis 1000000)) = None /\
  isPermitUsed single_fingerprint c1 = true /\
  transact (single_request 1500 bob 10000) c1 = (c1, Some PermitAlreadyUsed) /\
  ref_balanceOf (token c1) alice = 0 /\
  ref_balanceOf (token c1) collector = 10000 /\
  ref_balanceOf (token c1) bob = 990000.
Proof. vm_compute. repeat split; reflexivity. Qed.

(** C2, counterexample: owner balance 500,000, value 1,000,000. The call
    fails with [InsufficientBalance], but the fingerprint is not marked
    afterwards and the identical retry fails with [InsufficientBalance],
    not with [PermitAlreadyUsed]. *)
Lemma C2_low_balance_leaves_permit_unused :
  let c := genesis 500000 in
  let tx := single_request 1000 bob 10000 in
  ref_balanceOf (token c) alice = 500000 /\
  snd (transact tx c) = Some InsufficientBalance /\
  isPermitUsed single_fingerprint (fst (transact tx c)) = false /\
  snd (transact tx (fst (transact tx c))) = Some InsufficientBalance /\
  snd (transact tx (fst (transact tx c))) <> Some PermitAlreadyUsed.
Proof. vm_compute. repeat split; try reflexivity. discriminate. Qed.

(** C2 at the same request: the hypotheses hold and so does the
    conclusion. *)
Lemma C2_insufficient_balance_witness :
  let sig_r := ref_sign_r alice facilitator_address 1000000 0 2000 in
  let tx := facilitateTransferWithPermit ref_keccak256 (at_time 1000) alice bob
              1000000 2000 27 sig_r alice 10000 in
  let h := permitHash ref_keccak256 (at_time 1000) alice 1000000 2000 27 sig_r
             alice in
  (exists working,
     tx (genesis 500000) = Reverted InsufficientBalance working /\
     isPermitUsed h working = true /\ trace working = trace (genesis 500000)) /\
  transact tx (genesis 500000) = (genesis 500000, Some InsufficientBalance) /\
  isPermitUsed h (fst (transact tx (genesis 500000))) = false /\
  transact tx (fst (transact tx (genesis 500000)))
    = (genesis 500000, Some InsufficientBalance).
Proof.
  intros sig_r tx h.
  exact (C2_insufficient_balance_undoes_marking ref_keccak256 (at_time 1000)
           alice bob 1000000 2000 27 sig_r alice 10000 (genesis 500000)
           ltac:(vm_compute; discriminate) ltac:(vm_compute; discriminate)
           ltac:(vm_compute; discriminate) ltac:(reflexivity)
           ltac:(vm_compute; discriminate) ltac:(vm_compute; reflexivity)
           ltac:(reflexivity)).
Defined.

(** C4, counterexample: with a fee of 5 against a value of 3, a null owner
    or a null recipient is reported as [InvalidRecipient] and an empty
    recipient list as [EmptyRecipientList]; with value 0 (any fee is at
    least 0) the error is [ZeroAmount]. *)
Lemma C4_null_owner_or_zero_value_reported_first :
  let sig_r := ref_sign_r alice facilitator_address 3 0 2000 in
  (3 <= 5 /\
   snd (transact (facilitateTransferWithPermit ref_keccak256 (at_time 1000)
                    0 bob 3 2000 27 sig_r alice 5) (genesis 1000000))
     = Some InvalidRecipient /\
   snd (transact (facilitateTransferWithPermit ref_keccak256 (at_time 1000)
                    alice 0 3 2000 27 sig_r alice 5) (genesis 1000000))
     = Some InvalidRecipient /\
   snd (transact (facilitateBulkTransferWithPermit (at_time 1000)
                    alice [] 3 2000 27 sig_r alice 5) (genesis 1000000))
     = Some EmptyRecipientList) /\
  (0 <= 0 /\
   snd (transact (facilitateTransferWithPermit ref_keccak256 (at_time 1000)
                    alice bob 0 2000 27 sig_r alice 0) (genesis 1000000))
     = Some ZeroAmount /\
   snd (transact (facilitateBulkTransferWithPermit (at_time 1000)
                    alice two_recipients 0 2000 27 sig_r alice 0) (genesis 1000000))
     = Some ZeroAmount).
Proof. vm_compute. repeat split; try reflexivity; discriminate. Qed.

(** C4 at a fee equal to the value, for a single and for a bulk request. *)
Lemma C4_fee_at_least_value_witness :
  transact (facilitateTransferWithPermit ref_keccak256 (at_time 1000)
              alice bob 1000000 2000 27 0 0 1000000) (genesis 1000000)
    = (genesis 1000000, Some InvalidFeeAmount) /\
  transact (facilitateBulkTransferWithPermit (at_time 1000)
              alice two_recipients 1000000 2000 27 0 0 1000000) (genesis 1000000)
    = (genesis 1000000, Some InvalidFeeAmount).
Proof.
  destruct (C4_fee_at_least_value_rejected ref_keccak256 (at_time 1000)
              alice 1000000 2000 27 0 0 1000000 (genesis 1000000))
    as [Hsingle Hbulk].
  - vm_compute; discriminate.
  - vm_compute; discriminate.
  - vm_compute; discriminate.
  - split.
    + apply (Hsingle bob). vm_compute; discriminate.
    + apply (Hbulk two_recipients). discriminate.
Defined.

(** C5, counterexample: the amounts 600,000 + 390,000 plus the fee 10,000
    do not equal the total 999,999, but past the deadline the request fails
    with [PermitExpired]. A request that breaks the sum law also fails
    with another error when a recipient amount is zero, a recipient or the
    owner is null, the list is empty, the total is zero, or the amounts
    overflow. *)
Lemma C5_sum_mismatch_other_error :
  let bulk owner recipients totalValue feeAmount :=
    snd (transact (facilitateBulkTransferWithPermit (at_time 1000) owner recipients
                     totalValue 2000 27 0 0 feeAmount) (genesis 1000000)) in
  (sum_amounts two_recipients + 10000 <> 999999 /\
   snd (transact (bulk_request 3000 999999) (genesis 1000000)) = Some PermitExpired) /\
  (sum_amounts [mkRecipient bob 0] + 1 <> 5 /\
   bulk alice [mkRecipient bob 0] 5 1 = Some InvalidRecipientAmount) /\
  (sum_amounts [mkRecipient 0 3] + 1 <> 5 /\
   bulk alice [mkRecipient 0 3] 5 1 = Some InvalidRecipient) /\
  (sum_amounts [mkRecipient bob 3] + 1 <> 5 /\
   bulk 0 [mkRecipient bob 3] 5 1 = Some InvalidRecipient) /\
  (sum_amounts [] + 1 <> 5 /\ bulk alice [] 5 1 = Some EmptyRecipientList) /\
  (sum_amounts [mkRecipient bob 3] + 0 <> 0 /\
   bulk alice [mkRecipient bob 3] 0 0 = Some ZeroAmount) /\
  (sum_amounts [mkRecipient bob MAX_UINT256; mkRecipient carol 1] + 1 <> 5 /\
   bulk alice [mkRecipient bob MAX_UINT256; mkRecipient carol 1] 5 1
     = Some ArithmeticPanic).
Proof. vm_compute. repeat split; try reflexivity; discriminate. Qed.

(** C5 at the scenario of the specification: total 999,999 instead of
    1,000,000. *)
Lemma C5_bulk_sum_law_witness :
  bulk_request 1000 999999 (genesis 1000000)
    = Reverted InvalidFeeAmount (genesis 1000000) /\
  transact (bulk_request 1000 999999) (genesis 1000000)
    = (genesis 1000000, Some InvalidFeeAmount).
Proof.
  destruct (C5_bulk_sum_law ref_keccak256 (at_time 1000) alice two_recipients
              999999 2000 27
              (ref_sign_r alice facilitator_address 999999 0 2000) alice 10000
              (genesis 1000000)) as [_ Herror].
  - vm_compute; discriminate.
  - destruct Herror as [Hstd _].
    + vm_compute; discriminate.
    + discriminate.
    + vm_compute; discriminate.
    + vm_compute; discriminate.
    + repeat constructor; vm_compute; discriminate.
    + vm_compute; discriminate.
    + vm_compute; discriminate.
    + split; [vm_compute; reflexivity | exact Hstd].
Defined.






(** * Properties of the amount codec *)

Section EthersFacts.
Import Ethers.
Local Open Scope char_scope.

(** *** Digits *)

Lemma digit_char_is_digit (d : Z) : (0 <= d <= 9)%Z -> is_digit (digit_char d) = true.
Proof.
  intros Hd.
  assert (d = 0 \/ d = 1 \/ d = 2 \/ d = 3 \/ d = 4 \/ d = 5 \/ d = 6 \/ d = 7 \/
          d = 8 \/ d = 9)%Z as Hcases by lia.
  repeat (destruct Hcases as [->|Hcases]; [reflexivity|]). now subst.
Qed.

Lemma digit_value_char (d : Z) : (0 <= d <= 9)%Z -> digit_value (digit_char d) = d.
Proof.
  intros Hd.
  assert (d = 0 \/ d = 1 \/ d = 2 \/ d = 3 \/ d = 4 \/ d = 5 \/ d = 6 \/ d = 7 \/
          d = 8 \/ d = 9)%Z as Hcases by lia.
  repeat (destruct Hcases as [->|Hcases]; [reflexivity|]). now subst.
Qed.

Lemma is_digit_not_minus (c : ascii) : is_digit c = true -> Ascii.eqb c "-" = false.
Proof.
  intros Hc. destruct (Ascii.eqb_spec c "-") as [->|]; [discriminate|reflexivity].
Qed.

Lemma is_digit_not_point (c : ascii) : is_digit c = true -> Ascii.eqb c "." = false.
Proof.
  intros Hc. destruct (Ascii.eqb_spec c ".") as [->|]; [discriminate|reflexivity].
Qed.

Lemma BigInt_of_digits_snoc (ds : list ascii) (c : ascii) :
  BigInt_of_digits (ds ++ [c]) = (10 * BigInt_of_digits ds + digit_value c)%Z.
Proof. unfold BigInt_of_digits. now rewrite fold_left_app. Qed.

Lemma fold_digits_shift (ds : list ascii) :
  forall acc : Z,
    fold_left (fun a c => (10 * a + digit_value c)%Z) ds acc
    = (acc * 10 ^ Z.of_nat (length ds) + BigInt_of_digits ds)%Z.
Proof.
  unfold BigInt_of_digits.
  induction ds as [|c rest IH]; intros acc; cbn [fold_left length].
  - change (10 ^ Z.of_nat 0)%Z with 1%Z. lia.
  - rewrite IH, (IH (10 * 0 + digit_value c)%Z).
    rewrite Nat2Z.inj_succ, Z.pow_succ_r by lia. lia.
Qed.

Lemma BigInt_of_digits_app (xs ys : list ascii) :
  BigInt_of_digits (xs ++ ys)
  = (BigInt_of_digits xs * 10 ^ Z.of_nat (length ys) + BigInt_of_digits ys)%Z.
Proof.
  unfold BigInt_of_digits at 1. rewrite fold_left_app.
  now rewrite fold_digits_shift.
Qed.

Lemma BigInt_of_zeros (k : nat) : BigInt_of_digits (replicate k "0") = 0%Z.
Proof.
  induction k as [|k IH]; [reflexivity|].
  change (replicate (S k) "0") with (["0"] ++ replicate k "0").
  rewrite BigInt_of_digits_app, IH. reflexivity.
Qed.

Lemma BigInt_of_leading_zeros (k : nat) (ds : list ascii) :
  BigInt_of_digits (replicate k "0" ++ ds) = BigInt_of_digits ds.
Proof. rewrite BigInt_of_digits_app, BigInt_of_zeros. lia. Qed.

Lemma digits_of_spec (f : nat) :
  forall n : Z,
    (0 <= n < 2 ^ Z.of_nat (S f))%Z ->
    BigInt_of_digits (digits_of (S f) n) = n /\
    all_digits (digits_of (S f) n) /\ digits_of (S f) n <> [].
Proof.
  induction f as [|f IH]; intros n Hn.
  - change (2 ^ Z.of_nat 1)%Z with 2%Z in Hn. cbn [digits_of].
    replace (n <? 10)%Z with true by (symmetry; lia).
    repeat split.
    + unfold BigInt_of_digits. cbn. rewrite digit_value_char; lia.
    + repeat constructor. apply digit_char_is_digit. lia.
    + discriminate.
  - change (digits_of (S (S f)) n)
      with (if (n <? 10)%Z then [digit_char n]
            else digits_of (S f) (n / 10) ++ [digit_char (n mod 10)]).
    destruct (n <? 10)%Z eqn:Hsmall.
    + repeat split.
      * unfold BigInt_of_digits. cbn. rewrite digit_value_char; lia.
      * repeat constructor. apply digit_char_is_digit. lia.
      * discriminate.
    + rewrite Nat2Z.inj_succ, Z.pow_succ_r in Hn by lia.
      destruct (IH (n / 10)%Z) as (Hval & Hall & Hne).
      { split; [apply Z.div_pos; lia|].
        apply Z.div_lt_upper_bound; lia. }
      repeat split.
      * rewrite BigInt_of_digits_snoc, Hval, digit_value_char.
        -- pose proof (Z.div_mod n 10). lia.
        -- pose proof (Z.mod_pos_bound n 10). lia.
      * apply Forall_app. split; [exact Hall|].
        repeat constructor. apply digit_char_is_digit.
        pose proof (Z.mod_pos_bound n 10). lia.
      * intros Happ. now apply app_eq_nil in Happ as [_ ?].
Qed.

Lemma digits_spec (n : Z) :
  (0 <= n)%Z ->
  BigInt_of_digits (digits n) = n /\ all_digits (digits n) /\ digits n <> [].
Proof.
  intros Hn. unfold digits. apply digits_of_spec. split; [exact Hn|].
  rewrite Nat2Z.inj_succ, Z2Nat.id by apply Z.log2_nonneg.
  destruct (Z.eq_dec n 0) as [->|Hnz]; [reflexivity|].
  apply Z.log2_spec. lia.
Qed.

(** *** The padding loops run to completion *)

Lemma pad_decimal_spec (fuel : nat) :
  forall (decimal : list ascii) (decimals : nat),
    (decimals <= length decimal + fuel)%nat ->
    exists k : nat,
      pad_decimal fuel decimal decimals = decimal ++ replicate k "0" /\
      (decimals <= length decimal + k)%nat /\
      ((length decimal < decimals)%nat \/ k = 0%nat).
Proof.
  induction fuel as [|f IH]; intros decimal decimals Hfuel; cbn [pad_decimal].
  - exists 0%nat. rewrite app_nil_r. repeat split; [lia|auto].
  - destruct (length decimal <? decimals)%nat eqn:Hlt.
    + apply Nat.ltb_lt in Hlt.
      destruct (IH (decimal ++ Zeros) decimals) as (k & Hk & Hlen & _).
      { rewrite length_app. cbn. lia. }
      exists (4 + k)%nat. rewrite Hk, <- app_assoc. rewrite length_app in Hlen.
      cbn in Hlen. repeat split; [lia|auto].
    + apply Nat.ltb_ge in Hlt. exists 0%nat. rewrite app_nil_r.
      repeat split; [lia|auto].
Qed.

Lemma pad_whole_spec (fuel : nat) :
  forall (str : list ascii) (decimals : nat),
    (decimals < length str + fuel)%nat ->
    exists k : nat,
      pad_whole fuel str decimals = replicate k "0" ++ str /\
      (decimals < k + length str)%nat.
Proof.
  induction fuel as [|f IH]; intros str decimals Hfuel; cbn [pad_whole].
  - exists 0%nat. split; [reflexivity|lia].
  - destruct (length str <=? decimals)%nat eqn:Hle.
    + destruct (IH (Zeros ++ str) decimals) as (k & Hk & Hlen).
      { rewrite length_app. cbn. lia. }
      exists (k + 4)%nat. rewrite Hk. rewrite length_app in Hlen. cbn in Hlen.
      split; [|lia].
      rewrite replicate_add, <- app_assoc. reflexivity.
    + apply Nat.leb_gt in Hle. exists 0%nat. split; [reflexivity|lia].
Qed.

(** *** The trimming loops *)

Lemma trim_leading_whole (whole : list ascii) :
  forall rest : list ascii,
    all_digits whole -> whole <> [] ->
    exists (k : nat) (whole' : list ascii),
      whole = replicate k "0" ++ whole' /\ whole' <> [] /\
      trim_leading (whole ++ "." :: rest) = whole' ++ "." :: rest.
Proof.
  induction whole as [|c t IH]; intros rest Hall Hne; [congruence|].
  inversion Hall as [|? ? Hc Ht]; subst.
  cbn [app trim_leading].
  destruct (Ascii.eqb_spec c "0") as [->|Hnz].
  - destruct t as [|c1 t'].
    + exists 0%nat, ["0"]. cbn. repeat split; try reflexivity; discriminate.
    + cbn [app]. inversion Ht as [|? ? Hc1 _]; subst.
      rewrite (is_digit_not_point c1 Hc1).
      destruct (IH rest Ht) as (k & whole' & Heq & Hne' & Htrim); [discriminate|].
      exists (S k), whole'. cbn [replicate app]. rewrite <- Heq.
      repeat split; [exact Hne'|exact Htrim].
  - exists 0%nat, (c :: t). cbn [replicate app trim_leading].
    destruct (Ascii.eqb_spec c "0"); [congruence|].
    repeat split; try reflexivity; discriminate.
Qed.

Lemma rev_replicate_zeros (k : nat) : rev (replicate k "0") = replicate k "0".
Proof. rewrite rev_alt. apply (reverse_replicate k "0"). Qed.

Lemma all_digits_rev (s : list ascii) : all_digits s -> all_digits (rev s).
Proof. unfold all_digits. apply List.Forall_rev. Qed.

Lemma trim_trailing_fraction (front frac : list ascii) :
  all_digits frac -> frac <> [] ->
  exists (k : nat) (frac' : list ascii),
    frac = frac' ++ replicate k "0" /\ frac' <> [] /\
    trim_trailing (front ++ "." :: frac) = front ++ "." :: frac'.
Proof.
  intros Hall Hne. unfold trim_trailing.
  replace (rev (front ++ "." :: frac)) with (rev frac ++ "." :: rev front)
    by (rewrite rev_app_distr; cbn [rev]; now rewrite <- app_assoc).
  destruct (trim_leading_whole (rev frac) (rev front)) as (k & fr & Heq & Hfr & ->).
  { now apply all_digits_rev. }
  { intros Hnil. apply (f_equal (@rev ascii)) in Hnil.
    rewrite rev_involutive in Hnil. now apply Hne. }
  exists k, (rev fr). repeat split.
  - apply (f_equal (@rev ascii)) in Heq.
    rewrite rev_involutive, rev_app_distr, rev_replicate_zeros in Heq. exact Heq.
  - intros Hnil. apply (f_equal (@rev ascii)) in Hnil.
    rewrite rev_involutive in Hnil. now apply Hfr.
  - rewrite rev_app_distr. cbn [rev]. rewrite rev_involutive, <- app_assoc.
    reflexivity.
Qed.

(** *** Scanning digits *)

Lemma take_digits_all (ds : list ascii) : all_digits ds -> take_digits ds = ds.
Proof.
  induction 1 as [|c t Hc _ IH]; cbn; [reflexivity|]. now rewrite Hc, IH.
Qed.

Lemma drop_digits_all (ds : list ascii) : all_digits ds -> drop_digits ds = [].
Proof.
  induction 1 as [|c t Hc _ IH]; cbn; [reflexivity|]. now rewrite Hc.
Qed.

Lemma take_digits_stop (ds rest : list ascii) (c : ascii) :
  all_digits ds -> is_digit c = false -> take_digits (ds ++ c :: rest) = ds.
Proof.
  intros Hall Hc. induction Hall as [|d t Hd _ IH]; cbn.
  - now rewrite Hc.
  - now rewrite Hd, IH.
Qed.

Lemma drop_digits_stop (ds rest : list ascii) (c : ascii) :
  all_digits ds -> is_digit c = false -> drop_digits (ds ++ c :: rest) = c :: rest.
Proof.
  intros Hall Hc. induction Hall as [|d t Hd _ IH]; cbn.
  - now rewrite Hc.
  - now rewrite Hd.
Qed.

Lemma all_zeros_replicate (k : nat) : forallb (Ascii.eqb "0") (replicate k "0") = true.
Proof. induction k as [|k IH]; cbn; [reflexivity|exact IH]. Qed.

(** *** What [toString] produces *)

Lemma toString_shape (x : Z) (decimals : nat) :
  (0 <= x)%Z -> (0 < decimals)%nat ->
  exists (whole frac : list ascii) (k : nat),
    toString x decimals = whole ++ "." :: frac /\
    all_digits whole /\ whole <> [] /\
    all_digits frac /\ frac <> [] /\
    (length frac + k = decimals)%nat /\
    BigInt_of_digits (whole ++ frac ++ replicate k "0") = x.
Proof.
  intros Hx Hp. unfold toString.
  replace (x <? 0)%Z with false by (symmetry; lia).
  replace (decimals =? 0)%nat with false by (symmetry; apply Nat.eqb_neq; lia).
  rewrite Z.abs_eq by exact Hx.
  destruct (digits_spec x Hx) as (Hval & Hdig & Hne).
  destruct (pad_whole_spec (S decimals) (digits x) decimals) as (z & -> & Hlen);
    [lia|].
  set (str := replicate z "0" ++ digits x) in *.
  assert (Hstr : all_digits str).
  { apply Forall_app. split; [|exact Hdig]. now apply Forall_replicate. }
  assert (Hstrlen : (decimals < length str)%nat).
  { unfold str. rewrite length_app, length_replicate. lia. }
  set (index := (length str - decimals)%nat).
  assert (Hsplit : str = take index str ++ drop index str)
    by (symmetry; apply take_drop).
  assert (Hwhole : all_digits (take index str)) by now apply Forall_take.
  assert (Hfrac : all_digits (drop index str)) by now apply Forall_drop.
  assert (Hfraclen : length (drop index str) = decimals).
  { rewrite length_drop. unfold index. lia. }
  destruct (trim_leading_whole (take index str) (drop index str) Hwhole)
    as (k1 & whole' & Hw & Hwne & ->).
  { intros Hnil. apply (f_equal length) in Hnil.
    rewrite length_take in Hnil. cbn in Hnil. unfold index in Hnil. lia. }
  destruct (trim_trailing_fraction whole' (drop index str) Hfrac)
    as (k2 & frac' & Hf & Hfne & ->).
  { intros Hnil. rewrite Hnil in Hfraclen. cbn in Hfraclen. lia. }
  exists whole', frac', k2. cbn [app].
  assert (Hw' : all_digits whole').
  { rewrite Hw in Hwhole. now apply Forall_app in Hwhole as [_ ?]. }
  assert (Hf' : all_digits frac').
  { rewrite Hf in Hfrac. now apply Forall_app in Hfrac as [? _]. }
  repeat split; auto.
  - rewrite Hf, length_app, length_replicate in Hfraclen. lia.
  - rewrite <- Hf, <- (BigInt_of_leading_zeros k1), app_assoc, <- Hw, <- Hsplit.
    unfold str.
    now rewrite BigInt_of_leading_zeros.
Qed.

(** *** What [fromString] reads *)

Lemma match_number_decimal (whole frac : list ascii) :
  all_digits whole -> whole <> [] -> all_digits frac ->
  match_number (whole ++ "." :: frac) = Some (false, whole, frac).
Proof.
  intros Hw Hne Hf. unfold match_number.
  destruct whole as [|c t]; [congruence|]. cbn [app].
  inversion Hw as [|? ? Hc Ht]; subst.
  rewrite (is_digit_not_minus c Hc).
  change (c :: t ++ "." :: frac) with ((c :: t) ++ "." :: frac).
  rewrite take_digits_stop, drop_digits_stop by (auto; reflexivity).
  cbn [Ascii.eqb]. change (Ascii.eqb "." ".") with true. cbn match.
  now rewrite take_digits_all, drop_digits_all.
Qed.

Lemma match_number_integer (ds : list ascii) :
  all_digits ds -> ds <> [] -> match_number ds = Some (false, ds, []).
Proof.
  intros Hd Hne. unfold match_number.
  destruct ds as [|c t]; [congruence|].
  inversion Hd as [|? ? Hc Ht]; subst.
  rewrite (is_digit_not_minus c Hc).
  rewrite (take_digits_all _ Hd), (drop_digits_all _ Hd). reflexivity.
Qed.

Lemma fromString_decimal (whole frac : list ascii) (k decimals : nat) :
  all_digits whole -> whole <> [] -> all_digits frac ->
  (length frac + k = decimals)%nat -> (decimals <= 80)%nat ->
  fromString (whole ++ "." :: frac) decimals
  = checkValue (BigInt_of_digits (whole ++ frac ++ replicate k "0")).
Proof.
  intros Hw Hne Hf Hlen Hfmt. unfold fromString.
  rewrite match_number_decimal by assumption.
  replace (length whole + length frac =? 0)%nat with false.
  2:{ symmetry. apply Nat.eqb_neq. destruct whole; [congruence|]. cbn. lia. }
  unfold format_ok.
  replace (decimals <=? 80)%nat with true by (symmetry; now apply Nat.leb_le).
  cbn [negb].
  destruct (pad_decimal_spec decimals frac decimals) as (j & -> & Hj & _); [lia|].
  rewrite drop_app_ge, drop_replicate, all_zeros_replicate by lia. cbn [negb].
  rewrite take_app_ge, take_replicate by lia.
  replace (Nat.min (decimals - length frac) j) with k by lia.
  destruct whole; [congruence|]. reflexivity.
Qed.

Lemma fromString_integer (ds : list ascii) :
  all_digits ds -> ds <> [] ->
  fromString ds 0 = checkValue (BigInt_of_digits ds).
Proof.
  intros Hd Hne. unfold fromString.
  rewrite match_number_integer by assumption.
  replace (length ds + length (@nil ascii) =? 0)%nat with false.
  2:{ symmetry. apply Nat.eqb_neq. destruct ds; [congruence|]. cbn. lia. }
  cbn. rewrite app_nil_r. destruct ds; [congruence|]. reflexivity.
Qed.

Lemma fraction_digits_decimal (whole frac : list ascii) :
  all_digits whole -> fraction_digits (whole ++ "." :: frac) = length frac.
Proof.
  induction 1 as [|c t Hc _ IH]; cbn [app fraction_digits].
  - reflexivity.
  - now rewrite (is_digit_not_point c Hc).
Qed.

Lemma fraction_digits_integer (ds : list ascii) :
  all_digits ds -> fraction_digits ds = 0%nat.
Proof.
  induction 1 as [|c t Hc _ IH]; cbn [fraction_digits]; [reflexivity|].
  now rewrite (is_digit_not_point c Hc).
Qed.

Lemma toString_integer (x : Z) : (0 <= x)%Z -> toString x 0 = digits x.
Proof.
  intros Hx. unfold toString.
  replace (x <? 0)%Z with false by (symmetry; lia).
  now rewrite Z.abs_eq.
Qed.

Lemma checkValue_in_range (x : Z) : (0 <= x < 2 ^ 511)%Z -> checkValue x = Some x.
Proof.
  intros Hx. unfold checkValue.
  replace (- 2 ^ 511 <=? x)%Z with true by (symmetry; lia).
  replace (x <? 2 ^ 511)%Z with true by (symmetry; lia). reflexivity.
Qed.

(** [formatUnits] followed by [parseUnits] gives the integer back, and the
    text has between one and [decimals] fractional digits (none when
    [decimals] is zero). *)
Lemma formatUnits_parseUnits (x : Z) (decimals : nat) :
  (0 <= x < 2 ^ 511)%Z -> (decimals <= 80)%nat ->
  exists text : string,
    formatUnits x decimals = Some text /\
    parseUnits text decimals = Some x /\
    (fraction_digits (list_ascii_of_string text) <= decimals)%nat /\
    ((0 < decimals)%nat -> (1 <= fraction_digits (list_ascii_of_string text))%nat).
Proof.
  intros Hx Hfmt. unfold formatUnits, parseUnits, format_ok.
  replace (decimals <=? 80)%nat with true by (symmetry; now apply Nat.leb_le).
  cbn [negb]. rewrite checkValue_in_range by exact Hx.
  eexists. split; [reflexivity|].
  rewrite list_ascii_of_string_of_list_ascii.
  destruct decimals as [|p].
  - rewrite toString_integer by lia.
    destruct (digits_spec x) as (Hval & Hdig & Hne); [lia|].
    rewrite fromString_integer, Hval, fraction_digits_integer by assumption.
    split; [now apply checkValue_in_range|]. split; lia.
  - destruct (toString_shape x (S p)) as (whole & frac & k & -> & Hw & Hwne & Hf &
                                          Hfne & Hlen & Hval); [lia|lia|].
    rewrite (fromString_decimal whole frac k) by assumption.
    rewrite Hval, fraction_digits_decimal by assumption.
    split; [now apply checkValue_in_range|].
    split; [lia|]. intros _. destruct frac; [congruence|]. cbn. lia.
Qed.

(** *** Inputs that [parseUnits] rejects or accepts *)

Lemma drop_digits_keeps (s : list ascii) (c : ascii) :
  In c s -> is_digit c = false -> In c (drop_digits s).
Proof.
  intros Hin Hc. induction s as [|d t IH]; [contradiction|].
  cbn [drop_digits]. destruct (is_digit d) eqn:Hd; [|exact Hin].
  destruct Hin as [->|Hin]; [congruence|auto].
Qed.

(** A character that is neither a digit, nor a minus sign, nor a point
    makes the pattern fail. *)
Lemma match_number_foreign (s : list ascii) (c : ascii) :
  In c s -> is_digit c = false -> c <> "-" -> c <> "." ->
  match_number s = None.
Proof.
  intros Hin Hc Hminus Hpoint. unfold match_number.
  set (s1 := match s with
             | c0 :: t => if Ascii.eqb c0 "-" then (true, t) else (false, s)
             | [] => (false, s)
             end).
  assert (Hs1 : In c (snd s1)).
  { unfold s1. destruct s as [|c0 t]; [contradiction|].
    destruct (Ascii.eqb_spec c0 "-") as [->|]; [|exact Hin].
    destruct Hin as [Heq|Hin]; [congruence|exact Hin]. }
  destruct s1 as [negative rest]. cbn [snd] in Hs1.
  pose proof (drop_digits_keeps rest c Hs1 Hc) as Hs2.
  set (s3 := match drop_digits rest with
             | c0 :: t => if Ascii.eqb c0 "." then t else drop_digits rest
             | [] => drop_digits rest
             end).
  assert (Hs3 : In c s3).
  { unfold s3. destruct (drop_digits rest) as [|c0 t]; [contradiction|].
    destruct (Ascii.eqb_spec c0 ".") as [->|]; [|exact Hs2].
    destruct Hs2 as [Heq|Hs2]; [congruence|exact Hs2]. }
  pose proof (drop_digits_keeps s3 c Hs3 Hc) as Hrest.
  destruct (drop_digits s3); [contradiction|reflexivity].
Qed.

(** Non-zero digits beyond the precision are refused, not cut off. *)
Lemma fromString_excess_digits (whole frac : list ascii) (decimals : nat) :
  all_digits whole -> whole <> [] -> all_digits frac ->
  forallb (Ascii.eqb "0") (drop decimals frac) = false ->
  fromString (whole ++ "." :: frac) decimals = None.
Proof.
  intros Hw Hne Hf Hexcess. unfold fromString.
  rewrite match_number_decimal by assumption.
  destruct (length whole + length frac =? 0)%nat; [reflexivity|].
  destruct (negb (format_ok decimals)); [reflexivity|].
  assert (Hlong : (decimals <= length frac)%nat).
  { destruct (Nat.le_gt_cases decimals (length frac)) as [|Hshort]; [assumption|].
    rewrite drop_ge in Hexcess by lia. discriminate. }
  destruct (pad_decimal_spec decimals frac decimals) as (j & -> & _ & [Hlt| ->]);
    [lia|lia|].
  rewrite app_nil_r, Hexcess. reflexivity.
Qed.

(** A minus sign in front of an accepted amount is accepted and negates
    the result. *)
Lemma fromString_minus (s : list ascii) (decimals : nat) (v : Z) :
  (forall rest, s <> "-" :: rest) ->
  fromString s decimals = Some v -> (0 < v)%Z ->
  fromString ("-" :: s) decimals = Some (- v)%Z.
Proof.
  intros Hsign Hparse Hv. unfold fromString, match_number in *.
  change (Ascii.eqb "-" "-") with true. cbn match.
  destruct s as [|c t].
  - cbn in Hparse. discriminate.
  - destruct (Ascii.eqb_spec c "-") as [->|_]; [now specialize (Hsign t)|].
    destruct (drop_digits _) eqn:Hrest in Hparse; [|discriminate].
    rewrite Hrest.
    destruct (_ =? 0)%nat; [discriminate|].
    destruct (negb (format_ok decimals)); [discriminate|].
    destruct (negb (forallb _ _)); [discriminate|].
    match type of Hparse with
    | context [BigInt_of_digits ?ds] => set (m := BigInt_of_digits ds) in *
    end.
    unfold checkValue in *.
    destruct ((- 2 ^ 511 <=? m)%Z && (m <? 2 ^ 511)%Z) eqn:Hrange; [|discriminate].
    injection Hparse as ->.
    apply andb_true_iff in Hrange as [_ Hup]. apply Z.ltb_lt in Hup.
    replace (- 2 ^ 511 <=? - v)%Z with true by (symmetry; lia).
    replace (- v <? 2 ^ 511)%Z with true by (symmetry; lia). reflexivity.
Qed.

End EthersFacts.

(** ** The wrappers of [permitUtils.js] *)

Lemma formatUSDCAmount_rejected (amount : string) (decimals : nat) :
  Ethers.parseUnits amount decimals = None ->
  formatUSDCAmount amount decimals = "0"%string.
Proof. unfold formatUSDCAmount. now intros ->. Qed.

(** C8 (as amended). [formatUSDCAmount] never fails: whenever
    [ethers.parseUnits] rejects the input, the error is caught and the text
    "0" is returned. That is the case for an input with a character that
    is not a digit, a minus sign or a point, and for an input with
    non-zero digits beyond the precision (they are not cut off). A minus
    sign in front of an accepted positive amount is accepted: the result is
    the negated amount. *)
Theorem C8_rejected_amount_gives_default :
  (forall (amount : string) (decimals : nat),
     Ethers.parseUnits amount decimals = None ->
     formatUSDCAmount amount decimals = "0"%string) /\
  (forall (amount : string) (decimals : nat) (c : ascii),
     In c (list_ascii_of_string amount) ->
     Ethers.is_digit c = false -> c <> "-"%char -> c <> "."%char ->
     formatUSDCAmount amount decimals = "0"%string) /\
  (forall (whole frac : list ascii) (decimals : nat),
     all_digits whole -> whole <> [] -> all_digits frac ->
     forallb (Ascii.eqb "0") (drop decimals frac) = false ->
     formatUSDCAmount (string_of_list_ascii (whole ++ "."%char :: frac)) decimals
       = "0"%string) /\
  (forall (amount : string) (decimals : nat) (v : Z),
     (forall rest, amount <> String "-" rest) ->
     Ethers.parseUnits amount decimals = Some v -> 0 < v ->
     formatUSDCAmount (String "-" amount) decimals
       = String "-" (formatUSDCAmount amount decimals)).
Proof.
  split; [|split; [|split]].
  - exact formatUSDCAmount_rejected.
  - intros amount decimals c Hin Hc Hminus Hpoint.
    apply formatUSDCAmount_rejected. unfold Ethers.parseUnits, Ethers.fromString.
    now rewrite (match_number_foreign _ c Hin Hc Hminus Hpoint).
  - intros whole frac decimals Hw Hne Hf Hexcess.
    apply formatUSDCAmount_rejected. unfold Ethers.parseUnits.
    rewrite list_ascii_of_string_of_list_ascii.
    now apply fromString_excess_digits.
  - intros amount decimals v Hsign Hparse Hv.
    unfold formatUSDCAmount, Ethers.parseUnits in *.
    cbn [list_ascii_of_string].
    assert (Hlist : forall rest, list_ascii_of_string amount <> "-"%char :: rest).
    { intros rest Heq. apply (Hsign (string_of_list_ascii rest)).
      rewrite <- (string_of_list_ascii_of_string amount), Heq. reflexivity. }
    rewrite (fromString_minus _ decimals v Hlist Hparse Hv), Hparse.
    unfold Ethers.BigInt_toString.
    replace (- v <? 0) with true by (symmetry; lia).
    replace (v <? 0) with false by (symmetry; lia).
    rewrite Z.opp_involutive. reflexivity.
Qed.

(** C8, counterexample: a non-numeric input and an input with seven
    fractional digits at precision six both return "0", and a negative
    amount is converted. *)
Lemma C8_malformed_amounts_return_text :
  formatUSDCAmount "abc" 6 = "0"%string /\
  formatUSDCAmount "1.2345678" 6 = "0"%string /\
  formatUSDCAmount "-1.5" 6 = "-1500000"%string.
Proof. vm_compute. repeat split; reflexivity. Qed.

(** C8 at the empty string, at a letter, at seven fractional digits for
    precision six, and at a negative amount. *)
Lemma C8_rejected_amount_witness :
  formatUSDCAmount "" 6 = "0"%string /\
  formatUSDCAmount "12a" 6 = "0"%string /\
  formatUSDCAmount "1.2345678" 6 = "0"%string /\
  formatUSDCAmount "-1.5" 6 = String "-" (formatUSDCAmount "1.5" 6).
Proof.
  destruct C8_rejected_amount_gives_default as (Hnone & Hforeign & Hexcess & Hminus).
  split; [|split; [|split]].
  - apply (Hnone ""%string 6%nat). reflexivity.
  - apply (Hforeign "12a"%string 6%nat "a"%char).
    + cbn. auto.
    + reflexivity.
    + discriminate.
    + discriminate.
  - apply (Hexcess (list_ascii_of_string "1") (list_ascii_of_string "2345678") 6%nat).
    + repeat constructor.
    + discriminate.
    + repeat constructor.
    + reflexivity.
  - apply (Hminus "1.5"%string 6%nat 1500000).
    + discriminate.
    + reflexivity.
    + reflexivity.
Defined.

(** C9 (as amended). For an integer [0 <= x < 2^511] and a precision of at
    most 80, [parseUSDCAmount] produces a text with at most [decimals]
    fractional digits, and at least one when [decimals] is positive
    (trailing zeros are trimmed, so the count is not always [decimals]);
    and [formatUSDCAmount] of that text at the same precision is the
    integer again. *)
Theorem C9_round_trip_trimmed_fraction :
  forall (x : Z) (decimals : nat),
    0 <= x < 2 ^ 511 -> (decimals <= 80)%nat ->
    let text := parseUSDCAmount x decimals in
    (fraction_digits (list_ascii_of_string text) <= decimals)%nat /\
    ((0 < decimals)%nat -> (1 <= fraction_digits (list_ascii_of_string text))%nat) /\
    Ethers.parseUnits text decimals = Some x /\
    formatUSDCAmount text decimals = string_of_list_ascii (Ethers.BigInt_toString x).
Proof.
  intros x decimals Hx Hfmt text.
  destruct (formatUnits_parseUnits x decimals Hx Hfmt)
    as (t & Hformat & Hparse & Hmost & Hleast).
  assert (Htext : text = t).
  { unfold text, parseUSDCAmount. now rewrite Hformat. }
  rewrite Htext. repeat split; try assumption.
  unfold formatUSDCAmount. now rewrite Hparse.
Qed.

(** C9, counterexample: 1,000,000 at precision 6 is written "1.0", with
    one fractional digit, not six; and outside the range of the library
    format the text is the default "0", which does not convert back. *)
Lemma C9_one_fraction_digit :
  parseUSDCAmount 1000000 6 = "1.0"%string /\
  fraction_digits (list_ascii_of_string (parseUSDCAmount 1000000 6)) = 1%nat /\
  parseUSDCAmount (2 ^ 511) 6 = "0"%string /\
  formatUSDCAmount (parseUSDCAmount (2 ^ 511) 6) 6 = "0"%string /\
  formatUSDCAmount (parseUSDCAmount 1 81) 81 = "0"%string.
Proof. vm_compute. repeat split; reflexivity. Qed.

(** C9 at 1,500,000 with precision 6. *)
Lemma C9_round_trip_witness :
  parseUSDCAmount 1500000 6 = "1.5"%string /\
  (fraction_digits (list_ascii_of_string (parseUSDCAmount 1500000 6)) <= 6)%nat /\
  formatUSDCAmount (parseUSDCAmount 1500000 6) 6 = "1500000"%string.
Proof.
  destruct (C9_round_trip_trimmed_fraction 1500000 6) as (Hmost & _ & _ & Hback).
  - split; [discriminate|reflexivity].
  - repeat constructor.
  - split; [reflexivity|]. split; [exact Hmost|exact Hback].
Defined.

(** * Further properties of the contract *)

Section RequestProperties.
Context {L : Type} `{IUSDC L}.
Variable keccak256 : list Z -> bytes32.

Lemma single_nonstandard_done env owner to_ value deadline v r s feeAmount
    (c c' : Chain L) :
  facilitateTransferWithNonStandardPermit keccak256 env owner to_ value deadline
      v r s feeAmount c = Done tt c' ->
  let h := nonStandardPermitHash keccak256 env owner value deadline
             (nonces (token c) owner) v r s in
  let calls :=
    CallPermit owner (this env) value deadline v r s
    :: fee_move owner (feeCollector (store c)) feeAmount
    ++ [CallTransferFrom owner to_ (value - feeAmount)] in
  (owner <> 0 /\ to_ <> 0 /\ value <> 0 /\ feeAmount < value /\
   block_timestamp env <= deadline) /\
  isUsed (usedPermits (store c)) h = false /\
  value <= balanceOf (token c) owner /\
  store c' = mkStorage (feeCollector (store c)) (<[h := true]> (usedPermits (store c))) /\
  trace c' = trace c ++ calls /\
  apply_calls env calls (token c) = Some (token c') /\
  log c' = log c ++ [FacilitationExecuted owner to_ (value - feeAmount) feeAmount].
Proof.
  unfold facilitateTransferWithNonStandardPermit, usdc_try_permit. tx_unfold.
  destruct (owner =? 0) eqn:Ho; cbn; [discriminate|].
  destruct (to_ =? 0) eqn:Ht; cbn; [discriminate|].
  destruct (value =? 0) eqn:Hv; cbn; [discriminate|].
  destruct (feeAmount >=? value) eqn:Hf; cbn; [discriminate|].
  destruct (block_timestamp env >? deadline) eqn:Hd; cbn; [discriminate|].
  destruct (isUsed _ _) eqn:Hu; cbn; [discriminate|].
  destruct (balanceOf (token c) owner <? value) eqn:Hb; cbn; [discriminate|].
  destruct (permit _ _ _ _ _ _ _ _ _ _) as [l1|] eqn:Hp; cbn; [|discriminate].
  settle (feeAmount <=? value) true.
  destruct (transferFee _ _ _ _) as [[] c2|] eqn:Hfee; [|discriminate].
  apply transferFee_done in Hfee as (Hs2 & Hl2 & Ht2 & Ha2). cbn in *.
  unfold usdc_transferFrom.
  destruct (transferFrom _ _ _ _ _ _) as [[ok l3]|] eqn:Htr; cbn; [|discriminate].
  intros [= <-]; cbn.
  repeat split; try lia; try congruence.
  - rewrite Ht2, <- !app_assoc. reflexivity.
  - eapply apply_calls_app; [exact Ha2|]. cbn. now rewrite Htr.
Qed.

Lemma length_of_zero (rs : list Recipient) : (length_of rs =? 0) = false -> rs <> [].
Proof. intros Hn ->. discriminate. Qed.

Lemma bulk_permit_done_full env owner recipients totalValue deadline v r s feeAmount
    (c c' : Chain L) :
  facilitateBulkTransferWithPermit env owner recipients totalValue deadline
      v r s feeAmount c = Done tt c' ->
  let calls :=
    CallPermit owner (this env) totalValue deadline v r s
    :: fee_move owner (feeCollector (store c)) feeAmount
    ++ recipient_moves owner recipients in
  bulk_checked env owner recipients totalValue deadline feeAmount c /\
  store c' = store c /\
  trace c' = trace c ++ calls /\
  apply_calls env calls (token c) = Some (token c') /\
  log c' = log c ++ [BulkFacilitationExecuted owner (length_of recipients)
                       (sum_amounts recipients) feeAmount].
Proof.
  intros Hdone. pose proof (bulk_permit_done _ _ _ _ _ _ _ _ _ _ _ Hdone) as Hold.
  cbn zeta in Hold. destruct Hold as (Hsum & Hs & Ht & Ha & Hl).
  repeat split; auto; revert Hdone;
    unfold facilitateBulkTransferWithPermit; tx_unfold;
    (destruct (owner =? 0) eqn:Ho; cbn; [discriminate|]);
    (destruct (length_of recipients =? 0) eqn:Hn; cbn; [discriminate|]);
    (destruct (totalValue =? 0) eqn:Hv; cbn; [discriminate|]);
    (destruct (feeAmount >=? totalValue) eqn:Hf; cbn; [discriminate|]);
    (destruct (block_timestamp env >? deadline) eqn:Hd; cbn; [discriminate|]);
    (destruct (validateRecipients_inv recipients 0 c) as [(e & -> & _)|[-> Hall]];
       [discriminate|]);
    rewrite Z.add_0_l;
    (destruct (sum_amounts recipients + feeAmount <=? MAX_UINT256); cbn;
       [|discriminate]);
    (destruct (totalValue =? sum_amounts recipients + feeAmount); cbn;
       [|discriminate]);
    (destruct (balanceOf (token c) owner <? totalValue) eqn:Hb; cbn;
       [discriminate|]);
    intros _; try lia; try exact Hall.
  now apply length_of_zero.
Qed.

Lemma bulk_nonstandard_done_full env owner recipients totalValue deadline v r s
    feeAmount (c c' : Chain L) :
  facilitateBulkTransferWithNonStandardPermit keccak256 env owner recipients
      totalValue deadline v r s feeAmount c = Done tt c' ->
  let h := bulkNonStandardPermitHash keccak256 env owner totalValue deadline
             (nonces (token c) owner) (length_of recipients) in
  let calls :=
    CallPermit owner (this env) totalValue deadline v r s
    :: fee_move owner (feeCollector (store c)) feeAmount
    ++ recipient_moves owner recipients in
  bulk_checked env owner recipients totalValue deadline feeAmount c /\
  isUsed (usedPermits (store c)) h = false /\
  store c' = mkStorage (feeCollector (store c)) (<[h := true]> (usedPermits (store c))) /\
  trace c' = trace c ++ calls /\
  apply_calls env calls (token c) = Some (token c') /\
  log c' = log c ++ [BulkFacilitationExecuted owner (length_of recipients)
                       (sum_amounts recipients) feeAmount].
Proof.
  unfold facilitateBulkTransferWithNonStandardPermit, usdc_try_permit, bulk_checked.
  tx_unfold.
  destruct (owner =? 0) eqn:Ho; cbn; [discriminate|].
  destruct (length_of recipients =? 0) eqn:Hn; cbn; [discriminate|].
  destruct (totalValue =? 0) eqn:Hv; cbn; [discriminate|].
  destruct (feeAmount >=? totalValue) eqn:Hf; cbn; [discriminate|].
  destruct (block_timestamp env >? deadline) eqn:Hd; cbn; [discriminate|].
  destruct (validateRecipients_inv recipients 0 c) as [(e & -> & _)|[-> Hall]];
    [discriminate|].
  rewrite Z.add_0_l.
  destruct (sum_amounts recipients + feeAmount <=? MAX_UINT256); cbn; [|discriminate].
  destruct (totalValue =? sum_amounts recipients + feeAmount) eqn:Hsum; cbn;
    [|discriminate].
  destruct (isUsed _ _) eqn:Hu; cbn; [discriminate|].
  destruct (balanceOf (token c) owner <? totalValue) eqn:Hb; cbn; [discriminate|].
  destruct (permit _ _ _ _ _ _ _ _ _ _) as [l1|] eqn:Hp; cbn; [|discriminate].
  destruct (transferFee _ _ _ _) as [[] c2|] eqn:Hfee; [|discriminate].
  apply transferFee_done in Hfee as (Hs2 & Hl2 & Ht2 & Ha2). cbn in *.
  destruct (transferToEach _ _ _ _) as [[] c3|] eqn:Heach; [|discriminate].
  apply transferToEach_done in Heach as (Hs3 & Hl3 & Ht3 & Ha3).
  intros [= <-]; cbn.
  repeat split; try lia; try congruence; try exact Hall.
  - now apply length_of_zero.
  - rewrite Ht3, Ht2, <- !app_assoc. reflexivity.
  - eapply apply_calls_app; [exact Ha2|exact Ha3].
Qed.

(** *** Running the transfers *)

Lemma apply_calls_app_inv env (xs ys : list Call) :
  forall (l l'' : L),
    apply_calls env (xs ++ ys) l = Some l'' ->
    exists l', apply_calls env xs l = Some l' /\ apply_calls env ys l' = Some l''.
Proof.
  induction xs as [|x xs IH]; intros l l'' Hrun; cbn in *.
  - eauto.
  - destruct (apply_call env x l) as [l1|]; [|discriminate]. now apply IH.
Qed.

Lemma transferFee_run env owner fee (c : Chain L) (l' : L) :
  apply_calls env (fee_move owner (feeCollector (store c)) fee) (token c) = Some l' ->
  transferFee env owner fee c
  = Done tt (mkChain (store c) l' (log c)
               (trace c ++ fee_move owner (feeCollector (store c)) fee)).
Proof.
  unfold transferFee, fee_move, usdc_transferFrom. tx_unfold.
  destruct (fee >? 0); cbn.
  - destruct (transferFrom _ _ _ _ _ _) as [[ok l1]|]; [|discriminate].
    now intros [= ->].
  - intros [= <-]. rewrite app_nil_r. now destruct c.
Qed.

Lemma transferToEach_run env owner (rs : list Recipient) :
  forall (c : Chain L) (l' : L),
    apply_calls env (recipient_moves owner rs) (token c) = Some l' ->
    transferToEach env owner rs c
    = Done tt (mkChain (store c) l' (log c) (trace c ++ recipient_moves owner rs)).
Proof.
  induction rs as [|rc rs IH]; intros c l'; cbn.
  - intros [= <-]. rewrite app_nil_r. now destruct c.
  - unfold usdc_transferFrom. tx_unfold.
    destruct (transferFrom _ _ _ _ _ _) as [[ok l1]|]; [|discriminate].
    intros Hrest. rewrite (IH _ l') by exact Hrest. cbn.
    now rewrite <- app_assoc.
Qed.

Lemma chain_eta (c : Chain L) st l lg tr :
  store c = st -> token c = l -> log c = lg -> trace c = tr -> c = mkChain st l lg tr.
Proof. destruct c; cbn; congruence. Qed.

(** X1. [facilitateTransferWithPermit] completes exactly when: owner and
    recipient are not null, the value is not zero, the fee is below the
    value, the deadline has not passed, [isPermitUsed] is false for the
    hash that [calculatePermitHash] gives for the request, the owner's
    balance covers the value, and the token accepts the permit, then the fee
    transfer (when the fee is not zero), then the transfer of
    [value - feeAmount] to the recipient. The state it leaves is then: the
    hash marked used, the token as those calls leave it, and one
    [FacilitationExecuted] event added. *)
Theorem single_permit_completes_iff env owner to_ value deadline v r s feeAmount
    (c c' : Chain L) :
  let h := calculatePermitHash keccak256 env owner value deadline v r s in
  let calls :=
    CallPermit owner (this env) value deadline v r s
    :: fee_move owner (feeCollector (store c)) feeAmount
    ++ [CallTransferFrom owner to_ (value - feeAmount)] in
  facilitateTransferWithPermit keccak256 env owner to_ value deadline v r s
      feeAmount c = Done tt c'
  <->
  (owner <> 0 /\ to_ <> 0 /\ value <> 0 /\ feeAmount < value /\
   block_timestamp env <= deadline) /\
  isPermitUsed h c = false /\
  value <= balanceOf (token c) owner /\
  exists l',
    apply_calls env calls (token c) = Some l' /\
    c' = mkChain (mkStorage (feeCollector (store c))
                            (<[h := true]> (usedPermits (store c))))
                 l'
                 (log c ++ [FacilitationExecuted owner to_ (value - feeAmount) feeAmount])
                 (trace c ++ calls).
Proof.
  intros h calls. split.
  - intros Hdone. apply single_permit_done in Hdone. cbn zeta in Hdone.
    destruct Hdone as (Hg & Hu & Hb & Hs & Ht & Ha & Hl).
    repeat split; try tauto; try exact Hu.
    exists (token c'). split; [exact Ha|]. now apply chain_eta.
  - intros ((Ho & Hto & Hv & Hf & Hd) & Hu & Hb & l' & Ha & ->).
    unfold isPermitUsed in Hu. subst calls. cbn in Ha.
    destruct (permit _ _ _ _ _ _ _ _ _ _) as [l1|] eqn:Hp; [|discriminate].
    apply apply_calls_app_inv in Ha as (l2 & Hfee & Hto_).
    unfold facilitateTransferWithPermit, usdc_try_permit. tx_unfold.
    settle (owner =? 0) false. settle (to_ =? 0) false. settle (value =? 0) false.
    settle (feeAmount >=? value) false.
    settle (block_timestamp env >? deadline) false.
    change (permitHash keccak256 env owner value deadline v r s) with h.
    rewrite Hu; cbn.
    settle (balanceOf (token c) owner <? value) false.
    rewrite Hp; cbn.
    settle (feeAmount <=? value) true.
    erewrite transferFee_run by (cbn; exact Hfee). cbn.
    unfold usdc_transferFrom; cbn. cbn in Hto_.
    destruct (transferFrom _ _ _ _ _ _) as [[ok l3]|]; [|discriminate].
    injection Hto_ as ->. cbn. now rewrite <- !app_assoc.
Qed.

(** X2. [facilitateTransferWithNonStandardPermit] completes exactly when
    its argument and deadline checks pass, the fingerprint built with the
    owner's current token nonce is not on the registry, the balance covers
    the value, and the token accepts the permit, the fee transfer (when the
    fee is not zero) and the transfer of [value - feeAmount] to the
    recipient, in this order. It then leaves that fingerprint marked, the
    token as those calls leave it, and one [FacilitationExecuted] event. *)
Theorem single_nonstandard_completes_iff env owner to_ value deadline v r s feeAmount
    (c c' : Chain L) :
  let h := nonStandardPermitHash keccak256 env owner value deadline
             (nonces (token c) owner) v r s in
  let calls :=
    CallPermit owner (this env) value deadline v r s
    :: fee_move owner (feeCollector (store c)) feeAmount
    ++ [CallTransferFrom owner to_ (value - feeAmount)] in
  facilitateTransferWithNonStandardPermit keccak256 env owner to_ value deadline
      v r s feeAmount c = Done tt c'
  <->
  (owner <> 0 /\ to_ <> 0 /\ value <> 0 /\ feeAmount < value /\
   block_timestamp env <= deadline) /\
  isPermitUsed h c = false /\
  value <= balanceOf (token c) owner /\
  exists l',
    apply_calls env calls (token c) = Some l' /\
    c' = mkChain (mkStorage (feeCollector (store c))
                            (<[h := true]> (usedPermits (store c))))
                 l'
                 (log c ++ [FacilitationExecuted owner to_ (value - feeAmount) feeAmount])
                 (trace c ++ calls).
Proof.
  intros h calls. split.
  - intros Hdone. apply single_nonstandard_done in Hdone. cbn zeta in Hdone.
    destruct Hdone as (Hg & Hu & Hb & Hs & Ht & Ha & Hl).
    repeat split; try tauto; try exact Hu.
    exists (token c'). split; [exact Ha|]. now apply chain_eta.
  - intros ((Ho & Hto & Hv & Hf & Hd) & Hu & Hb & l' & Ha & ->).
    unfold isPermitUsed in Hu. subst calls. cbn in Ha.
    destruct (permit _ _ _ _ _ _ _ _ _ _) as [l1|] eqn:Hp; [|discriminate].
    apply apply_calls_app_inv in Ha as (l2 & Hfee & Hto_).
    unfold facilitateTransferWithNonStandardPermit, usdc_try_permit. tx_unfold.
    settle (owner =? 0) false. settle (to_ =? 0) false. settle (value =? 0) false.
    settle (feeAmount >=? value) false.
    settle (block_timestamp env >? deadline) false.
    fold h. rewrite Hu; cbn.
    settle (balanceOf (token c) owner <? value) false.
    rewrite Hp; cbn.
    settle (feeAmount <=? value) true.
    erewrite transferFee_run by (cbn; exact Hfee). cbn.
    unfold usdc_transferFrom; cbn. cbn in Hto_.
    destruct (transferFrom _ _ _ _ _ _) as [[ok l3]|]; [|discriminate].
    injection Hto_ as ->. cbn. now rewrite <- !app_assoc.
Qed.

Lemma validateRecipients_run (rs : list Recipient) (c : Chain L) :
  Forall (fun rc => is_uint256 (amount rc)) rs ->
  Forall (fun rc => to rc <> 0 /\ amount rc <> 0) rs ->
  sum_amounts rs <= MAX_UINT256 ->
  validateRecipients 0 rs c = Done (sum_amounts rs) c.
Proof.
  intros Hrange Hall Hsum.
  rewrite (validateRecipients_ok rs 0 c); [reflexivity| |lia].
  rewrite Forall_forall in *. intros rc Hin.
  specialize (Hrange rc Hin). specialize (Hall rc Hin).
  unfold is_uint256 in Hrange. lia.
Qed.

(** X3. For arguments in the range of their types,
    [facilitateBulkTransferWithPermit] completes exactly when: the owner is
    not null, the list is not empty, the total is not zero, the fee is below
    the total, the deadline has not passed, no recipient is null or has a
    zero amount, the total equals the sum of the amounts plus the fee, the
    balance covers the total, and the token accepts the permit, the fee
    transfer (when the fee is not zero) and one transfer per recipient in
    list order. The registry plays no part. The call leaves the storage as
    it was and adds one [BulkFacilitationExecuted] event. *)
Theorem bulk_permit_completes_iff env owner recipients totalValue deadline v r s
    feeAmount (c c' : Chain L) :
  is_uint256 totalValue -> is_uint256 feeAmount ->
  Forall (fun rc => is_uint256 (amount rc)) recipients ->
  let calls :=
    CallPermit owner (this env) totalValue deadline v r s
    :: fee_move owner (feeCollector (store c)) feeAmount
    ++ recipient_moves owner recipients in
  facilitateBulkTransferWithPermit env owner recipients totalValue deadline
      v r s feeAmount c = Done tt c'
  <->
  bulk_checked env owner recipients totalValue deadline feeAmount c /\
  exists l',
    apply_calls env calls (token c) = Some l' /\
    c' = mkChain (store c) l'
                 (log c ++ [BulkFacilitationExecuted owner (length_of recipients)
                              (sum_amounts recipients) feeAmount])
                 (trace c ++ calls).
Proof.
  intros HtV HfA Hrange calls. split.
  - intros Hdone. apply bulk_permit_done_full in Hdone. cbn zeta in Hdone.
    destruct Hdone as (Hck & Hs & Ht & Ha & Hl).
    split; [exact Hck|].
    exists (token c'). split; [exact Ha|]. now apply chain_eta.
  - intros (((Ho & Hne & Hv & Hf & Hd) & Hall & Hsum & Hb) & l' & Ha & ->).
    subst calls. cbn in Ha.
    destruct (permit _ _ _ _ _ _ _ _ _ _) as [l1|] eqn:Hp; [|discriminate].
    apply apply_calls_app_inv in Ha as (l2 & Hfee & Heach).
    unfold is_uint256 in HtV, HfA.
    unfold facilitateBulkTransferWithPermit, usdc_try_permit. tx_unfold.
    settle (owner =? 0) false.
    rewrite length_of_nonempty by exact Hne. cbn.
    settle (totalValue =? 0) false.
    settle (feeAmount >=? totalValue) false.
    settle (block_timestamp env >? deadline) false.
    rewrite validateRecipients_run by (auto; lia).
    settle (sum_amounts recipients + feeAmount <=? MAX_UINT256) true.
    settle (totalValue =? sum_amounts recipients + feeAmount) true.
    settle (balanceOf (token c) owner <? totalValue) false.
    rewrite Hp; cbn.
    erewrite transferFee_run by (cbn; exact Hfee). cbn.
    erewrite transferToEach_run by (cbn; exact Heach). cbn.
    now rewrite <- !app_assoc.
Qed.

(** X4. For arguments in the range of their types,
    [facilitateBulkTransferWithNonStandardPermit] completes exactly when
    the checks of the bulk entry point pass, the fingerprint built from
    owner, contract, total, deadline, the owner's current nonce and the
    number of recipients is not on the registry, and the token accepts the
    permit, the fee transfer and the recipient transfers in order. It then
    leaves that fingerprint marked and adds one [BulkFacilitationExecuted]
    event. *)
Theorem bulk_nonstandard_completes_iff env owner recipients totalValue deadline v r s
    feeAmount (c c' : Chain L) :
  is_uint256 totalValue -> is_uint256 feeAmount ->
  Forall (fun rc => is_uint256 (amount rc)) recipients ->
  let h := bulkNonStandardPermitHash keccak256 env owner totalValue deadline
             (nonces (token c) owner) (length_of recipients) in
  let calls :=
    CallPermit owner (this env) totalValue deadline v r s
    :: fee_move owner (feeCollector (store c)) feeAmount
    ++ recipient_moves owner recipients in
  facilitateBulkTransferWithNonStandardPermit keccak256 env owner recipients
      totalValue deadline v r s feeAmount c = Done tt c'
  <->
  bulk_checked env owner recipients totalValue deadline feeAmount c /\
  isPermitUsed h c = false /\
  exists l',
    apply_calls env calls (token c) = Some l' /\
    c' = mkChain (mkStorage (feeCollector (store c))
                            (<[h := true]> (usedPermits (store c))))
                 l'
                 (log c ++ [BulkFacilitationExecuted owner (length_of recipients)
                              (sum_amounts recipients) feeAmount])
                 (trace c ++ calls).
Proof.
  intros HtV HfA Hrange h calls. split.
  - intros Hdone. apply bulk_nonstandard_done_full in Hdone. cbn zeta in Hdone.
    destruct Hdone as (Hck & Hu & Hs & Ht & Ha & Hl).
    split; [exact Hck|]. split; [exact Hu|].
    exists (token c'). split; [exact Ha|]. now apply chain_eta.
  - intros (((Ho & Hne & Hv & Hf & Hd) & Hall & Hsum & Hb) & Hu & l' & Ha & ->).
    unfold isPermitUsed in Hu. subst calls. cbn in Ha.
    destruct (permit _ _ _ _ _ _ _ _ _ _) as [l1|] eqn:Hp; [|discriminate].
    apply apply_calls_app_inv in Ha as (l2 & Hfee & Heach).
    unfold is_uint256 in HtV, HfA.
    unfold facilitateBulkTransferWithNonStandardPermit, usdc_try_permit. tx_unfold.
    settle (owner =? 0) false.
    rewrite length_of_nonempty by exact Hne. cbn.
    settle (totalValue =? 0) false.
    settle (feeAmount >=? totalValue) false.
    settle (block_timestamp env >? deadline) false.
    rewrite validateRecipients_run by (auto; lia).
    settle (sum_amounts recipients + feeAmount <=? MAX_UINT256) true.
    settle (totalValue =? sum_amounts recipients + feeAmount) true.
    fold h. rewrite Hu; cbn.
    settle (balanceOf (token c) owner <? totalValue) false.
    rewrite Hp; cbn.
    erewrite transferFee_run by (cbn; exact Hfee). cbn.
    erewrite transferToEach_run by (cbn; exact Heach). cbn.
    now rewrite <- !app_assoc.
Qed.

(** What every request that completes has done. *)
Lemma facilitate_done env (req : Request) (c c' : Chain L) :
  facilitate keccak256 env req c = Done tt c' ->
  let calls := request_calls (this env) (feeCollector (store c)) req in
  let fingerprint :=
    request_fingerprint keccak256 env (nonces (token c) (request_owner req)) req in
  (request_owner req <> 0 /\ request_value req <> 0 /\
   request_fee req < request_value req /\
   block_timestamp env <= request_deadline req /\
   request_value req <= balanceOf (token c) (request_owner req)) /\
  (forall h, fingerprint = Some h -> isUsed (usedPermits (store c)) h = false) /\
  store c' = record_fingerprint fingerprint (store c) /\
  trace c' = trace c ++ calls /\
  apply_calls env calls (token c) = Some (token c') /\
  log c' = log c ++ [request_event req].
Proof.
  destruct req as [owner to_ value deadline v r s fee
                  |owner rs value deadline v r s fee
                  |owner to_ value deadline v r s fee
                  |owner rs value deadline v r s fee];
    cbn [facilitate]; intros Hdone.
  - apply single_permit_done in Hdone. cbn zeta in Hdone.
    destruct Hdone as ((Ho & Hto & Hv & Hf & Hd) & Hu & Hb & Hs & Ht & Ha & Hl).
    cbn. repeat split; auto. intros h [= <-]. exact Hu.
  - apply bulk_permit_done_full in Hdone. cbn zeta in Hdone.
    destruct Hdone as (((Ho & Hne & Hv & Hf & Hd) & Hall & Hsum & Hb) & Hs & Ht & Ha & Hl).
    cbn. repeat split; auto. intros h [=].
  - apply single_nonstandard_done in Hdone. cbn zeta in Hdone.
    destruct Hdone as ((Ho & Hto & Hv & Hf & Hd) & Hu & Hb & Hs & Ht & Ha & Hl).
    cbn. repeat split; auto. intros h [= <-]. exact Hu.
  - apply bulk_nonstandard_done_full in Hdone. cbn zeta in Hdone.
    destruct Hdone as (((Ho & Hne & Hv & Hf & Hd) & Hall & Hsum & Hb) & Hu & Hs & Ht & Ha & Hl).
    cbn. repeat split; auto. intros h [= <-]. exact Hu.
Qed.

Lemma facilitate_sum env (req : Request) (c c' : Chain L) :
  facilitate keccak256 env req c = Done tt c' ->
  moved_total (request_moves req) + request_fee req = request_value req /\
  fst (event_amounts (request_event req)) + request_fee req = request_value req /\
  snd (event_amounts (request_event req)) = request_fee req.
Proof.
  assert (Hmoves : forall owner rs, moved_total (recipient_moves owner rs) = sum_amounts rs).
  { intros owner rs. induction rs as [|rc rs IH]; [reflexivity|].
    rewrite sum_amounts_cons, <- IH. reflexivity. }
  destruct req as [owner to_ value deadline v r s fee
                  |owner rs value deadline v r s fee
                  |owner to_ value deadline v r s fee
                  |owner rs value deadline v r s fee];
    cbn [facilitate]; intros Hdone;
    cbn [request_moves request_fee request_value request_event event_amounts fst snd].
  - cbn. lia.
  - apply bulk_permit_done_full in Hdone. cbn zeta in Hdone.
    destruct Hdone as ((_ & _ & Hsum & _) & _). rewrite Hmoves. lia.
  - cbn. lia.
  - apply bulk_nonstandard_done_full in Hdone. cbn zeta in Hdone.
    destruct Hdone as ((_ & _ & Hsum & _) & _). rewrite Hmoves. lia.
Qed.

Lemma isUsed_insert (m : gmap Z bool) (h h' : Z) :
  isUsed (<[h := true]> m) h' = (h' =? h) || isUsed m h'.
Proof.
  unfold isUsed. destruct (Z.eqb_spec h' h) as [->|Hne].
  - now rewrite lookup_insert_eq.
  - rewrite lookup_insert_ne by congruence. reflexivity.
Qed.

(** The storage after a transaction: the collector is as before, used
    fingerprints stay used, and a new one is the fingerprint of the
    request. *)
Lemma facilitate_registry env (req : Request) (c : Chain L) :
  let c' := fst (transact (facilitate keccak256 env req) c) in
  feeCollector (store c') = feeCollector (store c) /\
  (forall h, isPermitUsed h c = true -> isPermitUsed h c' = true) /\
  (forall h, isPermitUsed h c' = true ->
     isPermitUsed h c = true \/
     request_fingerprint keccak256 env (nonces (token c) (request_owner req)) req
       = Some h).
Proof.
  unfold transact.
  destruct (facilitate keccak256 env req c) as [[] c1|e w] eqn:Hrun; cbn;
    [|now auto].
  apply facilitate_done in Hrun. cbn zeta in Hrun.
  destruct Hrun as (_ & _ & Hs & _). unfold isPermitUsed. rewrite Hs.
  destruct (request_fingerprint _ _ _ _) as [h0|]; cbn; [|now auto].
  repeat split.
  - intros h Hh. rewrite isUsed_insert, Hh. apply orb_true_r.
  - intros h. rewrite isUsed_insert. intros [Heq%Z.eqb_eq|Hh]%orb_true_iff.
    + right. now subst.
    + now left.
Qed.

(** X5. Whatever transfer request is submitted and however it ends, the
    fee collector is unchanged, every fingerprint on the registry stays on
    it, and the only fingerprint that can be new is the one of the request
    itself (none for [facilitateBulkTransferWithPermit]). *)
Theorem facilitate_registry_only_grows env (req : Request) (c : Chain L) :
  let c' := fst (transact (facilitate keccak256 env req) c) in
  feeCollector (store c') = feeCollector (store c) /\
  (forall h, isPermitUsed h c = true -> isPermitUsed h c' = true) /\
  (forall h, isPermitUsed h c' = true ->
     isPermitUsed h c = true \/
     request_fingerprint keccak256 env (nonces (token c) (request_owner req)) req
       = Some h).
Proof. exact (facilitate_registry env req c). Qed.





(** X7. A request that completes adds exactly one event to the log, and
    the two amounts the event reports, what was sent on and the fee, add up
    to the value of the request. *)
Theorem facilitate_event_accounts_for_value env (req : Request) (c c' : Chain L) :
  facilitate keccak256 env req c = Done tt c' ->
  exists ev,
    log c' = log c ++ [ev] /\
    ev = request_event req /\
    fst (event_amounts ev) + snd (event_amounts ev) = request_value req.
Proof.
  intros Hdone.
  destruct (facilitate_sum _ _ _ _ Hdone) as (_ & Hsent & Hfee).
  apply facilitate_done in Hdone. cbn zeta in Hdone.
  destruct Hdone as (_ & _ & _ & _ & _ & Hl).
  exists (request_event req). repeat split; [exact Hl|lia].
Qed.

Lemma validateRecipients_errors (rs : list Recipient) :
  forall (acc : Z) (c working : Chain L) (e : Error),
    validateRecipients acc rs c = Reverted e working ->
    e = InvalidRecipient \/ e = InvalidRecipientAmount \/ e = ArithmeticPanic.
Proof.
  induction rs as [|rc rs IH]; intros acc c working e; cbn; tx_unfold.
  - discriminate.
  - destruct (to rc =? 0); cbn; [intros [= <- <-]; auto|].
    destruct (amount rc =? 0); cbn; [intros [= <- <-]; auto|].
    destruct (acc + amount rc <=? MAX_UINT256); cbn; [|intros [= <- <-]; auto].
    apply IH.
Qed.

Lemma transferFee_fail env owner fee (c working : Chain L) (e : Error) :
  transferFee env owner fee c = Reverted e working ->
  e = TokenReverted /\
  apply_calls env (fee_move owner (feeCollector (store c)) fee) (token c) = None.
Proof.
  unfold transferFee, fee_move, usdc_transferFrom. tx_unfold.
  destruct (fee >? 0); cbn; [|discriminate].
  destruct (transferFrom _ _ _ _ _ _) as [[ok l1]|]; cbn; [discriminate|].
  now intros [= <- <-].
Qed.

Lemma transferToEach_fail env owner (rs : list Recipient) :
  forall (c working : Chain L) (e : Error),
    transferToEach env owner rs c = Reverted e working ->
    e = TokenReverted /\
    apply_calls env (recipient_moves owner rs) (token c) = None.
Proof.
  induction rs as [|rc rs IH]; intros c working e; cbn.
  - discriminate.
  - unfold usdc_transferFrom. tx_unfold.
    destruct (transferFrom _ _ _ _ _ _) as [[ok l1]|]; cbn; [|now intros [= <- <-]].
    intros Hrest. now apply IH in Hrest.
Qed.

Lemma apply_calls_app_none_l env (xs ys : list Call) (l : L) :
  apply_calls env xs l = None -> apply_calls env (xs ++ ys) l = None.
Proof.
  revert l. induction xs as [|x xs IH]; intros l; cbn; [discriminate|].
  destruct (apply_call env x l); auto.
Qed.

Lemma apply_calls_app_none_r env (xs ys : list Call) (l l' : L) :
  apply_calls env xs l = Some l' -> apply_calls env ys l' = None ->
  apply_calls env (xs ++ ys) l = None.
Proof.
  revert l. induction xs as [|x xs IH]; intros l; cbn.
  - now intros [= ->].
  - destruct (apply_call env x l); [apply IH|discriminate].
Qed.

Ltac stop := intros [= <- <-]; cbn; first [exact I | lia | eauto].

Lemma facilitate_reverted env (req : Request) (c working : Chain L) (e : Error) :
  facilitate keccak256 env req c = Reverted e working -> error_cause keccak256 env req c e.
Proof.
  destruct req as [owner to_ value deadline v r s fee
                  |owner rs value deadline v r s fee
                  |owner to_ value deadline v r s fee
                  |owner rs value deadline v r s fee];
    cbn [facilitate].
  - unfold facilitateTransferWithPermit, usdc_try_permit. tx_unfold.
    destruct (owner =? 0); cbn; [stop|].
    destruct (to_ =? 0); cbn; [stop|].
    destruct (value =? 0); cbn; [stop|].
    destruct (fee >=? value) eqn:Hf; cbn; [stop|].
    destruct (block_timestamp env >? deadline) eqn:Hd; cbn; [stop|].
    destruct (isUsed _ _) eqn:Hu; cbn; [stop|].
    destruct (balanceOf (token c) owner <? value) eqn:Hb; cbn; [stop|].
    destruct (permit _ _ _ _ _ _ _ _ _ _) as [l1|] eqn:Hp; cbn; [|stop].
    settle (fee <=? value) true.
    destruct (transferFee _ _ _ _) as [[] c2|e2 w2] eqn:Hfee.
    + apply transferFee_done in Hfee as (_ & _ & _ & Ha2). cbn in *.
      unfold usdc_transferFrom.
      destruct (transferFrom _ _ _ _ _ _) as [[ok l3]|] eqn:Htr; cbn; [discriminate|].
      intros [= <- <-]. cbn. rewrite Hp. eexists; split; [reflexivity|].
      eapply apply_calls_app_none_r; [exact Ha2|]. cbn. now rewrite Htr.
    + apply transferFee_fail in Hfee as (-> & Ha2). cbn in *.
      intros [= <- <-]. cbn. rewrite Hp. eexists; split; [reflexivity|].
      now apply apply_calls_app_none_l.
  - unfold facilitateBulkTransferWithPermit, usdc_try_permit. tx_unfold.
    destruct (owner =? 0); cbn; [stop|].
    destruct (length_of rs =? 0); cbn; [stop|].
    destruct (value =? 0); cbn; [stop|].
    destruct (fee >=? value) eqn:Hf; cbn; [stop|].
    destruct (block_timestamp env >? deadline) eqn:Hd; cbn; [stop|].
    destruct (validateRecipients 0 rs c) as [total c0|e0 w0] eqn:Hval.
    2:{ apply validateRecipients_errors in Hval as [->|[->| ->]]; stop. }
    destruct (validateRecipients_inv rs 0 c) as [(e1 & He1 & _)|[Hv1 _]];
      [congruence|].
    rewrite Hv1 in Hval. injection Hval as <- <-.
    destruct (0 + sum_amounts rs + fee <=? MAX_UINT256); cbn; [|stop].
    destruct (value =? 0 + sum_amounts rs + fee); cbn; [|stop].
    destruct (balanceOf (token c) owner <? value) eqn:Hb; cbn; [stop|].
    destruct (permit _ _ _ _ _ _ _ _ _ _) as [l1|] eqn:Hp; cbn; [|stop].
    destruct (transferFee _ _ _ _) as [[] c2|e2 w2] eqn:Hfee.
    + apply transferFee_done in Hfee as (_ & _ & _ & Ha2). cbn in *.
      destruct (transferToEach _ _ _ _) as [[] c3|e3 w3] eqn:Heach; [discriminate|].
      apply transferToEach_fail in Heach as (-> & Ha3).
      intros [= <- <-]. cbn. rewrite Hp. eexists; split; [reflexivity|].
      eapply apply_calls_app_none_r; [exact Ha2|exact Ha3].
    + apply transferFee_fail in Hfee as (-> & Ha2). cbn in *.
      intros [= <- <-]. cbn. rewrite Hp. eexists; split; [reflexivity|].
      now apply apply_calls_app_none_l.
  - unfold facilitateTransferWithNonStandardPermit, usdc_try_permit. tx_unfold.
    destruct (owner =? 0); cbn; [stop|].
    destruct (to_ =? 0); cbn; [stop|].
    destruct (value =? 0); cbn; [stop|].
    destruct (fee >=? value) eqn:Hf; cbn; [stop|].
    destruct (block_timestamp env >? deadline) eqn:Hd; cbn; [stop|].
    destruct (isUsed _ _) eqn:Hu; cbn; [stop|].
    destruct (balanceOf (token c) owner <? value) eqn:Hb; cbn; [stop|].
    destruct (permit _ _ _ _ _ _ _ _ _ _) as [l1|] eqn:Hp; cbn; [|stop].
    settle (fee <=? value) true.
    destruct (transferFee _ _ _ _) as [[] c2|e2 w2] eqn:Hfee.
    + apply transferFee_done in Hfee as (_ & _ & _ & Ha2). cbn in *.
      unfold usdc_transferFrom.
      destruct (transferFrom _ _ _ _ _ _) as [[ok l3]|] eqn:Htr; cbn; [discriminate|].
      intros [= <- <-]. cbn. rewrite Hp. eexists; split; [reflexivity|].
      eapply apply_calls_app_none_r; [exact Ha2|]. cbn. now rewrite Htr.
    + apply transferFee_fail in Hfee as (-> & Ha2). cbn in *.
      intros [= <- <-]. cbn. rewrite Hp. eexists; split; [reflexivity|].
      now apply apply_calls_app_none_l.
  - unfold facilitateBulkTransferWithNonStandardPermit, usdc_try_permit. tx_unfold.
    destruct (owner =? 0); cbn; [stop|].
    destruct (length_of rs =? 0); cbn; [stop|].
    destruct (value =? 0); cbn; [stop|].
    destruct (fee >=? value) eqn:Hf; cbn; [stop|].
    destruct (block_timestamp env >? deadline) eqn:Hd; cbn; [stop|].
    destruct (validateRecipients 0 rs c) as [total c0|e0 w0] eqn:Hval.
    2:{ apply validateRecipients_errors in Hval as [->|[->| ->]]; stop. }
    destruct (validateRecipients_inv rs 0 c) as [(e1 & He1 & _)|[Hv1 _]];
      [congruence|].
    rewrite Hv1 in Hval. injection Hval as <- <-.
    destruct (0 + sum_amounts rs + fee <=? MAX_UINT256); cbn; [|stop].
    destruct (value =? 0 + sum_amounts rs + fee); cbn; [|stop].
    destruct (isUsed _ _) eqn:Hu; cbn; [stop|].
    destruct (balanceOf (token c) owner <? value) eqn:Hb; cbn; [stop|].
    destruct (permit _ _ _ _ _ _ _ _ _ _) as [l1|] eqn:Hp; cbn; [|stop].
    destruct (transferFee _ _ _ _) as [[] c2|e2 w2] eqn:Hfee.
    + apply transferFee_done in Hfee as (_ & _ & _ & Ha2). cbn in *.
      destruct (transferToEach _ _ _ _) as [[] c3|e3 w3] eqn:Heach; [discriminate|].
      apply transferToEach_fail in Heach as (-> & Ha3).
      intros [= <- <-]. cbn. rewrite Hp. eexists; split; [reflexivity|].
      eapply apply_calls_app_none_r; [exact Ha2|exact Ha3].
    + apply transferFee_fail in Hfee as (-> & Ha2). cbn in *.
      intros [= <- <-]. cbn. rewrite Hp. eexists; split; [reflexivity|].
      now apply apply_calls_app_none_l.
Qed.

(** *** The deadline check and the registry *)

Lemma bulk_permit_expired env owner recipients totalValue deadline v r s feeAmount
    (c : Chain L) :
  owner <> 0 -> recipients <> [] -> totalValue <> 0 -> feeAmount < totalValue ->
  deadline < block_timestamp env ->
  facilitateBulkTransferWithPermit env owner recipients totalValue deadline
      v r s feeAmount c
    = Reverted PermitExpired c.
Proof.
  intros Ho Hne Hv Hf Hd. unfold facilitateBulkTransferWithPermit. tx_unfold.
  settle (owner =? 0) false. rewrite length_of_nonempty by exact Hne. cbn.
  settle (totalValue =? 0) false. settle (feeAmount >=? totalValue) false.
  settle (block_timestamp env >? deadline) true. reflexivity.
Qed.

Lemma bulk_nonstandard_expired env owner recipients totalValue deadline v r s
    feeAmount (c : Chain L) :
  owner <> 0 -> recipients <> [] -> totalValue <> 0 -> feeAmount < totalValue ->
  deadline < block_timestamp env ->
  facilitateBulkTransferWithNonStandardPermit keccak256 env owner recipients
      totalValue deadline v r s feeAmount c
    = Reverted PermitExpired c.
Proof.
  intros Ho Hne Hv Hf Hd. unfold facilitateBulkTransferWithNonStandardPermit.
  tx_unfold.
  settle (owner =? 0) false. rewrite length_of_nonempty by exact Hne. cbn.
  settle (totalValue =? 0) false. settle (feeAmount >=? totalValue) false.
  settle (block_timestamp env >? deadline) true. reflexivity.
Qed.

(** With the deadline in the past no entry point reaches the registry. *)
Lemma facilitate_expired_never_replay env (req : Request) (c : Chain L) :
  request_deadline req < block_timestamp env ->
  exists e, facilitate keccak256 env req c = Reverted e c /\ e <> PermitAlreadyUsed.
Proof.
  intros Hd.
  destruct req as [owner to_ value deadline v r s fee
                  |owner rs value deadline v r s fee
                  |owner to_ value deadline v r s fee
                  |owner rs value deadline v r s fee];
    cbn [facilitate request_deadline] in *.
  - now apply single_permit_expired_never_replay.
  - unfold facilitateBulkTransferWithPermit. tx_unfold.
    destruct (owner =? 0); cbn; [eexists; split; [reflexivity|discriminate]|].
    destruct (length_of rs =? 0); cbn; [eexists; split; [reflexivity|discriminate]|].
    destruct (value =? 0); cbn; [eexists; split; [reflexivity|discriminate]|].
    destruct (fee >=? value); cbn; [eexists; split; [reflexivity|discriminate]|].
    settle (block_timestamp env >? deadline) true.
    eexists; split; [reflexivity|discriminate].
  - now apply single_nonstandard_expired_never_replay.
  - unfold facilitateBulkTransferWithNonStandardPermit. tx_unfold.
    destruct (owner =? 0); cbn; [eexists; split; [reflexivity|discriminate]|].
    destruct (length_of rs =? 0); cbn; [eexists; split; [reflexivity|discriminate]|].
    destruct (value =? 0); cbn; [eexists; split; [reflexivity|discriminate]|].
    destruct (fee >=? value); cbn; [eexists; split; [reflexivity|discriminate]|].
    settle (block_timestamp env >? deadline) true.
    eexists; split; [reflexivity|discriminate].
Qed.

(** C3. A request that has been carried out has its fingerprint marked
    used (the three entry points that keep one). When the same request is
    submitted again after its deadline, to whichever of the four entry
    points and in whatever state, so also in the state where its
    fingerprint is marked, it reverts with [PermitExpired], not with
    [PermitAlreadyUsed]. The deadline check comes before the fingerprint is
    computed: no request at all whose deadline is in the past reverts with
    [PermitAlreadyUsed]. *)
Theorem C3_expired_reported_before_replay :
  (forall env1 env2 (req : Request) (c c1 : Chain L),
     facilitate keccak256 env1 req c = Done tt c1 ->
     request_deadline req < block_timestamp env2 ->
     (forall h,
        request_fingerprint keccak256 env1 (nonces (token c) (request_owner req)) req
          = Some h ->
        isPermitUsed h c1 = true) /\
     (forall c2 : Chain L,
        transact (facilitate keccak256 env2 req) c2 = (c2, Some PermitExpired))) /\
  (forall env (req : Request) (c : Chain L),
     request_deadline req < block_timestamp env ->
     snd (transact (facilitate keccak256 env req) c) <> Some PermitAlreadyUsed).
Proof.
  split.
  - intros env1 env2 req c c1 Hdone Hd. split.
    + intros h Hh. apply facilitate_done in Hdone. cbn zeta in Hdone.
      destruct Hdone as (_ & _ & Hs & _).
      unfold isPermitUsed. rewrite Hs, Hh. cbn.
      rewrite isUsed_insert, Z.eqb_refl. reflexivity.
    + intros c2. eapply transact_reverted.
      destruct req as [owner to_ value deadline v r s fee
                      |owner rs value deadline v r s fee
                      |owner to_ value deadline v r s fee
                      |owner rs value deadline v r s fee];
        cbn [facilitate request_deadline] in *.
      * apply single_permit_done in Hdone. cbn zeta in Hdone.
        destruct Hdone as ((Ho & Hto & Hv & Hf & _) & _).
        now apply single_permit_expired.
      * apply bulk_permit_done_full in Hdone. cbn zeta in Hdone.
        destruct Hdone as (((Ho & Hne & Hv & Hf & _) & _) & _).
        now apply bulk_permit_expired.
      * apply single_nonstandard_done in Hdone. cbn zeta in Hdone.
        destruct Hdone as ((Ho & Hto & Hv & Hf & _) & _).
        now apply single_nonstandard_expired.
      * apply bulk_nonstandard_done_full in Hdone. cbn zeta in Hdone.
        destruct Hdone as (((Ho & Hne & Hv & Hf & _) & _) & _).
        now apply bulk_nonstandard_expired.
  - intros env req c Hd.
    destruct (facilitate_expired_never_replay env req c Hd) as (e & He & Hne).
    rewrite (transact_reverted _ _ _ _ He). cbn. congruence.
Qed.

(** *** The transfers of a request that is carried out *)

(** C6. In every transfer that is carried out, through whichever of the
    four entry points, the fee is below the value (single transfers), the
    token calls made are the permit, then the transfer of the fee to the
    collector (none when the fee is zero), then the transfer of
    [value - feeAmount] to the recipient or, for a bulk transfer, one
    transfer of each recipient's amount in list order; and the token is
    left as exactly these calls leave it. *)
Theorem C6_fee_then_recipients :
  (forall env owner to_ value deadline v r s feeAmount (c c' : Chain L),
     facilitateTransferWithPermit keccak256 env owner to_ value deadline
       v r s feeAmount c = Done tt c' ->
     let moves := fee_move owner (feeCollector (store c)) feeAmount
                  ++ [CallTransferFrom owner to_ (value - feeAmount)] in
     feeAmount < value /\
     trace c' = trace c ++ CallPermit owner (this env) value deadline v r s :: moves /\
     apply_calls env (CallPermit owner (this env) value deadline v r s :: moves)
       (token c) = Some (token c')) /\
  (forall env owner recipients totalValue deadline v r s feeAmount (c c' : Chain L),
     facilitateBulkTransferWithPermit env owner recipients totalValue deadline
       v r s feeAmount c = Done tt c' ->
     let moves := fee_move owner (feeCollector (store c)) feeAmount
                  ++ recipient_moves owner recipients in
     trace c' = trace c ++ CallPermit owner (this env) totalValue deadline v r s :: moves /\
     apply_calls env (CallPermit owner (this env) totalValue deadline v r s :: moves)
       (token c) = Some (token c')) /\
  (forall env owner to_ value deadline v r s feeAmount (c c' : Chain L),
     facilitateTransferWithNonStandardPermit keccak256 env owner to_ value deadline
       v r s feeAmount c = Done tt c' ->
     let moves := fee_move owner (feeCollector (store c)) feeAmount
                  ++ [CallTransferFrom owner to_ (value - feeAmount)] in
     feeAmount < value /\
     trace c' = trace c ++ CallPermit owner (this env) value deadline v r s :: moves /\
     apply_calls env (CallPermit owner (this env) value deadline v r s :: moves)
       (token c) = Some (token c')) /\
  (forall env owner recipients totalValue deadline v r s feeAmount (c c' : Chain L),
     facilitateBulkTransferWithNonStandardPermit keccak256 env owner recipients
       totalValue deadline v r s feeAmount c = Done tt c' ->
     let moves := fee_move owner (feeCollector (store c)) feeAmount
                  ++ recipient_moves owner recipients in
     trace c' = trace c ++ CallPermit owner (this env) totalValue deadline v r s :: moves /\
     apply_calls env (CallPermit owner (this env) totalValue deadline v r s :: moves)
       (token c) = Some (token c')).
Proof.
  split; [|split; [|split]].
  - intros env owner to_ value deadline v r s feeAmount c c' Hdone.
    apply single_permit_done in Hdone.
    destruct Hdone as ((_ & _ & _ & Hfee & _) & _ & _ & _ & Htrace & Hcalls & _).
    auto.
  - intros env owner recipients totalValue deadline v r s feeAmount c c' Hdone.
    apply bulk_permit_done in Hdone.
    destruct Hdone as (_ & _ & Htrace & Hcalls & _). auto.
  - intros env owner to_ value deadline v r s feeAmount c c' Hdone.
    apply single_nonstandard_done in Hdone.
    destruct Hdone as ((_ & _ & _ & Hfee & _) & _ & _ & _ & Htrace & Hcalls & _).
    auto.
  - intros env owner recipients totalValue deadline v r s feeAmount c c' Hdone.
    apply bulk_nonstandard_done_full in Hdone.
    destruct Hdone as (_ & _ & _ & Htrace & Hcalls & _). auto.
Qed.

(** *** The fingerprints of the non-standard entry points *)




(** X8. The error a transfer request reverts with tells its cause:
    [PermitExpired] only after the deadline; [PermitAlreadyUsed] only when
    the fingerprint of the request is on the registry; [InsufficientBalance]
    only when the owner's balance is below the value; [InvalidPermitSignature]
    only when the token rejects the permit; and a revert inside the token
    during the transfers only after the token accepted the permit. *)
Theorem facilitate_error_tells_cause env (req : Request) (c : Chain L) (e : Error) :
  snd (transact (facilitate keccak256 env req) c) = Some e ->
  error_cause keccak256 env req c e.
Proof.
  unfold transact.
  destruct (facilitate keccak256 env req c) as [[] c1|e1 w] eqn:Hrun; cbn;
    [discriminate|].
  intros [= <-]. eapply facilitate_reverted, Hrun.
Qed.

(** A permit that [facilitateTransferWithPermit] has completed for is
    refused wherever its registry entry is still present. *)
Lemma single_permit_reuse env1 env2 owner to_ to_' value deadline v r s
    feeAmount feeAmount' (c c1 c2 : Chain L) :
  facilitateTransferWithPermit keccak256 env1 owner to_ value deadline v r s feeAmount c
    = Done tt c1 ->
  (forall h, isPermitUsed h c1 = true -> isPermitUsed h c2 = true) ->
  this env2 = this env1 ->
  to_' <> 0 -> feeAmount' < value -> block_timestamp env2 <= deadline ->
  transact (facilitateTransferWithPermit keccak256 env2 owner to_' value deadline
              v r s feeAmount') c2 = (c2, Some PermitAlreadyUsed).
Proof.
  intros Hdone Hkeep Hthis Hto Hfee Hd.
  apply single_permit_done in Hdone. cbn zeta in Hdone.
  destruct Hdone as ((Ho & _ & Hv & _) & _ & _ & Hs & _).
  assert (Hused : isUsed (usedPermits (store c2))
                    (permitHash keccak256 env2 owner value deadline v r s) = true).
  { rewrite (permitHash_this keccak256 env1 env2) by exact Hthis.
    apply Hkeep. unfold isPermitUsed. rewrite Hs. cbn.
    rewrite isUsed_insert, Z.eqb_refl. reflexivity. }
  eapply transact_reverted.
  unfold facilitateTransferWithPermit. tx_unfold.
  settle (owner =? 0) false. settle (to_' =? 0) false. settle (value =? 0) false.
  settle (feeAmount' >=? value) false.
  settle (block_timestamp env2 >? deadline) false.
  rewrite Hused. reflexivity.
Qed.





Lemma sum_amounts_range (rs : list Recipient) :
  Forall (fun rc => is_uint256 (amount rc)) rs -> 0 <= sum_amounts rs.
Proof.
  induction 1 as [|rc rs Hrc _ IH]; [rewrite sum_amounts_nil; lia|].
  rewrite sum_amounts_cons. unfold is_uint256 in Hrc. lia.
Qed.

Lemma calculateTotal_from (rs : list Recipient) :
  forall (total : Z) (c : Chain L),
    is_uint256 total ->
    Forall (fun rc => is_uint256 (amount rc)) rs ->
    calculateTotalRecipientAmount_from total rs c
    = if total + sum_amounts rs <=? MAX_UINT256
      then Done (total + sum_amounts rs) c
      else Reverted ArithmeticPanic c.
Proof.
  induction rs as [|rc rs IH]; intros total c Htotal Hall; cbn.
  - rewrite sum_amounts_nil, Z.add_0_r. unfold is_uint256 in Htotal.
    settle (total <=? MAX_UINT256) true. reflexivity.
  - inversion Hall as [|? ? Hrc Hrest]; subst.
    pose proof (sum_amounts_range rs Hrest) as Hpos.
    rewrite sum_amounts_cons. unfold is_uint256 in Htotal, Hrc. tx_unfold.
    destruct (total + amount rc <=? MAX_UINT256) eqn:Hfit; cbn.
    + rewrite IH by (unfold is_uint256; auto; lia).
      now rewrite Z.add_assoc.
    + settle (total + (amount rc + sum_amounts rs) <=? MAX_UINT256) false.
      reflexivity.
Qed.

(** X12. For recipient amounts in the [uint256] range,
    [calculateTotalRecipientAmount] returns the sum of the amounts when it
    fits in a [uint256] and fails with an arithmetic panic otherwise; it
    makes none of the checks of the bulk entry points, so null recipients
    and zero amounts are counted as they are, and an empty list gives 0. *)
Theorem calculateTotalRecipientAmount_spec (recipients : list Recipient) (c : Chain L) :
  Forall (fun rc => is_uint256 (amount rc)) recipients ->
  calculateTotalRecipientAmount recipients c
  = if sum_amounts recipients <=? MAX_UINT256
    then Done (sum_amounts recipients) c
    else Reverted ArithmeticPanic c.
Proof.
  intros Hall. unfold calculateTotalRecipientAmount.
  rewrite calculateTotal_from by (auto; unfold is_uint256, MAX_UINT256; lia).
  reflexivity.
Qed.

(** X13. The total that [calculateTotalRecipientAmount] returns is the one
    the bulk entry points work with: when a bulk request completes,
    [calculateTotalRecipientAmount] on its recipients returns
    [totalValue - feeAmount], the amount the event reports as sent. *)
Theorem calculateTotalRecipientAmount_of_completed env owner recipients totalValue
    deadline v r s feeAmount (c c' c0 : Chain L) :
  facilitateBulkTransferWithPermit env owner recipients totalValue deadline
    v r s feeAmount c = Done tt c' \/
  facilitateBulkTransferWithNonStandardPermit keccak256 env owner recipients
    totalValue deadline v r s feeAmount c = Done tt c' ->
  is_uint256 feeAmount -> is_uint256 totalValue ->
  Forall (fun rc => is_uint256 (amount rc)) recipients ->
  calculateTotalRecipientAmount recipients c0 = Done (totalValue - feeAmount) c0.
Proof.
  intros Hdone Hfee Htotal Hall.
  assert (Hsum : totalValue = sum_amounts recipients + feeAmount).
  { destruct Hdone as [Hdone|Hdone].
    - apply bulk_permit_done_full in Hdone. cbn zeta in Hdone.
      now destruct Hdone as ((_ & _ & Hsum & _) & _).
    - apply bulk_nonstandard_done_full in Hdone. cbn zeta in Hdone.
      now destruct Hdone as ((_ & _ & Hsum & _) & _). }
  unfold calculateTotalRecipientAmount.
  rewrite calculateTotal_from by (auto; unfold is_uint256, MAX_UINT256; lia).
  rewrite Z.add_0_l. unfold is_uint256 in Hfee, Htotal.
  settle (sum_amounts recipients <=? MAX_UINT256) true.
  f_equal. lia.
Qed.

End RequestProperties.

Section ReturnValue.
Context {L : Type}.
Variables T1 T2 : IUSDC L.
Variable keccak256 : list Z -> bytes32.

Hypothesis same_permit : @permit L T1 = @permit L T2.
Hypothesis same_balanceOf : @balanceOf L T1 = @balanceOf L T2.
Hypothesis same_nonces : @nonces L T1 = @nonces L T2.
Hypothesis same_moves : forall now caller from to_ amount_ l,
  option_map snd (@transferFrom L T1 now caller from to_ amount_ l)
  = option_map snd (@transferFrom L T2 now caller from to_ amount_ l).

Lemma usdc_transferFrom_then {A} env from to_ amount_ (k : Tx L A) (c : Chain L) :
  (@usdc_transferFrom L T1 env from to_ amount_ ≫= fun _ => k) c
  = (@usdc_transferFrom L T2 env from to_ amount_ ≫= fun _ => k) c.
Proof.
  unfold usdc_transferFrom. tx_unfold.
  pose proof (same_moves (block_timestamp env) (this env) from to_ amount_ (token c))
    as Hsame.
  destruct (@transferFrom L T1 _ _ _ _ _ _) as [[ok1 l1]|],
           (@transferFrom L T2 _ _ _ _ _ _) as [[ok2 l2]|];
    cbn in Hsame; try discriminate; [|reflexivity].
  now injection Hsame as ->.
Qed.

Lemma transferFee_same env owner fee (c : Chain L) :
  @transferFee L T1 env owner fee c = @transferFee L T2 env owner fee c.
Proof.
  unfold transferFee. destruct (fee >? 0); [|reflexivity].
  unfold read_feeCollector. tx_unfold. apply (usdc_transferFrom_then env).
Qed.

Lemma transferToEach_same env owner (rs : list Recipient) :
  forall c : Chain L,
    @transferToEach L T1 env owner rs c = @transferToEach L T2 env owner rs c.
Proof.
  induction rs as [|rc rs IH]; intros c; cbn; [reflexivity|].
  etransitivity; [|apply (usdc_transferFrom_then env)].
  unfold usdc_transferFrom. tx_unfold.
  destruct (@transferFrom L T1 _ _ _ _ _ _) as [[ok1 l1]|]; [apply IH|reflexivity].
Qed.

(** X14. No entry point looks at the [bool] that [transferFrom] returns:
    two tokens that agree on [permit], [balanceOf] and [nonces], and whose
    [transferFrom] fails on the same calls and leaves the same token state,
    give the same outcome for every request, whatever [bool] each returns.
    A transfer that answers [false] without reverting counts as made. *)
Theorem facilitate_ignores_returned_bool env (req : Request) (c : Chain L) :
  @facilitate L T1 keccak256 env req c = @facilitate L T2 keccak256 env req c.
Proof.
  destruct req as [owner to_ value deadline v r s fee
                  |owner rs value deadline v r s fee
                  |owner to_ value deadline v r s fee
                  |owner rs value deadline v r s fee];
    cbn [facilitate].
  - unfold facilitateTransferWithPermit, usdc_try_permit. tx_unfold.
    rewrite same_permit, same_balanceOf.
    destruct (owner =? 0); cbn; [reflexivity|].
    destruct (to_ =? 0); cbn; [reflexivity|].
    destruct (value =? 0); cbn; [reflexivity|].
    destruct (fee >=? value); cbn; [reflexivity|].
    destruct (block_timestamp env >? deadline); cbn; [reflexivity|].
    destruct (isUsed _ _); cbn; [reflexivity|].
    destruct (@balanceOf L T2 (token c) owner <? value); cbn; [reflexivity|].
    destruct (@permit L T2 _ _ _ _ _ _ _ _ _ _) as [l1|]; cbn; [|reflexivity].
    destruct (fee <=? value); cbn; [|reflexivity].
    rewrite transferFee_same.
    destruct (@transferFee L T2 _ _ _ _) as [[] c2|e2 w2]; [|reflexivity].
    apply (usdc_transferFrom_then env owner to_ (value - fee)
             (emit (FacilitationExecuted owner to_ (value - fee) fee))).
  - unfold facilitateBulkTransferWithPermit, usdc_try_permit. tx_unfold.
    rewrite same_permit, same_balanceOf.
    destruct (owner =? 0); cbn; [reflexivity|].
    destruct (length_of rs =? 0); cbn; [reflexivity|].
    destruct (value =? 0); cbn; [reflexivity|].
    destruct (fee >=? value); cbn; [reflexivity|].
    destruct (block_timestamp env >? deadline); cbn; [reflexivity|].
    destruct (validateRecipients 0 rs c) as [total c0|e0 w0]; [|reflexivity].
    destruct (total + fee <=? MAX_UINT256); cbn; [|reflexivity].
    destruct (value =? total + fee); cbn; [|reflexivity].
    destruct (@balanceOf L T2 (token c0) owner <? value); cbn; [reflexivity|].
    destruct (@permit L T2 _ _ _ _ _ _ _ _ _ _) as [l1|]; cbn; [|reflexivity].
    rewrite transferFee_same.
    destruct (@transferFee L T2 _ _ _ _) as [[] c2|e2 w2]; [|reflexivity].
    rewrite transferToEach_same. reflexivity.
  - unfold facilitateTransferWithNonStandardPermit, usdc_try_permit. tx_unfold.
    rewrite same_permit, same_balanceOf, same_nonces.
    destruct (owner =? 0); cbn; [reflexivity|].
    destruct (to_ =? 0); cbn; [reflexivity|].
    destruct (value =? 0); cbn; [reflexivity|].
    destruct (fee >=? value); cbn; [reflexivity|].
    destruct (block_timestamp env >? deadline); cbn; [reflexivity|].
    destruct (isUsed _ _); cbn; [reflexivity|].
    destruct (@balanceOf L T2 (token c) owner <? value); cbn; [reflexivity|].
    destruct (@permit L T2 _ _ _ _ _ _ _ _ _ _) as [l1|]; cbn; [|reflexivity].
    destruct (fee <=? value); cbn; [|reflexivity].
    rewrite transferFee_same.
    destruct (@transferFee L T2 _ _ _ _) as [[] c2|e2 w2]; [|reflexivity].
    apply (usdc_transferFrom_then env owner to_ (value - fee)
             (emit (FacilitationExecuted owner to_ (value - fee) fee))).
  - unfold facilitateBulkTransferWithNonStandardPermit, usdc_try_permit. tx_unfold.
    rewrite same_permit, same_balanceOf, same_nonces.
    destruct (owner =? 0); cbn; [reflexivity|].
    destruct (length_of rs =? 0); cbn; [reflexivity|].
    destruct (value =? 0); cbn; [reflexivity|].
    destruct (fee >=? value); cbn; [reflexivity|].
    destruct (block_timestamp env >? deadline); cbn; [reflexivity|].
    destruct (validateRecipients 0 rs c) as [total c0|e0 w0]; [|reflexivity].
    destruct (total + fee <=? MAX_UINT256); cbn; [|reflexivity].
    destruct (value =? total + fee); cbn; [|reflexivity].
    destruct (isUsed _ _); cbn; [reflexivity|].
    destruct (@balanceOf L T2 (token c0) owner <? value); cbn; [reflexivity|].
    destruct (@permit L T2 _ _ _ _ _ _ _ _ _ _) as [l1|]; cbn; [|reflexivity].
    rewrite transferFee_same.
    destruct (@transferFee L T2 _ _ _ _) as [[] c2|e2 w2]; [|reflexivity].
    rewrite transferToEach_same. reflexivity.
Qed.

End ReturnValue.

Section Administration.
Context {L : Type} `{IUSDC L}.
Variable keccak256 : list Z -> bytes32.

Lemma act_keeps (a : Action L) (d : Deployed L) :
  (feeCollector (store (chain d)) <> 0 ->
   feeCollector (store (chain (act keccak256 a d))) <> 0) /\
  (forall h, isPermitUsed h (chain d) = true ->
             isPermitUsed h (chain (act keccak256 a d)) = true).
Proof.
  destruct a as [env req|sender new|newOwner|l]; cbn.
  - destruct (facilitate_registry keccak256 env req (chain d)) as (Hfc & Hkeep & _).
    cbn zeta in *.
    split; [now rewrite Hfc|exact Hkeep].
  - unfold updateFeeCollector.
    destruct (sender =? ownable_owner d); cbn; [|now auto].
    destruct (Z.eqb_spec new 0); cbn; now auto.
  - now auto.
  - now auto.
Qed.

Lemma history_keeps (actions : list (Action L)) :
  forall d : Deployed L,
    (feeCollector (store (chain d)) <> 0 ->
     feeCollector (store (chain (history keccak256 actions d))) <> 0) /\
    (forall h, isPermitUsed h (chain d) = true ->
               isPermitUsed h (chain (history keccak256 actions d)) = true).
Proof.
  induction actions as [|a actions IH]; intros d; cbn; [now auto|].
  destruct (act_keeps a d) as (Hfc & Hkeep).
  destruct (IH (act keccak256 a d)) as (Hfc' & Hkeep').
  split; auto.
Qed.

(** X15. From a deployment that the constructor accepts, through every
    sequence of transfer requests, [updateFeeCollector] calls from any
    account, changes of owner and outside changes of the token, the fee
    collector is never the null address. *)
Theorem feeCollector_never_null msg_sender _usdc _feeCollector (l : L)
    (d : Deployed L) (actions : list (Action L)) :
  constructor msg_sender _usdc _feeCollector l = inr d ->
  feeCollector (store (chain (history keccak256 actions d))) <> 0.
Proof.
  unfold constructor.
  destruct (msg_sender =? 0); [discriminate|].
  destruct (_usdc =? 0); cbn; [discriminate|].
  destruct (Z.eqb_spec _feeCollector 0); cbn; [discriminate|].
  intros [= <-]. now apply history_keeps.
Qed.

(** X16. The registry never forgets: a hash for which [isPermitUsed] is
    true stays so through every sequence of transfer requests,
    [updateFeeCollector] calls, changes of owner and outside changes of the
    token. The contract has no way to clear an entry. *)
Theorem registry_never_forgets (actions : list (Action L)) (d : Deployed L) (h : bytes32) :
  isPermitUsed h (chain d) = true ->
  isPermitUsed h (chain (history keccak256 actions d)) = true.
Proof. apply history_keeps. Qed.

(** X17. Only the owner redirects the fees: if one action changes the fee
    collector, the action is a call of [updateFeeCollector] by the current
    owner with a non-null address, the new collector is that address, the
    registry and the token are as before, and the log has gained the event
    [FeeCollectorUpdated] with the old and the new collector. *)
Theorem feeCollector_changed_by_owner_only (a : Action L) (d : Deployed L) :
  let d' := act keccak256 a d in
  feeCollector (store (chain d')) <> feeCollector (store (chain d)) ->
  exists newFeeCollector,
    a = UpdateFeeCollector (ownable_owner d) newFeeCollector /\
    newFeeCollector <> 0 /\
    feeCollector (store (chain d')) = newFeeCollector /\
    usedPermits (store (chain d')) = usedPermits (store (chain d)) /\
    token (chain d') = token (chain d) /\
    log (chain d') = log (chain d)
                     ++ [FeeCollectorUpdated (feeCollector (store (chain d)))
                           newFeeCollector].
Proof.
  destruct a as [env req|sender new|newOwner|l]; cbn.
  - destruct (facilitate_registry keccak256 env req (chain d)) as (Hfc & _).
    cbn zeta in Hfc.
    congruence.
  - unfold updateFeeCollector.
    destruct (Z.eqb_spec sender (ownable_owner d)) as [->|]; cbn; [|congruence].
    destruct (Z.eqb_spec new 0); cbn; [congruence|].
    intros _. exists new. repeat split; auto.
  - congruence.
  - congruence.
Qed.

(** X18. A permit is used at most once by [facilitateTransferWithPermit]:
    once a request with it has completed, then after every sequence of
    transfer requests, collector updates, changes of owner and outside
    changes of the token, a request with the same owner, value, deadline
    and signature is refused with [PermitAlreadyUsed], whatever recipient
    and fee it names, as long as it passes the argument and deadline
    checks. *)
Theorem single_permit_never_reused env1 env2 owner to_ to_' value deadline v r s
    feeAmount feeAmount' (d : Deployed L) (c1 : Chain L) (actions : list (Action L)) :
  facilitateTransferWithPermit keccak256 env1 owner to_ value deadline v r s feeAmount
      (chain d) = Done tt c1 ->
  this env2 = this env1 ->
  to_' <> 0 -> feeAmount' < value -> block_timestamp env2 <= deadline ->
  let later :=
    chain (history keccak256 actions (mkDeployed (ownable_owner d) (usdc d) c1)) in
  transact (facilitateTransferWithPermit keccak256 env2 owner to_' value deadline
              v r s feeAmount') later = (later, Some PermitAlreadyUsed).
Proof.
  intros Hdone Hthis Hto Hfee Hd later.
  eapply (single_permit_reuse keccak256); eauto.
  intros h Hused.
  now apply (history_keeps actions (mkDeployed (ownable_owner d) (usdc d) c1)).
Qed.

(** X19. After the owner's [updateFeeCollector], fees go to the new
    collector: a request with a positive fee that completes on the updated
    state makes its first transfer, right after the permit, to the new
    collector, for exactly the fee. *)
Theorem fee_goes_to_new_collector msg_sender newFeeCollector env (req : Request)
    (d d' : Deployed L) (c' : Chain L) :
  updateFeeCollector msg_sender newFeeCollector d = inr d' ->
  facilitate keccak256 env req (chain d') = Done tt c' ->
  0 < request_fee req ->
  msg_sender = ownable_owner d /\
  exists moves,
    trace c' = trace (chain d)
               ++ request_permit (this env) req
               :: CallTransferFrom (request_owner req) newFeeCollector (request_fee req)
               :: moves.
Proof.
  unfold updateFeeCollector.
  destruct (Z.eqb_spec msg_sender (ownable_owner d)) as [Howner|]; cbn; [|discriminate].
  destruct (newFeeCollector =? 0); [discriminate|].
  intros [= <-] Hdone Hfee. split; [exact Howner|].
  apply facilitate_done in Hdone. cbn zeta in Hdone.
  destruct Hdone as (_ & _ & _ & Ht & _). cbn in Ht.
  exists (request_moves req). rewrite Ht. unfold request_calls, fee_move.
  now replace (request_fee req >? 0) with true by (symmetry; lia).
Qed.

End Administration.

(** * The further properties at concrete requests *)

(** C3 at [alice]'s request: carried out at time 1000, its fingerprint is
    marked used; submitted again at time 3000, after the deadline of 2000,
    in the state the first run left, it reverts with [PermitExpired]. *)
Lemma C3_expired_witness :
  isPermitUsed (permitHash ref_keccak256 (at_time 1000) alice 1000000 2000 27
                  alice_signature alice) after_single = true /\
  transact (facilitate ref_keccak256 (at_time 3000) single_req) after_single
    = (after_single, Some PermitExpired).
Proof.
  assert (Hdone : facilitate ref_keccak256 (at_time 1000) single_req (genesis 1000000)
                  = Done tt after_single)
    by (vm_compute; reflexivity).
  assert (Hd : request_deadline single_req < block_timestamp (at_time 3000))
    by reflexivity.
  destruct (proj1 (C3_expired_reported_before_replay (L := RefLedger) ref_keccak256)
              (at_time 1000) (at_time 3000) single_req (genesis 1000000) after_single
              Hdone Hd) as [Hused Hexpired].
  split.
  - apply Hused. reflexivity.
  - exact (Hexpired after_single).
Defined.

(** C6 at the scenario of the specification: balance 1,000,000, total
    1,000,000, fee 10,000. The collector is paid 10,000 first, then the
    recipient 990,000; in the bulk request the collector is paid first,
    then [bob], then [carol]. The same through the two non-standard entry
    points. *)
Lemma C6_fee_then_recipients_witness :
  (trace after_single
     = [CallPermit alice facilitator_address 1000000 2000 27
          (ref_sign_r alice facilitator_address 1000000 0 2000) alice;
        CallTransferFrom alice collector 10000;
        CallTransferFrom alice bob 990000] /\
   ref_balanceOf (token after_single) collector = 10000 /\
   ref_balanceOf (token after_single) bob = 990000) /\
  (let c' := fst (transact (bulk_request 1000 1000000) (genesis 1000000)) in
   trace c'
     = [CallPermit alice facilitator_address 1000000 2000 27
          (ref_sign_r alice facilitator_address 1000000 0 2000) alice;
        CallTransferFrom alice collector 10000;
        CallTransferFrom alice bob 600000;
        CallTransferFrom alice carol 390000] /\
   ref_balanceOf (token c') collector = 10000 /\
   ref_balanceOf (token c') bob = 600000 /\
   ref_balanceOf (token c') carol = 390000) /\
  (trace after_nonstandard
     = [CallPermit alice facilitator_address 1000000 2000 27
          (ref_sign_r alice facilitator_address 1000000 0 2000) alice;
        CallTransferFrom alice collector 10000;
        CallTransferFrom alice bob 990000] /\
   ref_balanceOf (token after_nonstandard) collector = 10000 /\
   ref_balanceOf (token after_nonstandard) bob = 990000) /\
  (let c' := fst (transact
                    (facilitate ref_keccak256 (at_time 1000) bulk_nonstandard_req)
                    (genesis 1000000)) in
   trace c'
     = [CallPermit alice facilitator_address 1000000 2000 27
          (ref_sign_r alice facilitator_address 1000000 0 2000) alice;
        CallTransferFrom alice collector 10000;
        CallTransferFrom alice bob 600000;
        CallTransferFrom alice carol 390000] /\
   ref_balanceOf (token c') collector = 10000 /\
   ref_balanceOf (token c') bob = 600000 /\
   ref_balanceOf (token c') carol = 390000).
Proof.
  destruct (C6_fee_then_recipients (L := RefLedger) ref_keccak256)
    as (Hsingle & Hbulk & Hnonstandard & Hbulk_nonstandard).
  split; [|split; [|split]].
  - destruct (Hsingle (at_time 1000) alice bob 1000000 2000 27
                (ref_sign_r alice facilitator_address 1000000 0 2000) alice 10000
                (genesis 1000000) after_single) as (_ & Htrace & _).
    + vm_compute; reflexivity.
    + split; [exact Htrace|]. vm_compute. split; reflexivity.
  - destruct (Hbulk (at_time 1000) alice two_recipients 1000000 2000 27
                (ref_sign_r alice facilitator_address 1000000 0 2000) alice 10000
                (genesis 1000000)
                (fst (transact (bulk_request 1000 1000000) (genesis 1000000))))
      as (Htrace & _).
    + vm_compute; reflexivity.
    + split; [exact Htrace|]. vm_compute. repeat split; reflexivity.
  - destruct (Hnonstandard (at_time 1000) alice bob 1000000 2000 27
                (ref_sign_r alice facilitator_address 1000000 0 2000) alice 10000
                (genesis 1000000) after_nonstandard) as (_ & Htrace & _).
    + vm_compute; reflexivity.
    + split; [exact Htrace|]. vm_compute. split; reflexivity.
  - destruct (Hbulk_nonstandard (at_time 1000) alice two_recipients 1000000 2000 27
                (ref_sign_r alice facilitator_address 1000000 0 2000) alice 10000
                (genesis 1000000)
                (fst (transact
                        (facilitate ref_keccak256 (at_time 1000) bulk_nonstandard_req)
                        (genesis 1000000))))
      as (Htrace & _).
    + vm_compute; reflexivity.
    + split; [exact Htrace|]. vm_compute. repeat split; reflexivity.
Defined.



(** X3 at the two-recipient request of 1,000,000 with fee 10,000: it
    completes, so its checks hold. *)
Lemma bulk_permit_completes_witness :
  bulk_checked (at_time 1000) alice two_recipients 1000000 2000 10000 (genesis 1000000).
Proof.
  pose proof (bulk_permit_completes_iff (L := RefLedger) (at_time 1000) alice
                two_recipients 1000000 2000 27 alice_signature alice 10000
                (genesis 1000000)
                (fst (transact (facilitate ref_keccak256 (at_time 1000) bulk_req)
                        (genesis 1000000)))
                ltac:(vm_compute; split; discriminate)
                ltac:(vm_compute; split; discriminate)
                ltac:(repeat constructor; vm_compute; discriminate)) as Hiff.
  cbv zeta in Hiff. destruct Hiff as [Hchecks _].
  destruct Hchecks as [Hck _]; [vm_compute; reflexivity|exact Hck].
Defined.

(** X4 at the same request through the non-standard entry point: its
    fingerprint was not on the registry of the fresh deployment. *)
Lemma bulk_nonstandard_completes_witness :
  isPermitUsed
    (bulkNonStandardPermitHash ref_keccak256 (at_time 1000) alice 1000000 2000
       (nonces (token (genesis 1000000)) alice) (length_of two_recipients))
    (genesis 1000000) = false.
Proof.
  pose proof (bulk_nonstandard_completes_iff (L := RefLedger) ref_keccak256
                (at_time 1000) alice two_recipients 1000000 2000 27 alice_signature
                alice 10000 (genesis 1000000)
                (fst (transact
                        (facilitate ref_keccak256 (at_time 1000) bulk_nonstandard_req)
                        (genesis 1000000)))
                ltac:(vm_compute; split; discriminate)
                ltac:(vm_compute; split; discriminate)
                ltac:(repeat constructor; vm_compute; discriminate)) as Hiff.
  cbv zeta in Hiff. destruct Hiff as [Hchecks _].
  destruct Hchecks as (_ & Hfresh & _); [vm_compute; reflexivity|exact Hfresh].
Defined.


(** X7 at the bulk request: one event, reporting 990,000 sent and a fee
    of 10,000. *)
Lemma facilitate_event_accounts_witness :
  exists ev,
    log (fst (transact (facilitate ref_keccak256 (at_time 1000) bulk_req)
                (genesis 1000000)))
    = log (genesis 1000000) ++ [ev] /\
    ev = request_event bulk_req /\
    fst (event_amounts ev) + snd (event_amounts ev) = request_value bulk_req.
Proof.
  assert (Hdone : facilitate ref_keccak256 (at_time 1000) bulk_req (genesis 1000000)
                  = Done tt (fst (transact
                                    (facilitate ref_keccak256 (at_time 1000) bulk_req)
                                    (genesis 1000000))))
    by (vm_compute; reflexivity).
  exact (facilitate_event_accounts_for_value ref_keccak256 (at_time 1000)
           bulk_req (genesis 1000000) _ Hdone).
Defined.

(** X8 at a replay of the single request, and at the same request
    against a balance of 500. *)
Lemma facilitate_error_tells_cause_witness :
  error_cause ref_keccak256 (at_time 1500) single_req after_single PermitAlreadyUsed /\
  error_cause ref_keccak256 (at_time 1000) single_req (genesis 500) InsufficientBalance.
Proof.
  assert (Hreplay : snd (transact (facilitate ref_keccak256 (at_time 1500) single_req)
                           after_single) = Some PermitAlreadyUsed)
    by (vm_compute; reflexivity).
  assert (Hpoor : snd (transact (facilitate ref_keccak256 (at_time 1000) single_req)
                         (genesis 500)) = Some InsufficientBalance)
    by (vm_compute; reflexivity).
  split.
  - exact (facilitate_error_tells_cause ref_keccak256 (at_time 1500) single_req
             after_single PermitAlreadyUsed Hreplay).
  - exact (facilitate_error_tells_cause ref_keccak256 (at_time 1000) single_req
             (genesis 500) InsufficientBalance Hpoor).
Defined.

(** X18: after [alice]'s request has completed and [some_actions] have
    run, her permit is refused for another recipient and without fee. *)
Lemma single_permit_never_reused_witness :
  let later :=
    chain (history ref_keccak256 some_actions
             (mkDeployed (ownable_owner (deployed (genesis 1000000)))
                (usdc (deployed (genesis 1000000))) after_single)) in
  transact (facilitateTransferWithPermit ref_keccak256 (at_time 1500) alice carol
              1000000 2000 27 alice_signature alice 0) later
  = (later, Some PermitAlreadyUsed).
Proof.
  assert (Hdone : facilitateTransferWithPermit ref_keccak256 (at_time 1000) alice bob
                    1000000 2000 27 alice_signature alice 10000
                    (chain (deployed (genesis 1000000)))
                  = Done tt after_single)
    by (vm_compute; reflexivity).
  assert (Hto : carol <> 0) by (vm_compute; discriminate).
  assert (Hfee : 0 < 1000000) by reflexivity.
  assert (Hd : block_timestamp (at_time 1500) <= 2000) by (vm_compute; discriminate).
  exact (single_permit_never_reused ref_keccak256 (at_time 1000) (at_time 1500)
           alice bob carol 1000000 2000 27 alice_signature alice 10000 0
           (deployed (genesis 1000000)) after_single some_actions
           Hdone eq_refl Hto Hfee Hd).
Defined.



(** X12 at the two recipients: 600,000 + 390,000. *)
Lemma calculateTotalRecipientAmount_witness :
  calculateTotalRecipientAmount two_recipients (genesis 1000000)
  = if sum_amounts two_recipients <=? MAX_UINT256
    then Done (sum_amounts two_recipients) (genesis 1000000)
    else Reverted ArithmeticPanic (genesis 1000000).
Proof.
  assert (Hrange : Forall (fun rc => is_uint256 (amount rc)) two_recipients)
    by (repeat constructor; vm_compute; discriminate).
  exact (calculateTotalRecipientAmount_spec two_recipients (genesis 1000000) Hrange).
Defined.

(** X13 at the bulk request of 1,000,000 with fee 10,000. *)
Lemma calculateTotalRecipientAmount_of_completed_witness :
  calculateTotalRecipientAmount two_recipients (genesis 0)
  = Done (1000000 - 10000) (genesis 0).
Proof.
  assert (Hdone : facilitateBulkTransferWithPermit (at_time 1000) alice two_recipients
                    1000000 2000 27 alice_signature alice 10000 (genesis 1000000)
                  = Done tt (fst (transact
                                    (facilitate ref_keccak256 (at_time 1000) bulk_req)
                                    (genesis 1000000))))
    by (vm_compute; reflexivity).
  assert (Hfee : is_uint256 10000) by (vm_compute; split; discriminate).
  assert (Htotal : is_uint256 1000000) by (vm_compute; split; discriminate).
  assert (Hrange : Forall (fun rc => is_uint256 (amount rc)) two_recipients)
    by (repeat constructor; vm_compute; discriminate).
  exact (calculateTotalRecipientAmount_of_completed ref_keccak256 (at_time 1000) alice
           two_recipients 1000000 2000 27 alice_signature alice 10000
           (genesis 1000000) _ (genesis 0) (or_introl Hdone) Hfee Htotal Hrange).
Defined.

Lemma quiet_token_moves now caller from to_ amount_ (l : RefLedger) :
  option_map snd (@transferFrom RefLedger RefToken now caller from to_ amount_ l)
  = option_map snd (@transferFrom RefLedger QuietToken now caller from to_ amount_ l).
Proof.
  cbn. unfold quiet_transferFrom.
  destruct (ref_transferFrom now caller from to_ amount_ l) as [[ok l']|]; reflexivity.
Qed.

(** X14 at the reference token and the token that answers [false]: the
    single request has the same outcome on both. *)
Lemma facilitate_ignores_returned_bool_witness :
  @facilitate RefLedger RefToken ref_keccak256 (at_time 1000) single_req
    (genesis 1000000)
  = @facilitate RefLedger QuietToken ref_keccak256 (at_time 1000) single_req
      (genesis 1000000).
Proof.
  exact (facilitate_ignores_returned_bool RefToken QuietToken ref_keccak256
           eq_refl eq_refl eq_refl quiet_token_moves
           (at_time 1000) single_req (genesis 1000000)).
Defined.

(** X15 at a deployment by account 9 with collector 77, after
    [some_actions]. *)
Lemma feeCollector_never_null_witness :
  feeCollector (store (chain (history ref_keccak256 some_actions
                                (deployed (genesis 1000000))))) <> 0.
Proof.
  assert (Hdeploy : constructor deployer 5000 collector (token (genesis 1000000))
                    = inr (deployed (genesis 1000000)))
    by reflexivity.
  exact (feeCollector_never_null ref_keccak256 deployer 5000 collector
           (token (genesis 1000000)) (deployed (genesis 1000000)) some_actions
           Hdeploy).
Defined.

(** X16 at the fingerprint of [alice]'s completed request, after
    [some_actions]. *)
Lemma registry_never_forgets_witness :
  isPermitUsed single_fingerprint
    (chain (history ref_keccak256 some_actions (deployed after_single))) = true.
Proof.
  assert (Hused : isPermitUsed single_fingerprint (chain (deployed after_single)) = true)
    by (vm_compute; reflexivity).
  exact (registry_never_forgets ref_keccak256 some_actions (deployed after_single)
           single_fingerprint Hused).
Defined.

(** X17 at the owner's call that moves the collector from 77 to 88. *)
Lemma feeCollector_changed_by_owner_witness :
  let d := deployed (genesis 1000000) in
  let d' := act ref_keccak256 (UpdateFeeCollector deployer 88) d in
  exists newFeeCollector,
    @UpdateFeeCollector RefLedger deployer 88
    = UpdateFeeCollector (ownable_owner d) newFeeCollector /\
    newFeeCollector <> 0 /\
    feeCollector (store (chain d')) = newFeeCollector /\
    usedPermits (store (chain d')) = usedPermits (store (chain d)) /\
    token (chain d') = token (chain d) /\
    log (chain d') = log (chain d)
                     ++ [FeeCollectorUpdated (feeCollector (store (chain d)))
                           newFeeCollector].
Proof.
  intros d d'.
  assert (Hchanged : feeCollector (store (chain d')) <> feeCollector (store (chain d)))
    by (vm_compute; discriminate).
  exact (feeCollector_changed_by_owner_only ref_keccak256
           (UpdateFeeCollector deployer 88) d Hchanged).
Defined.


(** X19: the owner moves the collector from 77 to 88; [alice]'s request
    then pays its fee of 10,000 to 88. *)
Lemma fee_goes_to_new_collector_witness :
  let d := deployed (genesis 1000000) in
  let d' := act ref_keccak256 (UpdateFeeCollector deployer 88) d in
  let c' := fst (transact (facilitate ref_keccak256 (at_time 1000) single_req)
                   (chain d')) in
  deployer = ownable_owner d /\
  exists moves,
    trace c' = trace (chain d)
               ++ request_permit (this (at_time 1000)) single_req
               :: CallTransferFrom (request_owner single_req) 88 (request_fee single_req)
               :: moves.
Proof.
  intros d d' c'.
  assert (Hupdate : updateFeeCollector deployer 88 d = inr d') by reflexivity.
  assert (Hdone : facilitate ref_keccak256 (at_time 1000) single_req (chain d')
                  = Done tt c')
    by (vm_compute; reflexivity).
  assert (Hfee : 0 < request_fee single_req) by reflexivity.
  exact (fee_goes_to_new_collector ref_keccak256 deployer 88 (at_time 1000) single_req
           d d' c' Hupdate Hdone Hfee).
Defined.

(** * Further properties of the amount codec *)

Section AmountFacts.
Import Ethers.
Local Open Scope char_scope.

Lemma digit_value_range (c : ascii) : is_digit c = true -> (0 <= digit_value c <= 9)%Z.
Proof.
  unfold is_digit, digit_value. cbv zeta.
  intros [Hlo Hhi]%andb_true_iff.
  apply Nat.leb_le in Hlo. apply Nat.leb_le in Hhi. lia.
Qed.

Lemma BigInt_of_digits_nonneg (ds : list ascii) :
  all_digits ds -> (0 <= BigInt_of_digits ds)%Z.
Proof.
  induction ds as [|c ds IH] using rev_ind; intros Hall.
  - cbn. lia.
  - apply Forall_app in Hall as [Hds Hc]. inversion Hc as [|? ? Hd _]; subst.
    rewrite BigInt_of_digits_snoc.
    pose proof (digit_value_range c Hd). specialize (IH Hds). lia.
Qed.

Lemma all_digits_zeros (k : nat) : all_digits (replicate k "0").
Proof. apply Forall_replicate. reflexivity. Qed.

(** The value [fromString] gives to a decimal text whose fraction is
    [frac] followed by [j] zeros, with [frac] within the precision. *)
Lemma fromString_value (whole frac : list ascii) (j decimals : nat) :
  all_digits whole -> whole <> [] -> all_digits frac ->
  (length frac <= decimals)%nat -> (decimals <= 80)%nat ->
  fromString (whole ++ "." :: frac ++ replicate j "0") decimals
  = checkValue (BigInt_of_digits whole * 10 ^ Z.of_nat decimals
                + BigInt_of_digits frac * 10 ^ Z.of_nat (decimals - length frac))%Z.
Proof.
  intros Hw Hne Hf Hlen Hfmt. unfold fromString.
  rewrite match_number_decimal; try assumption.
  2:{ apply Forall_app. split; [assumption|apply all_digits_zeros]. }
  replace (length whole + length (frac ++ replicate j "0") =? 0)%nat with false.
  2:{ symmetry. apply Nat.eqb_neq. destruct whole; [congruence|]. cbn. lia. }
  unfold format_ok.
  replace (decimals <=? 80)%nat with true by (symmetry; now apply Nat.leb_le).
  cbn [negb].
  destruct (pad_decimal_spec decimals (frac ++ replicate j "0") decimals)
    as (k & -> & Hk & _); [lia|].
  rewrite length_app, length_replicate in Hk.
  rewrite <- app_assoc, <- replicate_add.
  rewrite drop_app_ge, drop_replicate, all_zeros_replicate by lia. cbn [negb].
  rewrite take_app_ge, take_replicate by lia.
  replace (Nat.min (decimals - length frac) (j + k)) with (decimals - length frac)%nat
    by lia.
  replace (match whole with [] => ["0"] | _ :: _ => whole end) with whole
    by (destruct whole; [congruence|reflexivity]).
  f_equal.
  rewrite BigInt_of_digits_app, length_app, length_replicate.
  rewrite BigInt_of_digits_app, length_replicate, BigInt_of_zeros.
  replace (length frac + (decimals - length frac))%nat with decimals by lia.
  lia.
Qed.

Lemma match_number_no_whole (frac : list ascii) :
  all_digits frac -> match_number ("." :: frac) = Some (false, [], frac).
Proof.
  intros Hf. unfold match_number. cbn.
  change (is_digit ".") with false. cbn.
  now rewrite take_digits_all, drop_digits_all.
Qed.

Lemma fromString_no_whole (frac : list ascii) (decimals : nat) :
  all_digits frac -> frac <> [] ->
  fromString ("." :: frac) decimals = fromString ("0" :: "." :: frac) decimals.
Proof.
  intros Hf Hne. unfold fromString.
  rewrite match_number_no_whole by assumption.
  change ("0" :: "." :: frac) with (["0"] ++ "." :: frac).
  rewrite (match_number_decimal ["0"] frac); [|repeat constructor|discriminate|assumption].
  destruct frac; [congruence|]. reflexivity.
Qed.

Lemma fromString_no_fraction (whole : list ascii) (decimals : nat) :
  all_digits whole -> whole <> [] ->
  fromString (whole ++ ["."]) decimals = fromString whole decimals.
Proof.
  intros Hw Hne. unfold fromString.
  rewrite (match_number_decimal whole []); [|assumption|assumption|constructor].
  now rewrite match_number_integer.
Qed.

Lemma toString_negative (x : Z) (decimals : nat) :
  (x < 0)%Z -> toString x decimals = "-" :: toString (- x) decimals.
Proof.
  intros Hx. unfold toString.
  replace (x <? 0)%Z with true by (symmetry; lia).
  replace (- x <? 0)%Z with false by (symmetry; lia).
  replace (Z.abs (- x)) with (Z.abs x) by lia.
  destruct (decimals =? 0)%nat; reflexivity.
Qed.

Lemma toString_unsigned (x : Z) (decimals : nat) :
  (0 <= x)%Z -> forall rest, toString x decimals <> "-" :: rest.
Proof.
  intros Hx rest Heq.
  assert (Hhead : forall ds tl, all_digits ds -> ds <> [] -> ds ++ tl <> "-" :: rest).
  { intros ds tl Hds Hne. destruct ds as [|d ds]; [congruence|].
    inversion Hds as [|? ? Hd _]; subst. cbn. intros [= -> _]. discriminate. }
  destruct decimals as [|p].
  - rewrite toString_integer in Heq by lia.
    destruct (digits_spec x Hx) as (_ & Hdig & Hne).
    apply (Hhead (digits x) [] Hdig Hne). now rewrite app_nil_r.
  - destruct (toString_shape x (S p)) as (whole & frac & k & Hshape & Hw & Hwne & _);
      [lia|lia|].
    rewrite Hshape in Heq. now apply (Hhead whole _ Hw Hwne) in Heq.
Qed.

End AmountFacts.

(** X20. [formatUSDCAmount] scales a decimal text by [10^decimals]: for a
    text made of a whole part, a point, a fraction [frac] of at most
    [decimals] digits and any number of further zeros, with [decimals] at
    most 80, the result is the decimal notation of
    [whole * 10^decimals + frac * 10^(decimals - length frac)], as long as
    that number is below [2^511]. Zeros after the fraction, also beyond the
    precision, change nothing. *)
Theorem formatUSDCAmount_scales (whole frac : list ascii) (j decimals : nat) :
  all_digits whole -> whole <> [] -> all_digits frac ->
  (length frac <= decimals)%nat -> (decimals <= 80)%nat ->
  let units := Ethers.BigInt_of_digits whole * 10 ^ Z.of_nat decimals
               + Ethers.BigInt_of_digits frac * 10 ^ Z.of_nat (decimals - length frac) in
  units < 2 ^ 511 ->
  let text := formatUSDCAmount
                (string_of_list_ascii (whole ++ "."%char :: frac ++ replicate j "0"%char))
                decimals in
  text = string_of_list_ascii (Ethers.digits units) /\
  Ethers.BigInt_of_digits (list_ascii_of_string text) = units.
Proof.
  intros Hw Hne Hf Hlen Hfmt units Hunits text.
  assert (Hpos : 0 <= units).
  { pose proof (BigInt_of_digits_nonneg whole Hw).
    pose proof (BigInt_of_digits_nonneg frac Hf).
    unfold units. nia. }
  assert (Htext : text = string_of_list_ascii (Ethers.digits units)).
  { unfold text, formatUSDCAmount, Ethers.parseUnits.
    rewrite list_ascii_of_string_of_list_ascii.
    rewrite fromString_value by assumption. fold units.
    rewrite checkValue_in_range by lia.
    unfold Ethers.BigInt_toString.
    now replace (units <? 0) with false by (symmetry; lia). }
  split; [exact Htext|].
  rewrite Htext, list_ascii_of_string_of_list_ascii.
  now apply digits_spec.
Qed.

(** X21. The round trip also holds below zero: for an integer
    [-2^511 < x < 0] and a precision of at most 80, [parseUSDCAmount] gives
    the text of [-x] with a minus sign in front, and [formatUSDCAmount] of
    that text at the same precision is the decimal notation of [x]. *)
Theorem negative_round_trip (x : Z) (decimals : nat) :
  - 2 ^ 511 < x < 0 -> (decimals <= 80)%nat ->
  parseUSDCAmount x decimals = String "-" (parseUSDCAmount (- x) decimals) /\
  Ethers.parseUnits (parseUSDCAmount x decimals) decimals = Some x /\
  formatUSDCAmount (parseUSDCAmount x decimals) decimals
  = string_of_list_ascii (Ethers.BigInt_toString x).
Proof.
  intros Hx Hfmt.
  assert (Hneg : parseUSDCAmount x decimals
                 = string_of_list_ascii (Ethers.toString x decimals)).
  { unfold parseUSDCAmount, Ethers.formatUnits, Ethers.format_ok, Ethers.checkValue.
    replace (decimals <=? 80)%nat with true by (symmetry; now apply Nat.leb_le).
    replace (- 2 ^ 511 <=? x) with true by (symmetry; lia).
    replace (x <? 2 ^ 511) with true by (symmetry; lia). reflexivity. }
  assert (Hpos : parseUSDCAmount (- x) decimals
                 = string_of_list_ascii (Ethers.toString (- x) decimals)).
  { unfold parseUSDCAmount, Ethers.formatUnits, Ethers.format_ok.
    replace (decimals <=? 80)%nat with true by (symmetry; now apply Nat.leb_le).
    now rewrite checkValue_in_range by lia. }
  assert (Hparse : Ethers.parseUnits (parseUSDCAmount x decimals) decimals = Some x).
  { rewrite Hneg. unfold Ethers.parseUnits.
    rewrite list_ascii_of_string_of_list_ascii, toString_negative by lia.
    replace (Some x) with (Some (- - x)) by (f_equal; lia).
    apply fromString_minus; [apply toString_unsigned; lia| |lia].
    destruct (formatUnits_parseUnits (- x) decimals) as (t & Hformat & Hback & _);
      [lia|assumption|].
    unfold Ethers.formatUnits, Ethers.format_ok in Hformat.
    replace (decimals <=? 80)%nat with true in Hformat
      by (symmetry; now apply Nat.leb_le).
    rewrite checkValue_in_range in Hformat by lia. cbn in Hformat.
    injection Hformat as <-. unfold Ethers.parseUnits in Hback.
    now rewrite list_ascii_of_string_of_list_ascii in Hback. }
  repeat split.
  - rewrite Hneg, Hpos, toString_negative by lia. reflexivity.
  - exact Hparse.
  - unfold formatUSDCAmount. now rewrite Hparse.
Qed.

(** X22. In the text given to [formatUSDCAmount] the whole part and the
    fraction are each optional: a text that starts with the point reads as
    if a 0 stood before it, and a whole number followed by a point reads as
    the whole number alone. *)
Theorem formatUSDCAmount_optional_parts (ds : list ascii) (decimals : nat) :
  all_digits ds -> ds <> [] ->
  formatUSDCAmount (string_of_list_ascii ("."%char :: ds)) decimals
  = formatUSDCAmount (string_of_list_ascii ("0"%char :: "."%char :: ds)) decimals /\
  formatUSDCAmount (string_of_list_ascii (ds ++ ["."%char])) decimals
  = formatUSDCAmount (string_of_list_ascii ds) decimals.
Proof.
  intros Hds Hne. unfold formatUSDCAmount, Ethers.parseUnits.
  rewrite !list_ascii_of_string_of_list_ascii.
  now rewrite fromString_no_whole, fromString_no_fraction.
Qed.

(** X20 at the text 1.500 with six decimals. *)
Lemma formatUSDCAmount_scales_witness :
  formatUSDCAmount "1.500" 6 = "1500000"%string.
Proof.
  assert (Hwhole : all_digits ["1"%char]) by (repeat constructor).
  assert (Hfrac : all_digits ["5"%char]) by (repeat constructor).
  assert (Hne : ["1"%char] <> []) by discriminate.
  assert (Hlen : (length ["5"%char] <= 6)%nat) by (cbn; lia).
  assert (Hfmt : (6 <= 80)%nat) by lia.
  assert (Hunits : Ethers.BigInt_of_digits ["1"%char] * 10 ^ Z.of_nat 6
                   + Ethers.BigInt_of_digits ["5"%char]
                     * 10 ^ Z.of_nat (6 - length ["5"%char]) < 2 ^ 511)
    by (vm_compute; reflexivity).
  destruct (formatUSDCAmount_scales ["1"%char] ["5"%char] 2 6
              Hwhole Hne Hfrac Hlen Hfmt Hunits) as [Htext _].
  exact Htext.
Defined.

(** X21 at minus one and a half units with six decimals. *)
Lemma negative_round_trip_witness :
  parseUSDCAmount (-1500000) 6 = String "-" (parseUSDCAmount (- -1500000) 6) /\
  Ethers.parseUnits (parseUSDCAmount (-1500000) 6) 6 = Some (-1500000) /\
  formatUSDCAmount (parseUSDCAmount (-1500000) 6) 6
  = string_of_list_ascii (Ethers.BigInt_toString (-1500000)).
Proof.
  assert (Hx : - 2 ^ 511 < -1500000 < 0) by (vm_compute; split; reflexivity).
  assert (Hfmt : (6 <= 80)%nat) by lia.
  exact (negative_round_trip (-1500000) 6 Hx Hfmt).
Defined.

(** X22 at the digit 5 with six decimals. *)
Lemma formatUSDCAmount_optional_parts_witness :
  formatUSDCAmount ".5" 6 = formatUSDCAmount "0.5" 6 /\
  formatUSDCAmount "5." 6 = formatUSDCAmount "5" 6.
Proof.
  assert (Hds : all_digits ["5"%char]) by (repeat constructor).
  assert (Hne : ["5"%char] <> []) by discriminate.
  exact (formatUSDCAmount_optional_parts ["5"%char] 6 Hds Hne).
Defined.
